(** * Choropleth dashboards: temperature and precipitation

    A verification development for the two front-end scripts of the
    repository, [static/main_temp.js] (temperature, property prefix
    [temp_], blue-to-red gradient) and its sibling for precipitation
    (prefix [precip_], white-to-blue gradient, an extra layer of cities).
    Both scripts share, word for word, the value extractor, the range
    calculator, the legend loop and the series builder; they differ in the
    property prefix, the gradient, the stroke color and the number of
    decimals on the legend.

    The file is organised as follows.
    - [Number]: the operations of JavaScript numbers the scripts use, and
      [binary64], their implementation by IEEE doubles, which is what
      engines run, on primitive floats.
    - The built-ins ([isNaN], [Math.min], [Math.max], [Math.round],
      [toFixed], ...) written once over [Number], following ECMA-262, which
      defines them through the mathematical value of a number.
    - The scripts: [Module Shared] for the code they have in common,
      [Module Temp] and [Module Precip] for each of them.
    - The vocabulary of the properties, then the properties.
    - The scripts as a whole: the names of the fields, the style of a
      region, the range and the map of a data set, the legend, the series,
      and the clicks that fill the info panel and the chart.

    Properties that rest on comparisons only (the range calculator, the
    guards, the clamp, the series builder) are proved for every
    implementation of numbers that satisfies [NumberLaws], as doubles do.
    The arithmetic of the gradients and of the legend is that of doubles,
    treated through the specification of the primitive floats: the result
    of an operation on finite doubles is the exact result rounded to
    nearest, so the operations are monotone and stay between the doubles
    that bound the exact result. That gives the well-formed colors, the
    extreme colors, the monotony of the gradients and the ascending legend
    for ranges whose width max - min does not overflow. When the width
    overflows the parameter of a gradient can be NaN, and the mappers then
    return rgb(NaN,NaN,NaN) or rgb(NaN,NaN,255). The values of the legend
    are rounded: they start at min, their last is the double
    min + (max - min), and their spacing need not be even. *)

From Stdlib Require Import ZArith QArith Qround Qabs Qfield Qpower Lqa Lia.
From Stdlib Require Import Floats String Ascii List DecimalString DecimalNat.
From stdpp Require Import base strings gmap list.

Local Open Scope Z_scope.

(* Decimal literals such as 0.1 denote the nearest double, as in JavaScript. *)
Set Warnings "-inexact-float".

(** ** Values of numbers

    ECMA-262 specifies comparison, [Math.round] and [toFixed] through the
    mathematical value of a number: a number is NaN, an infinity, or a
    finite rational. *)

Inductive numval : Type :=
  | NaNv
  | Infv (negative : bool)
  | Finv (q : Q).

(** The results of [Math.round], and integer literals: NaN, an infinity or
    an integer. *)
Inductive integral : Type :=
  | INaN
  | IInf (negative : bool)
  | IInt (z : Z).

(** The operations on numbers used by the scripts. *)
Class Number (N : Type) : Type := {
  lit : Z -> N;                 (* an integer literal or loop counter *)
  lit_half : N;                 (* the literal 0.5 *)
  NaN : N;
  Infinity : N;
  num_neg : N -> N;             (* unary minus *)
  num_add : N -> N -> N;
  num_sub : N -> N -> N;
  num_mul : N -> N -> N;
  num_div : N -> N -> N;
  Math_abs : N -> N;
  val : N -> numval;            (* the mathematical value *)
  is_neg_zero : N -> bool       (* the number is -0 *)
}.

Declare Scope js_scope.
Delimit Scope js_scope with js.
Notation "x + y" := (num_add x y) : js_scope.
Notation "x - y" := (num_sub x y) : js_scope.
Notation "x * y" := (num_mul x y) : js_scope.
Notation "x / y" := (num_div x y) : js_scope.
Notation "- x" := (num_neg x) : js_scope.

(** *** IEEE 754 binary64 *)

Definition b64_lit (z : Z) : float :=
  SF2Prim (binary_normalize prec emax z 0 false).

Definition b64_val (x : float) : numval :=
  match Prim2SF x with
  | S754_zero _ => Finv 0
  | S754_infinity s => Infv s
  | S754_nan => NaNv
  | S754_finite s m e =>
      Finv (inject_Z (if s then Z.neg m else Z.pos m) * Qpower 2 e)%Q
  end.

Definition b64_is_neg_zero (x : float) : bool :=
  match Prim2SF x with
  | S754_zero s => s
  | _ => false
  end.

#[export] Instance binary64 : Number float := {|
  lit := b64_lit;
  lit_half := 0.5%float;
  NaN := PrimFloat.nan;
  Infinity := PrimFloat.infinity;
  num_neg := PrimFloat.opp;
  num_add := PrimFloat.add;
  num_sub := PrimFloat.sub;
  num_mul := PrimFloat.mul;
  num_div := PrimFloat.div;
  Math_abs := PrimFloat.abs;
  val := b64_val;
  is_neg_zero := b64_is_neg_zero
|}.

(** ** Built-ins of the language, over any [Number] *)

(** The sign of a mathematical value, and whether it is zero. *)
Definition Qneg_bool (q : Q) : bool :=
  match (q ?= 0)%Q with Lt => true | _ => false end.

Definition Qzero_bool (q : Q) : bool := Qeq_bool q 0.

(** [x < y] on mathematical values (Number::lessThan): false as soon as an
    operand is NaN. *)
Definition numval_lt (a b : numval) : bool :=
  match a, b with
  | NaNv, _ | _, NaNv => false
  | Infv s, Infv s' => s && negb s'
  | Infv s, Finv _ => s
  | Finv _, Infv s' => negb s'
  | Finv p, Finv q => match (p ?= q)%Q with Lt => true | _ => false end
  end.

(** [x === y] on numbers (Number::equal): NaN differs from everything. *)
Definition numval_eq (a b : numval) : bool :=
  match a, b with
  | Infv s, Infv s' => Bool.eqb s s'
  | Finv p, Finv q => Qeq_bool p q
  | _, _ => false
  end.

(** [x <= y]. *)
Definition numval_le (a b : numval) : bool := numval_lt a b || numval_eq a b.

Definition numval_finite (a : numval) : bool :=
  match a with Finv _ => true | _ => false end.

Definition Z_to_string (z : Z) : string := NilZero.string_of_int (Z.to_int z).

(** [String(n)] for a loop counter. *)
Definition String_of_nat (n : nat) : string :=
  NilZero.string_of_uint (Nat.to_uint n).

(** [s.padStart(n, "0")]. *)
Definition padStart0 (n : nat) (s : string) : string :=
  String.concat "" (repeat "0"%string (n - String.length s)) +:+ s.

(** Number::toString on the results of [Math.round]: the digits in full,
    which is what engines print for every integer up to 2^53. *)
Definition ToString (n : integral) : string :=
  match n with
  | INaN => "NaN"
  | IInf false => "Infinity"
  | IInf true => "-Infinity"
  | IInt z => Z_to_string z
  end.

(** The template [`rgb(${r},${g},${b})`]. *)
Definition rgb (r g b : integral) : string :=
  "rgb(" +:+ ToString r +:+ "," +:+ ToString g +:+ "," +:+ ToString b +:+ ")".

Section Builtins.
Context {N : Type} `{Number N}.

Definition lessThan (x y : N) : bool := numval_lt (val x) (val y).
Definition strictEquals (x y : N) : bool := numval_eq (val x) (val y).
Definition lessEq (x y : N) : bool := numval_le (val x) (val y).
Definition isFinite (x : N) : bool := numval_finite (val x).

Definition Number_isNaN (x : N) : bool :=
  match val x with NaNv => true | _ => false end.

(** ToBoolean on a number: false for +0, -0 and NaN. *)
Definition ToBoolean (x : N) : bool :=
  match val x with
  | NaNv => false
  | Infv _ => true
  | Finv q => negb (Qzero_bool q)
  end.

(** [x || y] on numbers. *)
Definition or_else (x y : N) : N := if ToBoolean x then x else y.

Definition is_pos_zero (x : N) : bool :=
  match val x with
  | Finv q => Qzero_bool q && negb (is_neg_zero x)
  | _ => false
  end.

(** One turn of the loop of [Math.min], on a number that is not NaN: -0 is
    below +0; otherwise the smaller of the two. *)
Definition min_step (lowest number : N) : N :=
  let lowest :=
    if is_neg_zero number && is_pos_zero lowest then number else lowest in
  if lessThan number lowest then number else lowest.

(** [Math.min(...args)]: starts from +Infinity; a NaN argument makes the
    result NaN. *)
Fixpoint Math_min_loop (lowest : N) (args : list N) : N :=
  match args with
  | [] => lowest
  | number :: rest =>
      if Number_isNaN number then NaN
      else Math_min_loop (min_step lowest number) rest
  end.

Definition Math_min (args : list N) : N := Math_min_loop Infinity args.

(** One turn of the loop of [Math.max]: +0 is above -0. *)
Definition max_step (highest number : N) : N :=
  let highest :=
    if is_pos_zero number && is_neg_zero highest then number else highest in
  if lessThan highest number then number else highest.

(** [Math.max(...args)]: starts from -Infinity. *)
Fixpoint Math_max_loop (highest : N) (args : list N) : N :=
  match args with
  | [] => highest
  | number :: rest =>
      if Number_isNaN number then NaN
      else Math_max_loop (max_step highest number) rest
  end.

Definition Math_max (args : list N) : N := Math_max_loop (- Infinity)%js args.

(** [Math.round(x)]: the nearest integer, ties towards +Infinity. *)
Definition Math_round (x : N) : integral :=
  match val x with
  | NaNv => INaN
  | Infv s => IInf s
  | Finv q => IInt (Qfloor (q + (1 # 2)))
  end.

(** [x.toFixed(fractionDigits)]. Below 10^21 the result is the decimal
    expansion rounded to [fractionDigits] places (ties upwards in
    magnitude); from 10^21 on, [toFixed] defers to the exponent notation of
    Number::toString, which is left out: [None]. *)
Definition toFixed (x : N) (fractionDigits : nat) : option string :=
  match val x with
  | NaNv => Some "NaN"%string
  | Infv false => Some "Infinity"%string
  | Infv true => Some "-Infinity"%string
  | Finv q =>
      let sign := if Qneg_bool q then "-"%string else ""%string in
      let a := Qabs q in
      if Qle_bool (inject_Z (10 ^ 21)) a then None
      else
        let n := Qfloor (a * inject_Z (10 ^ Z.of_nat fractionDigits) + (1 # 2)) in
        let m := Z_to_string n in
        match fractionDigits with
        | O => Some (sign +:+ m)
        | S _ =>
            let m := padStart0 (S fractionDigits) m in
            let k := String.length m in
            Some (sign +:+ substring 0 (k - fractionDigits) m +:+ "." +:+
                  substring (k - fractionDigits) fractionDigits m)
        end
  end.
End Builtins.

(** ** Values stored in a property bag

    The month fields of a feature are absent, [null] or numbers (section 3
    of the specification): these are the values the scripts are modelled
    on. Reading a missing property yields [undefined]. *)

Inductive value (N : Type) : Type :=
  | Undefined
  | Null
  | Num (x : N).
Arguments Undefined {N}.
Arguments Null {N}.
Arguments Num {N} x.

Record Feature (N : Type) : Type := { properties : gmap string (value N) }.
Arguments properties {N} _.

Record GeoJSON (N : Type) : Type := { features : list (Feature N) }.
Arguments features {N} _.

Record GlobalStats (N : Type) : Type := { min : N; max : N }.
Arguments min {N} _.
Arguments max {N} _.

(** An entry of the legend: the swatch and its label. *)
Record LegendItem : Type := {
  background : string;          (* colorDiv.style.background *)
  textContent : option string   (* label.textContent *)
}.

(** The style handed to the map for one region. *)
Record PathStyle : Type := {
  fillColor : string;
  color : string;
  weight : Z;
  fillOpacity : Q
}.

Section Values.
Context {N : Type} `{Number N}.

(** [o[key]]. *)
Definition get (o : gmap string (value N)) (key : string) : value N :=
  default Undefined (o !! key).

(** [v === null] and [v === undefined]. *)
Definition is_null (v : value N) : bool :=
  match v with Null => true | _ => false end.
Definition is_undefined (v : value N) : bool :=
  match v with Undefined => true | _ => false end.

Definition ToNumber (v : value N) : N :=
  match v with
  | Undefined => NaN
  | Null => lit 0
  | Num x => x
  end.

(** The global [isNaN(v)] and [Number(v)]. *)
Definition isNaN (v : value N) : bool := Number_isNaN (ToNumber v).
Definition Number_ (v : value N) : N := ToNumber v.

(** [a ?? b]. *)
Definition nullish (a b : value N) : value N :=
  if is_null a || is_undefined a then b else a.
End Values.

(** ** The info panel and the chart

    A name field of a feature ([nom_region], [nom_ville]) is missing,
    [null] or a string. Strings are sequences of bytes, those of the UTF-8
    encoding of the source. *)
Inductive name_value : Type :=
  | NameUndefined
  | NameNull
  | NameStr (s : string).

(** The property bag of a feature as the click handlers read it: the two
    name fields beside the month fields (in the source they are properties
    of one object; a month field is never named [nom_region] or
    [nom_ville]). *)
Record Properties (N : Type) : Type := {
  nom_region : name_value;
  nom_ville : name_value;
  month_fields : gmap string (value N)
}.
Arguments nom_region {N} _.
Arguments nom_ville {N} _.
Arguments month_fields {N} _.

(** A data set of the chart, and the chart: [chart.data] and the options
    given to the constructor. *)
Record Dataset (N : Type) : Type := {
  label : string;
  data : list (value N);
  fill : bool;
  tension : Q
}.
Arguments label {N} _.
Arguments data {N} _.
Arguments fill {N} _.
Arguments tension {N} _.

Record Chart (N : Type) : Type := {
  type : string;
  labels : list string;         (* chart.data.labels *)
  datasets : list (Dataset N);  (* chart.data.datasets *)
  responsive : bool;
  y_title : string              (* options.scales.y.title.text, displayed *)
}.
Arguments type {N} _.
Arguments labels {N} _.
Arguments datasets {N} _.
Arguments responsive {N} _.
Arguments y_title {N} _.

(** What the click handlers read and write: the global [chart],
    [undefined] until [initChart] has run, and the text of the two elements
    of the info panel. *)
Record Page (N : Type) : Type := {
  chart : option (Chart N);
  info_title : string;          (* textContent of #info-title *)
  info_subtitle : string        (* textContent of #info-subtitle *)
}.
Arguments chart {N} _.
Arguments info_title {N} _.
Arguments info_subtitle {N} _.

(** The result of a handler: the page it leaves, or the TypeError of an
    assignment to a property of [undefined]. *)
Inductive outcome (A : Type) : Type :=
  | Normal (a : A)
  | TypeError.
Arguments Normal {A} a.
Arguments TypeError {A}.

(** [a || b] for a name and a string: [undefined], [null] and the empty
    string are falsy. *)
Definition name_or (a : name_value) (b : string) : string :=
  match a with
  | NameStr s => if String.eqb s "" then b else s
  | NameUndefined | NameNull => b
  end.

(** ** The code shared by the two scripts *)

Module Shared.
Section Script.
Context {N : Type} `{Number N}.
(** The three places where the scripts differ. *)
Variable prefix : string.
Variable colorOf : value N -> N -> N -> string.
Variable legendDigits : nat.

Definition getMonthPropertyName (month : nat) : string :=
  prefix +:+ padStart0 2 (String_of_nat month).

Definition getRegionValue (feature : Feature N) (month : nat) : value N :=
  let prop := getMonthPropertyName month in
  get (properties feature) prop.

(** The months of the loops [for (let m = 1; m <= 12; m++)]. *)
Definition months : list nat := seq 1 12.

(** The array [vals] after the two nested loops of [calcGlobalMinMax];
    [vals.push(x)] appends at the end. *)
Definition collect (geojson : GeoJSON N) : list N :=
  fold_left
    (fun vals f =>
       fold_left
         (fun vals m =>
            let v := getRegionValue f m in
            if negb (is_null v) && negb (is_undefined v) && negb (isNaN v)
            then vals ++ [Number_ v]
            else vals)
         months vals)
    (features geojson) [].

Definition calcGlobalMinMax (geojson : GeoJSON N) : GlobalStats N :=
  let vals := collect geojson in
  {| min := Math_min vals; max := Math_max vals |}.

Definition regionStyle (stroke : string) (globalStats : GlobalStats N)
    (currentMonth : nat) (feature : Feature N) : PathStyle :=
  let value := getRegionValue feature currentMonth in
  let color := colorOf value (min globalStats) (max globalStats) in
  {| fillColor := color; color := stroke; weight := 1; fillOpacity := 7 # 10 |}.

(** The clamped parameter [s] of a gradient: the first two lines of either
    color mapper, once the value is known to be a number. *)
Definition clamped (v min max : N) : N :=
  let t := ((v - min) / or_else (max - min) (lit 1))%js in
  Math_max [lit 0; Math_min [lit 1; t]].

Definition steps : nat := 5.

(** The value sampled at step [i] of the legend loop. *)
Definition legendValue (globalStats : GlobalStats N) (i : nat) : N :=
  let min := min globalStats in
  let max := max globalStats in
  (min + (lit (Z.of_nat i) / lit (Z.of_nat steps)) * (max - min))%js.

Definition legendItem (globalStats : GlobalStats N) (i : nat) : LegendItem :=
  let v := legendValue globalStats i in
  let color := colorOf (Num v) (min globalStats) (max globalStats) in
  {| background := color; textContent := toFixed v legendDigits |}.

(** [updateLegend]: [globalStats] is [null] until the data are loaded;
    [legendDiv] is the list of children of the element [legend-scale]. *)
Definition updateLegend (globalStats : option (GlobalStats N))
    (legendDiv : list LegendItem) : list LegendItem :=
  match globalStats with
  | None => legendDiv
  | Some globalStats =>
      let legendDiv := [] in
      fold_left (fun legendDiv i => legendDiv ++ [legendItem globalStats i])
                (seq 0 (S steps)) legendDiv
  end.

Definition getMonthlySeries (props : gmap string (value N)) : list (value N) :=
  fold_left
    (fun arr m =>
       let key := getMonthPropertyName m in
       arr ++ [nullish (get props key) Null])
    months [].

(** The places where the charts and the panels of the two scripts differ. *)
Variable chartLabel : string.
Variable yUnit : string.
Variable subtitle : string.

(** [initChart]: the chart is created with the labels of the months and a
    single, empty data set. *)
Definition initChart (monthsMeta_labels : list string) (page : Page N) : Page N :=
  let chart :=
    {| type := "line";
       labels := monthsMeta_labels;
       datasets := [{| label := chartLabel; data := [];
                       fill := true; tension := 3 # 10 |}];
       responsive := true;
       y_title := yUnit |} in
  {| chart := Some chart;
     info_title := info_title page; info_subtitle := info_subtitle page |}.

(** [updateChart]: nothing without a chart; otherwise the data and the
    label of the first data set are replaced ([chart.update()] redraws the
    canvas and changes none of these fields). *)
Definition updateChart (title : string) (data : list (value N)) (page : Page N)
  : outcome (Page N) :=
  match chart page with
  | None => Normal page
  | Some c =>
      match datasets c with
      | [] => TypeError
      | first :: rest =>
          let first := {| label := title; data := data;
                          fill := fill first; tension := tension first |} in
          Normal {| chart := Some {| type := type c; labels := labels c;
                                     datasets := first :: rest;
                                     responsive := responsive c;
                                     y_title := y_title c |};
                    info_title := info_title page;
                    info_subtitle := info_subtitle page |}
      end
  end.

Definition onRegionClick (props : Properties N) (page : Page N) : outcome (Page N) :=
  let title := name_or (nom_region props) "Région" in
  let data := getMonthlySeries (month_fields props) in
  let page := {| chart := chart page; info_title := title;
                 info_subtitle := info_subtitle page |} in
  let page := {| chart := chart page; info_title := info_title page;
                 info_subtitle := subtitle |} in
  updateChart title data page.

(** The handler of the layer of cities, which only the precipitation script
    has. *)
Definition onVilleClick (props : Properties N) (page : Page N) : outcome (Page N) :=
  let title := name_or (nom_ville props) "Ville" in
  let data := getMonthlySeries (month_fields props) in
  let page := {| chart := chart page; info_title := title;
                 info_subtitle := info_subtitle page |} in
  let page := {| chart := chart page; info_title := info_title page;
                 info_subtitle := subtitle |} in
  updateChart title data page.
End Script.
End Shared.

(** ** [static/main_temp.js] *)

Module Temp.
Section Temp.
Context {N : Type} `{Number N}.

(** The three channels at parameter [s]: blue to red through yellow. *)
Definition channels (s : N) : integral * integral * integral :=
  let r := Math_round (lit 255 * s)%js in
  let g := Math_round (lit 255 * (lit 1 - Math_abs (s - lit_half) * lit 2))%js in
  let b := Math_round (lit 255 * (lit 1 - s))%js in
  (r, g, b).

Definition getColorTemp (v : value N) (min max : N) : string :=
  if is_null v || is_undefined v || isNaN v then "#f0f0f0"
  else
    let t := ((ToNumber v - min) / or_else (max - min) (lit 1))%js in
    let s := Math_max [lit 0; Math_min [lit 1; t]] in
    let r := Math_round (lit 255 * s)%js in
    let g := Math_round (lit 255 * (lit 1 - Math_abs (s - lit_half) * lit 2))%js in
    let b := Math_round (lit 255 * (lit 1 - s))%js in
    rgb r g b.

Definition getMonthPropertyName : nat -> string :=
  Shared.getMonthPropertyName "temp_".
Definition getRegionValue : Feature N -> nat -> value N :=
  Shared.getRegionValue "temp_".
Definition calcGlobalMinMax : GeoJSON N -> GlobalStats N :=
  Shared.calcGlobalMinMax "temp_".
Definition regionStyle : GlobalStats N -> nat -> Feature N -> PathStyle :=
  Shared.regionStyle "temp_" getColorTemp "#555".
Definition updateLegend
  : option (GlobalStats N) -> list LegendItem -> list LegendItem :=
  Shared.updateLegend getColorTemp 1.
Definition getMonthlySeries : gmap string (value N) -> list (value N) :=
  Shared.getMonthlySeries "temp_".

Definition initChart : list string -> Page N -> Page N :=
  Shared.initChart "Température (°C)" "°C".
Definition updateChart : string -> list (value N) -> Page N -> outcome (Page N) :=
  Shared.updateChart.
Definition onRegionClick : Properties N -> Page N -> outcome (Page N) :=
  Shared.onRegionClick "temp_" "Température moyenne mensuelle (°C)".
End Temp.
End Temp.

(** ** The precipitation script *)

Module Precip.
Section Precip.
Context {N : Type} `{Number N}.

(** The three channels at parameter [s]: white to blue. *)
Definition channels (s : N) : integral * integral * integral :=
  let r := Math_round (lit 255 * (lit 1 - s))%js in
  let g := Math_round (lit 255 * (lit 1 - s))%js in
  let b := IInt 255 in
  (r, g, b).

Definition getColor (v : value N) (min max : N) : string :=
  if is_null v || is_undefined v || isNaN v then "#f0f0f0"
  else
    let t := ((ToNumber v - min) / or_else (max - min) (lit 1))%js in
    let s := Math_max [lit 0; Math_min [lit 1; t]] in
    let r := Math_round (lit 255 * (lit 1 - s))%js in
    let g := Math_round (lit 255 * (lit 1 - s))%js in
    let b := IInt 255 in
    rgb r g b.

Definition getMonthPropertyName : nat -> string :=
  Shared.getMonthPropertyName "precip_".
Definition getRegionValue : Feature N -> nat -> value N :=
  Shared.getRegionValue "precip_".
Definition calcGlobalMinMax : GeoJSON N -> GlobalStats N :=
  Shared.calcGlobalMinMax "precip_".
Definition regionStyle : GlobalStats N -> nat -> Feature N -> PathStyle :=
  Shared.regionStyle "precip_" getColor "#555555".
Definition updateLegend
  : option (GlobalStats N) -> list LegendItem -> list LegendItem :=
  Shared.updateLegend getColor 0.
Definition getMonthlySeries : gmap string (value N) -> list (value N) :=
  Shared.getMonthlySeries "precip_".

Definition initChart : list string -> Page N -> Page N :=
  Shared.initChart "Précipitations (mm)" "mm".
Definition updateChart : string -> list (value N) -> Page N -> outcome (Page N) :=
  Shared.updateChart.
Definition onRegionClick : Properties N -> Page N -> outcome (Page N) :=
  Shared.onRegionClick "precip_" "Précipitations mensuelles (mm)".
Definition onVilleClick : Properties N -> Page N -> outcome (Page N) :=
  Shared.onVilleClick "precip_" "Précipitations mensuelles (mm)".
End Precip.
End Precip.

(** * The vocabulary of the properties *)

(** ** Order and laws of numbers *)

(** [a <= b] as a proposition. *)
Definition numval_leP (a b : numval) : Prop :=
  match a, b with
  | NaNv, _ | _, NaNv => False
  | Infv true, _ => True
  | _, Infv false => True
  | Infv false, _ => False
  | _, Infv true => False
  | Finv p, Finv q => (p <= q)%Q
  end.

(** What the properties need of an implementation of numbers. *)
Class NumberLaws {N : Type} (num : Number N) : Prop := {
  val_NaN : val NaN = NaNv;
  val_Infinity : val Infinity = Infv false;
  val_neg_Infinity : val (- Infinity)%js = Infv true;
  Infinity_unique : forall x, val x = Infv false -> x = Infinity;
  neg_Infinity_unique : forall x, val x = Infv true -> x = (- Infinity)%js;
  neg_zero_val : forall x, is_neg_zero x = true -> exists q, val x = Finv q /\ (q == 0)%Q;
  val_lit_0 : exists q, val (lit 0) = Finv q /\ (q == 0)%Q;
  val_lit_1 : exists q, val (lit 1) = Finv q /\ (q == 1)%Q
}.

Definition not_NaN {N : Type} {num : Number N} (x : N) : Prop :=
  Number_isNaN x = false.

(** ** The sample set of the range calculator *)

Section SampleSet.
Context {N : Type} {num : Number N}.
Variable prefix : string.

(** The contribution of one extracted value, in the words of the
    specification: kept when it is present and numeric (not NaN). *)
Definition sample (v : value N) : list N :=
  match v with
  | Num x => if Number_isNaN x then [] else [x]
  | Undefined | Null => []
  end.

(** The sample set: every feature, every month 1 to 12. *)
Definition samples (geojson : GeoJSON N) : list N :=
  flat_map
    (fun f => flat_map (fun m => sample (Shared.getRegionValue prefix f m)) (seq 1 12))
    (features geojson).

End SampleSet.

(** ** Colors *)

(** The rounding of a channel. *)
Definition chan (x : Q) : Z := Qfloor (x + (1 # 2)).

(** A color string with three integer channels from 0 to 255. *)
Definition is_color (s : string) : Prop :=
  exists r g b : Z,
    (0 <= r <= 255) /\ (0 <= g <= 255) /\ (0 <= b <= 255) /\
    s = rgb (IInt r) (IInt g) (IInt b).

(** The order in which a channel moves: on integers the usual one; a
    channel that is NaN or infinite has to stay as it is. *)
Definition integral_le (a b : integral) : Prop :=
  match a, b with
  | IInt x, IInt y => x <= y
  | _, _ => a = b
  end.

Definition rgb_of (c : integral * integral * integral) : string :=
  let '(r, g, b) := c in rgb r g b.

(** The three channels of a triple. *)
Definition red (c : integral * integral * integral) : integral := c.1.1.
Definition green (c : integral * integral * integral) : integral := c.1.2.
Definition blue (c : integral * integral * integral) : integral := c.2.

(** What C7 asks of two values v1 < v2 inside the range: each color is the
    gradient at the clamped parameter, and from v1 to v2 every channel moves
    in one direction:
    - temperature: red does not decrease, blue does not increase, green
      does not decrease while s2 <= 0.5 and does not increase once
      s1 >= 0.5 (the two segments of the gradient);
    - precipitation: red and green do not increase, blue stays. *)
Definition monotone_step {N : Type} {num : Number N} (v1 v2 min max : N) : Prop :=
  let s1 := Shared.clamped v1 min max in
  let s2 := Shared.clamped v2 min max in
  Temp.getColorTemp (Num v1) min max = rgb_of (Temp.channels s1)
  /\ Temp.getColorTemp (Num v2) min max = rgb_of (Temp.channels s2)
  /\ Precip.getColor (Num v1) min max = rgb_of (Precip.channels s1)
  /\ Precip.getColor (Num v2) min max = rgb_of (Precip.channels s2)
  /\ integral_le (red (Temp.channels s1)) (red (Temp.channels s2))
  /\ integral_le (blue (Temp.channels s2)) (blue (Temp.channels s1))
  /\ (lessEq s2 lit_half = true ->
      integral_le (green (Temp.channels s1)) (green (Temp.channels s2)))
  /\ (lessEq lit_half s1 = true ->
      integral_le (green (Temp.channels s2)) (green (Temp.channels s1)))
  /\ integral_le (red (Precip.channels s2)) (red (Precip.channels s1))
  /\ integral_le (green (Precip.channels s2)) (green (Precip.channels s1))
  /\ blue (Precip.channels s1) = blue (Precip.channels s2).

(** ** Doubles as rationals *)

(** The rational m * 2^e. *)
Definition F2Q (m e : Z) : Q := (inject_Z m * Qpower 2 e)%Q.

(** The mathematical value of a double given by its specification;
    [b64_val] is this value of [Prim2SF]. *)
Definition sf_val (x : spec_float) : numval :=
  match x with
  | S754_zero _ => Finv 0
  | S754_infinity s => Infv s
  | S754_nan => NaNv
  | S754_finite s m e => Finv (F2Q (if s then Z.neg m else Z.pos m) e)
  end.

(** [m], with the location [l], is the cut of the number [x] at the
    integers: [x] itself when the location is exact; otherwise [x] lies
    between [m] and [m + 1], on the side of the middle that [l] tells. *)
Definition loc_ok (m : Z) (l : location) (x : Q) : Prop :=
  match l with
  | loc_Exact => (x == inject_Z m)%Q
  | loc_Inexact c =>
      (inject_Z m < x)%Q /\ (x < inject_Z m + 1)%Q /\ (x ?= inject_Z m + (1 # 2))%Q = c
  end.

(** [m], with location [l], is the number rho cut at the exponent [e]. *)
Definition locates (m e : Z) (l : location) (rho : Q) : Prop :=
  loc_ok m l (rho * Qpower 2 (- e))%Q.

(** The magnitude [d] of a positive number: 2^(d-1) <= rho < 2^d. *)
Definition magnitude (rho : Q) (d : Z) : Prop :=
  (Qpower 2 (d - 1) <= rho)%Q /\ (rho < Qpower 2 d)%Q.

(** [v] is [rho] rounded to the format: to nearest, ties to even, on the
    grid of the magnitude of [rho]. *)
Definition rounds (rho v : Q) : Prop :=
  exists d m l,
    magnitude rho d /\ 0 <= m /\ locates m (fexp prec emax d) l rho
    /\ (v == F2Q (round_nearest_even m l) (fexp prec emax d))%Q.

(** The opposite of a value. *)
Definition numval_opp (w : numval) : numval :=
  match w with
  | NaNv => NaNv
  | Infv s => Infv (negb s)
  | Finv q => Finv (- q)
  end.

(** [w] is the value of the double that a number [rho], at least 0,
    rounds to: a rational below 2^emax, or +Infinity. *)
Definition rounded_val (rho : Q) (w : numval) : Prop :=
  match w with
  | Finv v =>
      ((rho == 0)%Q /\ (v == 0)%Q)
      \/ ((0 < rho)%Q /\ rounds rho v /\ (v < Qpower 2 emax)%Q)
  | Infv false => (0 < rho)%Q /\ exists v, rounds rho v /\ (Qpower 2 emax <= v)%Q
  | _ => False
  end.

(** The same for a number of either sign. *)
Definition signed_rounded (sigma : Q) (w : numval) : Prop :=
  ((0 <= sigma)%Q -> rounded_val sigma w)
  /\ ((sigma <= 0)%Q -> rounded_val (- sigma) (numval_opp w)).

(** ** Data sets, maps and clicks *)

(** A value the scripts treat as absent: [null], [undefined] or NaN. *)
Definition no_data {N : Type} {num : Number N} (v : value N) : Prop :=
  v = Null \/ v = Undefined \/ (exists x, v = Num x /\ Number_isNaN x = true).

(** A double of moderate size: between -2^1022 and 2^1022 (about 4.5e307),
    so that the difference of two of them does not overflow. *)
Definition moderate (x : float) : Prop :=
  lessEq (-0x1p1022)%float x = true /\ lessEq x 0x1p1022%float = true.

(** Some region of the collection has the fill [c] in one of the twelve
    months, under the style function [style]. *)
Definition painted_with {N : Type} (style : nat -> Feature N -> PathStyle)
    (geojson : GeoJSON N) (c : string) : Prop :=
  exists f m, f ∈ features geojson /\ (1 <= m <= 12)%nat /\ fillColor (style m f) = c.

(** The handlers of a sequence of events, one after the other; a TypeError
    ends the sequence. *)
Fixpoint run {E A : Type} (handler : E -> A -> outcome A) (events : list E) (page : A)
  : outcome A :=
  match events with
  | [] => Normal page
  | e :: events =>
      match handler e page with
      | Normal page => run handler events page
      | TypeError => TypeError
      end
  end.

(** A click on the precipitation map: on a region or on a city. *)
Inductive click (N : Type) : Type :=
  | RegionClick (props : Properties N)
  | VilleClick (props : Properties N).
Arguments RegionClick {N} props.
Arguments VilleClick {N} props.

Definition onClick {N : Type} (e : click N) (page : Page N) : outcome (Page N) :=
  match e with
  | RegionClick props => Precip.onRegionClick props page
  | VilleClick props => Precip.onVilleClick props page
  end.

(** The title and the series that a click on the precipitation map asks
    for. *)
Definition title_of {N : Type} (e : click N) : string :=
  match e with
  | RegionClick props => name_or (nom_region props) "Région"
  | VilleClick props => name_or (nom_ville props) "Ville"
  end.

Definition series_of {N : Type} (e : click N) : list (value N) :=
  match e with
  | RegionClick props | VilleClick props => Precip.getMonthlySeries (month_fields props)
  end.

(** ** Example data *)

Definition feature_of {N : Type} (l : list (string * value N)) : Feature N :=
  {| properties := list_to_map l |}.

(** Two regions whose temperature fields hold 2.0, 5.0, -1.0 and [null];
    every other month is missing. *)
Definition temp_example : GeoJSON float :=
  {| features :=
       [ feature_of [("temp_01", Num 2%float); ("temp_07", Num 5%float)];
         feature_of [("temp_02", Num (-1)%float); ("temp_03", Null)] ] |}.

Definition precip_example : GeoJSON float :=
  {| features :=
       [ feature_of [("precip_01", Num 2%float); ("precip_07", Num 5%float)];
         feature_of [("precip_02", Num (-1)%float); ("precip_03", Null)] ] |}.

(** A region that has fields but no number: [null] and NaN only. *)
Definition blank_example : GeoJSON float :=
  {| features :=
       [ feature_of [("temp_01", Null); ("temp_02", Num PrimFloat.nan);
                     ("precip_01", Null); ("precip_02", Num PrimFloat.nan)] ] |}.

(** Bags with months 1, 6 and 12 only. *)
Definition sparse_temp : gmap string (value float) :=
  list_to_map [("temp_01", Num 11.5%float); ("temp_06", Num 24%float);
               ("temp_12", Num (-3.25)%float)].

Definition sparse_precip : gmap string (value float) :=
  list_to_map [("precip_01", Num 11.5%float); ("precip_06", Num 24%float);
               ("precip_12", Num (-3.25)%float)].

(** The legend over the range [0, 100], on doubles. *)
Definition hundred : GlobalStats float := {| min := 0%float; max := 100%float |}.

(** * Properties *)

(** ** The order on mathematical values *)

Lemma Qcompare_Lt_iff (p q : Q) :
  match (p ?= q)%Q with Lt => true | _ => false end = true <-> (p < q)%Q.
Proof.
  rewrite Qlt_alt. destruct (p ?= q)%Q; split; congruence.
Qed.

Lemma Qneg_bool_iff (q : Q) : Qneg_bool q = true <-> (q < 0)%Q.
Proof. apply Qcompare_Lt_iff. Qed.

Lemma Qzero_bool_iff (q : Q) : Qzero_bool q = true <-> (q == 0)%Q.
Proof. apply Qeq_bool_iff. Qed.

Lemma Qzero_bool_false (q : Q) : Qzero_bool q = false <-> ~ (q == 0)%Q.
Proof.
  rewrite <- Qzero_bool_iff. destruct (Qzero_bool q); split; congruence.
Qed.

Lemma numval_lt_Fin (p q : Q) : numval_lt (Finv p) (Finv q) = true <-> (p < q)%Q.
Proof. apply Qcompare_Lt_iff. Qed.

Lemma numval_lt_Fin_false (p q : Q) :
  numval_lt (Finv p) (Finv q) = false <-> (q <= p)%Q.
Proof.
  pose proof (numval_lt_Fin p q) as Hlt.
  destruct (numval_lt (Finv p) (Finv q)); split; intros; try congruence.
  - apply proj1 in Hlt. specialize (Hlt eq_refl). lra.
  - apply Qnot_lt_le. intros Hpq. apply Hlt in Hpq. congruence.
Qed.

Lemma numval_le_spec (a b : numval) : numval_le a b = true <-> numval_leP a b.
Proof.
  unfold numval_le.
  destruct a as [|[]|p], b as [|[]|q]; simpl; try tauto;
    try (split; [discriminate | tauto]).
  rewrite orb_true_iff, Qcompare_Lt_iff, Qeq_bool_iff. split.
  - intros [Hlt | Heq]; lra.
  - intros Hle. destruct (Qlt_le_dec p q) as [Hlt | Hge]; [by left | right; lra].
Qed.

Lemma numval_leP_refl (a : numval) : a <> NaNv -> numval_leP a a.
Proof. destruct a as [|[]|p]; simpl; try tauto. intros _. lra. Qed.

Lemma numval_leP_trans (a b c : numval) :
  numval_leP a b -> numval_leP b c -> numval_leP a c.
Proof.
  destruct a as [|[]|p], b as [|[]|q], c as [|[]|r]; simpl; try tauto.
  intros; lra.
Qed.

Lemma numval_leP_antisym (a b : numval) :
  numval_leP a b -> numval_leP b a -> numval_eq a b = true.
Proof.
  destruct a as [|[]|p], b as [|[]|q]; cbn; try done.
  intros. apply Qeq_bool_iff. lra.
Qed.

Lemma numval_lt_leP (a b : numval) : numval_lt a b = true -> numval_leP a b.
Proof.
  destruct a as [|[]|p], b as [|[]|q]; simpl; try tauto; try discriminate.
  rewrite Qcompare_Lt_iff. lra.
Qed.

Lemma numval_not_lt_leP (a b : numval) :
  a <> NaNv -> b <> NaNv -> numval_lt a b = false -> numval_leP b a.
Proof.
  destruct a as [|[]|p], b as [|[]|q]; simpl; try tauto; try discriminate.
  intros _ _ Hlt. by apply numval_lt_Fin_false.
Qed.

#[export] Instance binary64_laws : NumberLaws binary64.
Proof.
  split; try reflexivity.
  - intros x Hx. rewrite <- (SF2Prim_Prim2SF x). cbn in Hx. unfold b64_val in Hx.
    destruct (Prim2SF x) as [s|[]| |s m e]; try discriminate. reflexivity.
  - intros x Hx. rewrite <- (SF2Prim_Prim2SF x). cbn in Hx. unfold b64_val in Hx.
    destruct (Prim2SF x) as [s|[]| |s m e]; try discriminate. reflexivity.
  - intros x Hx. cbn in *. unfold b64_is_neg_zero, b64_val in *.
    destruct (Prim2SF x); try discriminate. exists 0%Q. split; reflexivity.
  - eexists. split; reflexivity.
  - eexists. split; reflexivity.
Qed.

(** ** [Math.min] and [Math.max] *)

Section MinMax.
Context {N : Type} {num : Number N} {laws : NumberLaws num}.

Lemma not_NaN_val (x : N) : not_NaN x <-> val x <> NaNv.
Proof.
  unfold not_NaN, Number_isNaN. destruct (val x); split; congruence.
Qed.

Lemma is_neg_zero_pos_zero_le (x y : N) :
  is_neg_zero x = true -> is_pos_zero y = true ->
  numval_leP (val x) (val y) /\ numval_leP (val y) (val x).
Proof.
  intros Hx Hy. apply neg_zero_val in Hx as (q & -> & Hq).
  unfold is_pos_zero in Hy. destruct (val y) as [| |q']; try discriminate.
  apply andb_true_iff in Hy as [Hq' _]. apply Qzero_bool_iff in Hq'.
  simpl. lra.
Qed.

Lemma min_step_spec (lowest number : N) :
  not_NaN lowest -> not_NaN number ->
  let l := min_step lowest number in
  (l = lowest \/ l = number) /\
  numval_leP (val l) (val lowest) /\ numval_leP (val l) (val number).
Proof.
  intros Hl Hn. apply not_NaN_val in Hl, Hn. unfold min_step.
  destruct (is_neg_zero number && is_pos_zero lowest) eqn:Hz.
  - apply andb_true_iff in Hz as [Hz1 Hz2].
    destruct (is_neg_zero_pos_zero_le _ _ Hz1 Hz2) as [Hle _].
    assert (numval_leP (val number) (val number)) by by apply numval_leP_refl.
    destruct (lessThan number number); cbn; auto.
  - unfold lessThan. destruct (numval_lt (val number) (val lowest)) eqn:Hlt; cbn.
    + split; [by right|]. split; [by apply numval_lt_leP | by apply numval_leP_refl].
    + split; [by left|]. split; [by apply numval_leP_refl |].
      by apply numval_not_lt_leP.
Qed.

Lemma Math_min_loop_spec (args : list N) : forall lowest,
  Forall not_NaN args -> not_NaN lowest ->
  let r := Math_min_loop lowest args in
  (r = lowest \/ r ∈ args) /\
  numval_leP (val r) (val lowest) /\
  Forall (fun x => numval_leP (val r) (val x)) args.
Proof.
  induction args as [|number rest IH]; intros lowest Hargs Hl; cbn [Math_min_loop].
  - split; [by left|]. split; [|constructor].
    apply numval_leP_refl. by apply not_NaN_val.
  - inversion Hargs as [|? ? Hn Hrest]; subst.
    pose proof Hn as Hn'. unfold not_NaN in Hn'.
    destruct (Number_isNaN number); [discriminate|]. clear Hn'.
    destruct (min_step_spec lowest number Hl Hn) as (Hsel & Hle1 & Hle2).
    assert (Hl' : not_NaN (min_step lowest number)) by (destruct Hsel as [-> | ->]; done).
    destruct (IH _ Hrest Hl') as (Hin & Hle & Hall).
    split; [|split].
    + destruct Hin as [-> | Hin]; [|right; by right].
      destruct Hsel as [-> | ->]; [by left | right; by left].
    + eapply numval_leP_trans; eauto.
    + constructor; [eapply numval_leP_trans; eauto | done].
Qed.

Lemma max_step_spec (highest number : N) :
  not_NaN highest -> not_NaN number ->
  let h := max_step highest number in
  (h = highest \/ h = number) /\
  numval_leP (val highest) (val h) /\ numval_leP (val number) (val h).
Proof.
  intros Hh Hn. apply not_NaN_val in Hh, Hn. unfold max_step.
  destruct (is_pos_zero number && is_neg_zero highest) eqn:Hz.
  - apply andb_true_iff in Hz as [Hz1 Hz2].
    destruct (is_neg_zero_pos_zero_le _ _ Hz2 Hz1) as [Hle _].
    assert (numval_leP (val number) (val number)) by by apply numval_leP_refl.
    destruct (lessThan number number); cbn; auto.
  - unfold lessThan. destruct (numval_lt (val highest) (val number)) eqn:Hlt; cbn.
    + split; [by right|]. split; [by apply numval_lt_leP | by apply numval_leP_refl].
    + split; [by left|]. split; [by apply numval_leP_refl |].
      by apply numval_not_lt_leP.
Qed.

Lemma Math_max_loop_spec (args : list N) : forall highest,
  Forall not_NaN args -> not_NaN highest ->
  let r := Math_max_loop highest args in
  (r = highest \/ r ∈ args) /\
  numval_leP (val highest) (val r) /\
  Forall (fun x => numval_leP (val x) (val r)) args.
Proof.
  induction args as [|number rest IH]; intros highest Hargs Hh; cbn [Math_max_loop].
  - split; [by left|]. split; [|constructor].
    apply numval_leP_refl. by apply not_NaN_val.
  - inversion Hargs as [|? ? Hn Hrest]; subst.
    pose proof Hn as Hn'. unfold not_NaN in Hn'.
    destruct (Number_isNaN number); [discriminate|]. clear Hn'.
    destruct (max_step_spec highest number Hh Hn) as (Hsel & Hle1 & Hle2).
    assert (Hh' : not_NaN (max_step highest number)) by (destruct Hsel as [-> | ->]; done).
    destruct (IH _ Hrest Hh') as (Hin & Hle & Hall).
    split; [|split].
    + destruct Hin as [-> | Hin]; [|right; by right].
      destruct Hsel as [-> | ->]; [by left | right; by left].
    + eapply numval_leP_trans; eauto.
    + constructor; [eapply numval_leP_trans; eauto | done].
Qed.
End MinMax.

Lemma Math_min_two {N : Type} {num : Number N} (a t : N) :
  Math_min [a; t] =
  if Number_isNaN a then NaN
  else if Number_isNaN t then NaN
  else min_step (min_step Infinity a) t.
Proof. reflexivity. Qed.

Lemma Math_max_two {N : Type} {num : Number N} (a t : N) :
  Math_max [a; t] =
  if Number_isNaN a then NaN
  else if Number_isNaN t then NaN
  else max_step (max_step (- Infinity)%js a) t.
Proof. reflexivity. Qed.

Section MinMaxOfList.
Context {N : Type} {num : Number N} {laws : NumberLaws num}.

Lemma lessEq_spec (x y : N) : lessEq x y = true <-> numval_leP (val x) (val y).
Proof. apply numval_le_spec. Qed.

Lemma not_NaN_Infinity : not_NaN Infinity.
Proof. apply not_NaN_val. by rewrite val_Infinity. Qed.

Lemma not_NaN_neg_Infinity : not_NaN (- Infinity)%js.
Proof. apply not_NaN_val. by rewrite val_neg_Infinity. Qed.

Lemma Math_min_spec (args : list N) :
  Forall not_NaN args ->
  Forall (fun x => lessEq (Math_min args) x = true) args /\
  (args <> [] -> Math_min args ∈ args).
Proof.
  intros Hargs.
  destruct (Math_min_loop_spec args Infinity Hargs not_NaN_Infinity)
    as (Hin & _ & Hall).
  fold (Math_min args) in Hin, Hall. split.
  - eapply Forall_impl; [exact Hall|]. intros x Hx. by apply lessEq_spec.
  - intros Hne. destruct Hin as [Heq | Hin]; [|done].
    destruct args as [|x rest]; [done|].
    inversion Hall as [|? ? Hx _]; subst.
    rewrite Heq, val_Infinity in Hx.
    assert (val x = Infv false) as Hv
      by (destruct (val x) as [|[]|]; simpl in Hx; tauto).
    rewrite Heq, <- (Infinity_unique x Hv). by left.
Qed.

Lemma Math_max_spec (args : list N) :
  Forall not_NaN args ->
  Forall (fun x => lessEq x (Math_max args) = true) args /\
  (args <> [] -> Math_max args ∈ args).
Proof.
  intros Hargs.
  destruct (Math_max_loop_spec args (- Infinity)%js Hargs not_NaN_neg_Infinity)
    as (Hin & _ & Hall).
  fold (Math_max args) in Hin, Hall. split.
  - eapply Forall_impl; [exact Hall|]. intros x Hx. by apply lessEq_spec.
  - intros Hne. destruct Hin as [Heq | Hin]; [|done].
    destruct args as [|x rest]; [done|].
    inversion Hall as [|? ? Hx _]; subst.
    rewrite Heq, val_neg_Infinity in Hx.
    assert (val x = Infv true) as Hv
      by (destruct (val x) as [|[]|]; simpl in Hx; tauto).
    rewrite Heq, <- (neg_Infinity_unique x Hv). by left.
Qed.

Lemma lessEq_trans (x y z : N) :
  lessEq x y = true -> lessEq y z = true -> lessEq x z = true.
Proof. rewrite !lessEq_spec. apply numval_leP_trans. Qed.

Lemma not_NaN_lit_0 : not_NaN (lit 0).
Proof. destruct val_lit_0 as (q & Hq & _). apply not_NaN_val. by rewrite Hq. Qed.

Lemma not_NaN_lit_1 : not_NaN (lit 1).
Proof. destruct val_lit_1 as (q & Hq & _). apply not_NaN_val. by rewrite Hq. Qed.

Lemma lessEq_lit_0_1 : lessEq (lit 0) (lit 1) = true.
Proof.
  destruct val_lit_0 as (q0 & H0 & Hq0). destruct val_lit_1 as (q1 & H1 & Hq1).
  apply lessEq_spec. rewrite H0, H1. cbn. lra.
Qed.

(** The clamp [Math.max(0, Math.min(1, t))]: within [0, 1] unless [t] is
    NaN, and NaN when [t] is. *)
Lemma clamp_range (t : N) :
  let s := Math_max [lit 0; Math_min [lit 1; t]] in
  (Number_isNaN t = false -> lessEq (lit 0) s = true /\ lessEq s (lit 1) = true)
  /\ (Number_isNaN t = true -> s = NaN).
Proof.
  cbv zeta. split.
  - intros Ht.
    assert (Forall not_NaN [lit 1; t]) as Hargs
      by (repeat constructor; [apply not_NaN_lit_1 | exact Ht]).
    destruct (Math_min_spec _ Hargs) as [Hle Hin].
    specialize (Hin ltac:(done)).
    set (m := Math_min [lit 1; t]) in *.
    assert (not_NaN m) as Hm.
    { apply elem_of_cons in Hin as [-> | Hin]; [apply not_NaN_lit_1|].
      apply list_elem_of_singleton in Hin as ->. exact Ht. }
    assert (lessEq m (lit 1) = true) as Hm1 by (by inversion Hle).
    assert (Forall not_NaN [lit 0; m]) as Hargs'
      by (repeat constructor; [apply not_NaN_lit_0 | exact Hm]).
    destruct (Math_max_spec _ Hargs') as [Hge Hin'].
    specialize (Hin' ltac:(done)). split.
    + by inversion Hge.
    + apply elem_of_cons in Hin' as [-> | Hin']; [apply lessEq_lit_0_1|].
      apply list_elem_of_singleton in Hin' as ->. exact Hm1.
  - intros Ht. rewrite Math_min_two, Ht.
    pose proof not_NaN_lit_1 as H1. unfold not_NaN in H1. rewrite H1.
    rewrite Math_max_two.
    pose proof not_NaN_lit_0 as H0. unfold not_NaN in H0. rewrite H0.
    unfold Number_isNaN at 1. by rewrite val_NaN.
Qed.
(** The parts of the clamp, and its monotony. *)
Lemma clamp_parts (t : N) :
  Number_isNaN t = false ->
  let m := Math_min [lit 1; t] in
  let s := Math_max [lit 0; m] in
  (m = lit 1 \/ m = t) /\ lessEq m (lit 1) = true /\ lessEq m t = true
  /\ (s = lit 0 \/ s = m) /\ lessEq (lit 0) s = true /\ lessEq m s = true.
Proof.
  intros Ht. cbv zeta.
  assert (Forall not_NaN [lit 1; t]) as Hargs
    by (repeat constructor; [apply not_NaN_lit_1 | exact Ht]).
  destruct (Math_min_spec _ Hargs) as [Hle Hin]. specialize (Hin ltac:(done)).
  set (m := Math_min [lit 1; t]) in *.
  assert (m = lit 1 \/ m = t) as Hm.
  { apply elem_of_cons in Hin as [-> | Hin]; [by left|].
    apply list_elem_of_singleton in Hin as ->. by right. }
  assert (not_NaN m) as Hnm by (destruct Hm as [-> | ->]; [apply not_NaN_lit_1 | done]).
  inversion Hle as [|? ? Hm1 Hle']; subst. inversion Hle' as [|? ? Hmt _]; subst.
  assert (Forall not_NaN [lit 0; m]) as Hargs'
    by (repeat constructor; [apply not_NaN_lit_0 | exact Hnm]).
  destruct (Math_max_spec _ Hargs') as [Hge Hin']. specialize (Hin' ltac:(done)).
  inversion Hge as [|? ? H0s Hge']; subst. inversion Hge' as [|? ? Hms _]; subst.
  repeat split; try done.
  apply elem_of_cons in Hin' as [-> | Hin']; [by left|].
  apply list_elem_of_singleton in Hin' as ->. by right.
Qed.

Lemma clamp_mono (t1 t2 : N) :
  Number_isNaN t1 = false -> Number_isNaN t2 = false -> lessEq t1 t2 = true ->
  lessEq (Math_max [lit 0; Math_min [lit 1; t1]])
         (Math_max [lit 0; Math_min [lit 1; t2]]) = true.
Proof.
  intros H1 H2 Hle.
  destruct (clamp_parts t1 H1) as (Hm1 & Hm1_1 & Hm1_t & Hs1 & _ & _).
  destruct (clamp_parts t2 H2) as (Hm2 & _ & _ & _ & H0s2 & Hms2).
  cbv zeta in *.
  destruct Hs1 as [-> | ->]; [done|].
  eapply lessEq_trans; [|exact Hms2].
  destruct Hm2 as [-> | ->]; [done|].
  eapply lessEq_trans; [exact Hm1_t | exact Hle].
Qed.
End MinMaxOfList.

(** ** The sample set of the range calculator *)

Section Samples.
Context {N : Type} {num : Number N}.
Variable prefix : string.

Lemma push_if_numeric (v : value N) (vals : list N) :
  (if negb (is_null v) && negb (is_undefined v) && negb (isNaN v)
   then vals ++ [Number_ v] else vals) = vals ++ sample v.
Proof.
  destruct v as [| |x]; cbn; rewrite ?app_nil_r; try done.
  unfold isNaN; cbn. destruct (Number_isNaN x); cbn; by rewrite ?app_nil_r.
Qed.

Lemma collect_months (f : Feature N) (ms : list nat) : forall vals,
  fold_left
    (fun vals m =>
       let v := Shared.getRegionValue prefix f m in
       if negb (is_null v) && negb (is_undefined v) && negb (isNaN v)
       then vals ++ [Number_ v] else vals) ms vals
  = vals ++ flat_map (fun m => sample (Shared.getRegionValue prefix f m)) ms.
Proof.
  induction ms as [|m ms IH]; intros vals; cbn.
  - by rewrite app_nil_r.
  - rewrite IH. cbn. rewrite push_if_numeric. by rewrite <- app_assoc.
Qed.

Lemma collect_features (fs : list (Feature N)) : forall vals,
  fold_left
    (fun vals f =>
       fold_left
         (fun vals m =>
            let v := Shared.getRegionValue prefix f m in
            if negb (is_null v) && negb (is_undefined v) && negb (isNaN v)
            then vals ++ [Number_ v] else vals)
         Shared.months vals) fs vals
  = vals ++ flat_map
      (fun f => flat_map (fun m => sample (Shared.getRegionValue prefix f m)) (seq 1 12)) fs.
Proof.
  induction fs as [|f fs IH]; intros vals; cbn -[seq].
  - by rewrite app_nil_r.
  - rewrite IH. unfold Shared.months. rewrite collect_months.
    by rewrite <- app_assoc.
Qed.

Lemma collect_samples (geojson : GeoJSON N) :
  Shared.collect prefix geojson = samples prefix geojson.
Proof. unfold Shared.collect. by rewrite collect_features. Qed.

Lemma sample_not_NaN (v : value N) : Forall not_NaN (sample v).
Proof.
  destruct v as [| |x]; cbn; try constructor.
  destruct (Number_isNaN x) eqn:Hx; constructor; [done | constructor].
Qed.

Lemma samples_not_NaN (geojson : GeoJSON N) : Forall not_NaN (samples prefix geojson).
Proof.
  unfold samples. apply List.Forall_flat_map, Forall_forall. intros f _.
  apply List.Forall_flat_map, Forall_forall. intros m _. apply sample_not_NaN.
Qed.

(** Membership in the sample set. *)
Lemma elem_of_samples (geojson : GeoJSON N) (x : N) :
  x ∈ samples prefix geojson <->
  exists f m, f ∈ features geojson /\ (1 <= m <= 12)%nat /\
              Shared.getRegionValue prefix f m = Num x /\ Number_isNaN x = false.
Proof.
  unfold samples. rewrite list_elem_of_In, in_flat_map. split.
  - intros (f & Hf & Hx). apply in_flat_map in Hx as (m & Hm & Hx).
    exists f, m. apply list_elem_of_In in Hf. apply in_seq in Hm.
    split; [done|]. split; [lia|].
    destruct (Shared.getRegionValue prefix f m) as [| |y]; cbn in Hx; try done.
    destruct (Number_isNaN y) eqn:Hy; cbn in Hx; [done|].
    destruct Hx as [-> | []]. done.
  - intros (f & m & Hf & Hm & Hv & Hx). exists f.
    split; [by apply list_elem_of_In|].
    apply in_flat_map. exists m. split; [apply in_seq; lia|].
    rewrite Hv. cbn. rewrite Hx. by left.
Qed.
End Samples.

(** ** The range calculator *)

Lemma collect_bounds {N : Type} {num : Number N} {laws : NumberLaws num}
    (prefix : string) (geojson : GeoJSON N) :
  let stats := Shared.calcGlobalMinMax prefix geojson in
  let vals := Shared.collect prefix geojson in
  (forall x, x ∈ vals -> lessEq (min stats) x = true /\ lessEq x (max stats) = true)
  /\ (vals <> [] -> min stats ∈ vals /\ max stats ∈ vals).
Proof.
  cbv zeta. unfold Shared.calcGlobalMinMax. cbn [min max].
  pose proof (samples_not_NaN prefix geojson) as Hn.
  rewrite <- collect_samples in Hn.
  destruct (Math_min_spec _ Hn) as [Hmin Hmin_in].
  destruct (Math_max_spec _ Hn) as [Hmax Hmax_in].
  rewrite Forall_forall in Hmin, Hmax. split; [split|split]; auto.
Qed.

(** C1. [calcGlobalMinMax] scans every feature and every month 1 to 12; a
    value enters the sample set exactly when it is a number other than NaN
    (so neither [null] nor [undefined]); the returned [min] is below and
    [max] above every sample, and both are samples when there is one. On the
    collection holding 2.0, 5.0, -1.0 and an absent entry, min = -1.0 and
    max = 5.0. Holds for either script (any property prefix). *)
Theorem calcGlobalMinMax_range {N : Type} {num : Number N} {laws : NumberLaws num}
    (prefix : string) (geojson : GeoJSON N) :
  let stats := Shared.calcGlobalMinMax prefix geojson in
  let vals := Shared.collect prefix geojson in
  vals = samples prefix geojson
  /\ (forall x, x ∈ vals <->
        exists f m, f ∈ features geojson /\ (1 <= m <= 12)%nat /\
                    Shared.getRegionValue prefix f m = Num x /\ Number_isNaN x = false)
  /\ (forall x, x ∈ vals -> lessEq (min stats) x = true /\ lessEq x (max stats) = true)
  /\ (vals <> [] -> min stats ∈ vals /\ max stats ∈ vals)
  /\ Temp.calcGlobalMinMax temp_example = {| min := (-1)%float; max := 5%float |}
  /\ Precip.calcGlobalMinMax precip_example = {| min := (-1)%float; max := 5%float |}.
Proof.
  cbv zeta. destruct (collect_bounds prefix geojson) as [Hle Hin].
  split; [apply collect_samples|]. split; [|split; [|split; [|split]]].
  - intros x. rewrite collect_samples. apply elem_of_samples.
  - exact Hle.
  - exact Hin.
  - vm_compute. reflexivity.
  - vm_compute. reflexivity.
Qed.

Lemma calcGlobalMinMax_range_witness :
  lessEq (min (Temp.calcGlobalMinMax temp_example)) 2%float = true /\
  lessEq 2%float (max (Temp.calcGlobalMinMax temp_example)) = true.
Proof.
  apply (calcGlobalMinMax_range "temp_" temp_example).
  apply (calcGlobalMinMax_range "temp_" temp_example).
  exists (feature_of [("temp_01"%string, Num 2%float); ("temp_07"%string, Num 5%float)]),
         1%nat.
  split; [left|]. split; [lia|]. split; reflexivity.
Defined.

(** C3. When at least one feature has a number other than NaN in one of its
    twelve month fields, the pair returned by [calcGlobalMinMax] satisfies
    min <= max. *)
Theorem calcGlobalMinMax_min_le_max {N : Type} {num : Number N} {laws : NumberLaws num}
    (prefix : string) (geojson : GeoJSON N) :
  (exists f m x, f ∈ features geojson /\ (1 <= m <= 12)%nat /\
                 Shared.getRegionValue prefix f m = Num x /\ Number_isNaN x = false) ->
  let stats := Shared.calcGlobalMinMax prefix geojson in
  lessEq (min stats) (max stats) = true.
Proof.
  intros (f & m & x & Hx). cbv zeta.
  destruct (collect_bounds prefix geojson) as [Hle _].
  assert (x ∈ Shared.collect prefix geojson) as Hxin
    by (rewrite collect_samples; apply elem_of_samples; eauto).
  destruct (Hle x Hxin). by eapply lessEq_trans.
Qed.

Lemma calcGlobalMinMax_min_le_max_witness :
  lessEq (min (Precip.calcGlobalMinMax precip_example))
         (max (Precip.calcGlobalMinMax precip_example)) = true.
Proof.
  apply (calcGlobalMinMax_min_le_max "precip_" precip_example).
  exists (feature_of [("precip_01"%string, Num 2%float); ("precip_07"%string, Num 5%float)]),
         7%nat, 5%float.
  split; [left|]. split; [lia|]. split; reflexivity.
Defined.

(** C2 does not hold as stated: with no sample at all the pair is made of
    numbers, not of [undefined]. A region holding only [null] and NaN gives
    min = Infinity and max = -Infinity. *)
Lemma calcGlobalMinMax_blank_not_undefined :
  samples "temp_" blank_example = [] /\
  samples "precip_" blank_example = [] /\
  Temp.calcGlobalMinMax blank_example
    = {| min := PrimFloat.infinity; max := PrimFloat.neg_infinity |} /\
  Precip.calcGlobalMinMax blank_example
    = {| min := PrimFloat.infinity; max := PrimFloat.neg_infinity |} /\
  ~ (Num (min (Temp.calcGlobalMinMax blank_example)) = Undefined /\
     Num (max (Temp.calcGlobalMinMax blank_example)) = Undefined) /\
  ~ (Num (min (Precip.calcGlobalMinMax blank_example)) = Undefined /\
     Num (max (Precip.calcGlobalMinMax blank_example)) = Undefined).
Proof.
  repeat split; try (vm_compute; reflexivity); intros [? ?]; discriminate.
Qed.

Lemma samples_nil {N : Type} {num : Number N} (prefix : string) (geojson : GeoJSON N) :
  (forall f m x, f ∈ features geojson -> (1 <= m <= 12)%nat ->
                 Shared.getRegionValue prefix f m = Num x -> Number_isNaN x = true) ->
  samples prefix geojson = [].
Proof.
  intros Hnone. destruct (samples prefix geojson) as [|x rest] eqn:Hs; [done|].
  assert (x ∈ samples prefix geojson) as Hx by (rewrite Hs; by left).
  apply elem_of_samples in Hx as (f & m & Hf & Hm & Hv & Hx).
  rewrite (Hnone f m x Hf Hm Hv) in Hx. discriminate.
Qed.

(** C2, amended. When no feature has a number other than NaN in any of its
    twelve month fields, [calcGlobalMinMax] returns without an exception the
    pair min = Infinity, max = -Infinity: two numbers, with max < min. *)
Theorem calcGlobalMinMax_no_sample {N : Type} {num : Number N} {laws : NumberLaws num}
    (prefix : string) (geojson : GeoJSON N) :
  (forall f m x, f ∈ features geojson -> (1 <= m <= 12)%nat ->
                 Shared.getRegionValue prefix f m = Num x -> Number_isNaN x = true) ->
  Shared.calcGlobalMinMax prefix geojson = {| min := Infinity; max := (- Infinity)%js |}
  /\ lessThan (max (Shared.calcGlobalMinMax prefix geojson))
              (min (Shared.calcGlobalMinMax prefix geojson)) = true.
Proof.
  intros Hnone. unfold Shared.calcGlobalMinMax.
  rewrite collect_samples, (samples_nil prefix geojson Hnone). cbn.
  split; [reflexivity|].
  unfold lessThan. by rewrite val_Infinity, val_neg_Infinity.
Qed.

Lemma calcGlobalMinMax_no_sample_witness :
  Shared.calcGlobalMinMax "precip_" {| features := [] |}
    = {| min := PrimFloat.infinity; max := PrimFloat.neg_infinity |}
  /\ lessThan (max (Shared.calcGlobalMinMax "precip_" {| features := [] |}))
              (min (Shared.calcGlobalMinMax "precip_" {| features := [] |})) = true.
Proof.
  refine (calcGlobalMinMax_no_sample (num := binary64) "precip_" {| features := [] |} _).
  intros f m x Hf. by apply elem_of_nil in Hf.
Defined.

(** ** The color mapper on absent values *)

(** C4. Whatever [min] and [max], both [getColorTemp] and [getColor] return
    the placeholder ["#f0f0f0"] when the value is [null], [undefined] or
    NaN; the functions are total, so nothing is thrown. *)
Theorem getColor_absent {N : Type} {num : Number N} (v : value N) (min max : N) :
  v = Null \/ v = Undefined \/ (exists x, v = Num x /\ Number_isNaN x = true) ->
  Temp.getColorTemp v min max = "#f0f0f0"%string /\
  Precip.getColor v min max = "#f0f0f0"%string.
Proof.
  intros [-> | [-> | (x & -> & Hx)]]; try (split; reflexivity).
  unfold Temp.getColorTemp, Precip.getColor, isNaN. cbn. rewrite Hx. by split.
Qed.

Lemma getColor_absent_witness :
  Temp.getColorTemp (Num PrimFloat.nan) 3%float 7%float = "#f0f0f0"%string /\
  Precip.getColor (Num PrimFloat.nan) 3%float 7%float = "#f0f0f0"%string.
Proof.
  apply getColor_absent. right. right. exists PrimFloat.nan. split; reflexivity.
Defined.

(** ** The series builder *)

Lemma getMonthlySeries_map {N : Type} {num : Number N}
    (prefix : string) (props : gmap string (value N)) :
  Shared.getMonthlySeries prefix props
  = map (fun m => nullish (get props (Shared.getMonthPropertyName prefix m)) Null)
        (seq 1 12).
Proof. reflexivity. Qed.

Lemma getMonthlySeries_lookup {N : Type} {num : Number N}
    (prefix : string) (props : gmap string (value N)) (m : nat) :
  (1 <= m <= 12)%nat ->
  Shared.getMonthlySeries prefix props !! (m - 1)%nat
  = Some (nullish (get props (Shared.getMonthPropertyName prefix m)) Null).
Proof.
  intros Hm. rewrite getMonthlySeries_map.
  change (map ?f ?l) with (f <$> l).
  rewrite list_lookup_fmap, lookup_seq_lt by lia. cbn.
  by replace (S (m - 1)) with m by lia.
Qed.

(** C9. For every property bag, [getMonthlySeries] returns exactly twelve
    entries; the entry at index m-1 is the value stored for month m, or
    [null] when that value is [null] or missing. When only months 1, 6 and
    12 are populated, the nine other entries are [null] and the three values
    stand at indices 0, 5 and 11. *)
Theorem getMonthlySeries_twelve {N : Type} {num : Number N}
    (prefix : string) (props : gmap string (value N)) :
  let series := Shared.getMonthlySeries prefix props in
  let stored m := props !! Shared.getMonthPropertyName prefix m in
  length series = 12%nat
  /\ (forall m, (1 <= m <= 12)%nat ->
        series !! (m - 1)%nat
        = Some (match stored m with
                | Some (Num x) => Num x
                | Some Null | Some Undefined | None => Null
                end))
  /\ (forall a b c,
        stored 1%nat = Some (Num a) -> stored 6%nat = Some (Num b) ->
        stored 12%nat = Some (Num c) ->
        (forall m, m ∈ [2; 3; 4; 5; 7; 8; 9; 10; 11]%nat -> stored m = None) ->
        series = [Num a; Null; Null; Null; Null; Num b;
                  Null; Null; Null; Null; Null; Num c])
  /\ Temp.getMonthlySeries sparse_temp
     = [Num 11.5%float; Null; Null; Null; Null; Num 24%float;
        Null; Null; Null; Null; Null; Num (-3.25)%float]
  /\ Precip.getMonthlySeries sparse_precip
     = [Num 11.5%float; Null; Null; Null; Null; Num 24%float;
        Null; Null; Null; Null; Null; Num (-3.25)%float].
Proof.
  cbv zeta. split; [reflexivity|]. split; [|split; [|split]].
  - intros m Hm. rewrite getMonthlySeries_lookup by done. unfold get.
    by destruct (props !! _) as [[| |x]|].
  - intros a b c H1 H6 H12 Hnone. rewrite getMonthlySeries_map. cbn [map seq].
    unfold get. rewrite H1, H6, H12.
    rewrite !Hnone by (repeat (first [by left | right])). reflexivity.
  - vm_compute. reflexivity.
  - vm_compute. reflexivity.
Qed.

(** C10. The series builder turns a stored value into [null] exactly when
    it is [null] or [undefined] (or missing); a stored number is passed
    through unchanged, NaN included, although the color mappers treat NaN
    as absent and answer the placeholder color for it. *)
Theorem getMonthlySeries_keeps_NaN {N : Type} {num : Number N}
    (prefix : string) (props : gmap string (value N)) (m : nat) :
  (1 <= m <= 12)%nat ->
  let stored := get props (Shared.getMonthPropertyName prefix m) in
  let entry := Shared.getMonthlySeries prefix props !! (m - 1)%nat in
  (entry = Some Null <-> stored = Null \/ stored = Undefined)
  /\ (forall x, stored = Num x -> entry = Some (Num x))
  /\ (forall x min max, stored = Num x -> Number_isNaN x = true ->
        entry = Some (Num x)
        /\ Temp.getColorTemp (Num x) min max = "#f0f0f0"%string
        /\ Precip.getColor (Num x) min max = "#f0f0f0"%string).
Proof.
  intros Hm. cbv zeta. rewrite getMonthlySeries_lookup by done.
  destruct (get props _) as [| |x] eqn:Hs; cbn.
  - split; [split; auto|]. split; intros; discriminate.
  - split; [split; auto|]. split; intros; discriminate.
  - split; [split; [discriminate | intros [? | ?]; discriminate]|].
    split; [intros y [= ->]; reflexivity|].
    intros y min max [= ->] Hy. split; [reflexivity|].
    unfold Temp.getColorTemp, Precip.getColor, isNaN. cbn. rewrite Hy. by split.
Qed.

Lemma getMonthlySeries_keeps_NaN_witness :
  Temp.getMonthlySeries (properties (feature_of [("temp_02"%string, Num PrimFloat.nan)]))
    !! 1%nat = Some (Num PrimFloat.nan)
  /\ Temp.getColorTemp (Num PrimFloat.nan) 3%float 7%float = "#f0f0f0"%string
  /\ Precip.getColor (Num PrimFloat.nan) 3%float 7%float = "#f0f0f0"%string.
Proof.
  assert (1 <= 2 <= 12)%nat as Hm by lia.
  apply (getMonthlySeries_keeps_NaN "temp_"
           (properties (feature_of [("temp_02"%string, Num PrimFloat.nan)])) 2%nat Hm);
    reflexivity.
Defined.

(** ** Channels and color strings *)

Lemma chan_mono (x y : Q) : (x <= y)%Q -> chan x <= chan y.
Proof. intros Hxy. apply Qfloor_resp_le. lra. Qed.

Lemma chan_range (x : Q) : (0 <= x <= 255)%Q -> 0 <= chan x <= 255.
Proof.
  intros [H0 H255]. split.
  - change 0 with (chan 0). by apply chan_mono.
  - change 255 with (chan 255). by apply chan_mono.
Qed.

(** The color strings in terms of [clamped] and [channels]. *)
Lemma getColorTemp_rgb {N : Type} {num : Number N} (x min max : N) :
  Number_isNaN x = false ->
  Temp.getColorTemp (Num x) min max
  = rgb_of (Temp.channels (Shared.clamped x min max)).
Proof.
  intros Hx. unfold Temp.getColorTemp, isNaN. cbn. rewrite Hx. reflexivity.
Qed.

Lemma getColor_rgb {N : Type} {num : Number N} (x min max : N) :
  Number_isNaN x = false ->
  Precip.getColor (Num x) min max
  = rgb_of (Precip.channels (Shared.clamped x min max)).
Proof.
  intros Hx. unfold Precip.getColor, isNaN. cbn. rewrite Hx. reflexivity.
Qed.

(** * Doubles *)

(** ** The color mappers on doubles: the ends of the range

    What the specification of primitive floats gives without a theory of
    rounding: for a finite double x, x - x is +0; for a finite double d
    other than zero, d / d is 1 and 0 / d is a zero. *)

Lemma SF64sub_diag (x : spec_float) :
  match x with S754_zero _ | S754_finite _ _ _ => True | _ => False end ->
  SF64sub x x = S754_zero false.
Proof.
  destruct x as [[]|s| |s m e]; try done. intros _.
  unfold SF64sub, SFsub. rewrite Z.sub_diag. reflexivity.
Qed.

(** d / d = 1: the quotient of the mantissas is 2^53 with remainder 0,
    whatever the mantissa. *)
Lemma SF64div_diag (s : bool) (m : positive) (e : Z) :
  SF64div (S754_finite s m e) (S754_finite s m e) = Prim2SF 1%float.
Proof.
  unfold SF64div, SFdiv, SFdiv_core_binary.
  rewrite !Z.sub_diag.
  change (Z.min (fexp prec emax 0) 0) with (-53).
  change (0 - -53) with 53.
  cbv iota beta.
  assert (Z.div_eucl (Z.shiftl (Z.pos m) 53) (Z.pos m) = (2 ^ 53, 0)) as ->.
  { rewrite Z.shiftl_mul_pow2 by lia.
    assert (forall a b, Z.div_eucl a b = (a / b, a mod b)) as ->
      by (intros a b; unfold Z.div, Z.modulo; destruct (Z.div_eucl a b); reflexivity).
    rewrite (Z.mul_comm (Z.pos m)), Z.div_mul, Z.mod_mul by lia. reflexivity. }
  assert (new_location (Z.pos m) 0 = loc_Exact) as ->.
  { unfold new_location. destruct (Z.even (Z.pos m)); reflexivity. }
  rewrite xorb_nilpotent. vm_compute. reflexivity.
Qed.

(** A finite double is a zero or has a mantissa. *)
Lemma b64_isFinite (x : float) :
  isFinite x = true ->
  (exists s, Prim2SF x = S754_zero s) \/ (exists s m e, Prim2SF x = S754_finite s m e).
Proof.
  unfold isFinite. cbn. unfold b64_val.
  destruct (Prim2SF x) as [s|s| |s m e]; try discriminate; eauto.
Qed.

Lemma b64_val_zero (x : float) (s : bool) : Prim2SF x = S754_zero s -> val x = Finv 0.
Proof. intros Hx. cbn. unfold b64_val. by rewrite Hx. Qed.

Lemma Qpower_2_pos (e : Z) : (0 < Qpower 2 e)%Q.
Proof. apply Qpower_0_lt. lra. Qed.

(** A double that is finite and not zero has a mantissa. *)
Lemma b64_nonzero (x : float) :
  isFinite x = true -> ToBoolean x = true -> exists s m e, Prim2SF x = S754_finite s m e.
Proof.
  intros Hf Hb. destruct (b64_isFinite x Hf) as [[s Hx] | Hx]; [|done].
  unfold ToBoolean in Hb. rewrite (b64_val_zero x s Hx) in Hb. discriminate.
Qed.

Lemma b64_ToBoolean_finite (x : float) (s : bool) (m : positive) (e : Z) :
  Prim2SF x = S754_finite s m e -> ToBoolean x = true.
Proof.
  intros Hx. unfold ToBoolean. cbn. unfold b64_val. rewrite Hx.
  apply negb_true_iff, Qzero_bool_false.
  pose proof (Qpower_2_pos e) as Hp. intros Hz.
  destruct s.
  - assert (inject_Z (Z.neg m) < 0)%Q by (unfold Qlt; cbn; lia). nra.
  - assert (0 < inject_Z (Z.pos m))%Q by (unfold Qlt; cbn; lia). nra.
Qed.

Lemma b64_sub_self (x : float) :
  isFinite x = true -> Prim2SF (x - x)%float = S754_zero false.
Proof.
  intros Hx. rewrite sub_spec. apply SF64sub_diag.
  destruct (b64_isFinite x Hx) as [[s ->] | (s & m & e & ->)]; done.
Qed.

Lemma b64_div_self (d : float) :
  isFinite d = true -> ToBoolean d = true -> (d / d)%float = 1%float.
Proof.
  intros Hf Hb. destruct (b64_nonzero d Hf Hb) as (s & m & e & Hd).
  apply Prim2SF_inj. rewrite div_spec, Hd. apply SF64div_diag.
Qed.

Lemma b64_zero_div (z d : float) (sz : bool) :
  Prim2SF z = S754_zero sz -> isFinite d = true -> ToBoolean d = true ->
  exists s, Prim2SF (z / d)%float = S754_zero s.
Proof.
  intros Hz Hf Hb. destruct (b64_nonzero d Hf Hb) as (s & m & e & Hd).
  rewrite div_spec, Hz, Hd. cbn. eauto.
Qed.

(** The clamp of a zero and of one, on doubles. *)
Lemma b64_clamp_zero (t : float) (s : bool) :
  Prim2SF t = S754_zero s -> Math_max [lit 0; Math_min [lit 1; t]] = 0%float.
Proof.
  intros Ht. pose proof (b64_val_zero t s Ht) as Hv.
  assert (Number_isNaN t = false) as Hn by (unfold Number_isNaN; by rewrite Hv).
  rewrite Math_min_two, Hn.
  change (Number_isNaN (lit 1)) with false. cbv iota.
  change (min_step Infinity (lit 1)) with 1%float.
  assert (min_step 1%float t = t) as ->.
  { unfold min_step. change (is_pos_zero 1%float) with false.
    rewrite andb_false_r. unfold lessThan. rewrite Hv. reflexivity. }
  rewrite Math_max_two, Hn.
  change (Number_isNaN (lit 0)) with false. cbv iota.
  change (max_step (- Infinity)%js (lit 0)) with 0%float.
  unfold max_step. change (is_neg_zero 0%float) with false.
  rewrite andb_false_r. unfold lessThan. rewrite Hv. reflexivity.
Qed.

Lemma b64_clamp_one : Math_max [lit 0; Math_min [lit 1; 1%float]] = 1%float.
Proof. vm_compute. reflexivity. Qed.

Lemma b64_isFinite_not_NaN (x : float) : isFinite x = true -> Number_isNaN x = false.
Proof. unfold isFinite, Number_isNaN. by destruct (val x). Qed.

Lemma b64_sub_finite_not_NaN (x y : float) :
  isFinite (x - y)%float = true -> Number_isNaN x = false.
Proof.
  unfold isFinite, Number_isNaN. cbn. unfold b64_val. rewrite sub_spec.
  destruct (Prim2SF x); try done.
Qed.

Lemma b64_clamped_ends (min max : float) :
  isFinite min = true ->
  isFinite (max - min)%float = true -> ToBoolean (max - min)%float = true ->
  Shared.clamped min min max = 0%float /\ Shared.clamped max min max = 1%float.
Proof.
  intros Hmin Hf Hb. unfold Shared.clamped, or_else. cbv zeta.
  cbn [num_sub num_div binary64]. rewrite Hb. split.
  - pose proof (b64_sub_self min Hmin) as Hz.
    destruct (b64_zero_div _ _ _ Hz Hf Hb) as (s & Ht).
    by apply (b64_clamp_zero _ s).
  - rewrite (b64_div_self _ Hf Hb). apply b64_clamp_one.
Qed.

Lemma b64_extremes (min max : float) :
  isFinite min = true ->
  isFinite (max - min)%float = true -> ToBoolean (max - min)%float = true ->
  Temp.getColorTemp (Num min) min max = "rgb(0,0,255)"%string
  /\ Temp.getColorTemp (Num max) min max = "rgb(255,0,0)"%string
  /\ Precip.getColor (Num min) min max = "rgb(255,255,255)"%string
  /\ Precip.getColor (Num max) min max = "rgb(0,0,255)"%string.
Proof.
  intros Hmin Hf Hb.
  destruct (b64_clamped_ends min max Hmin Hf Hb) as [H0 H1].
  pose proof (b64_isFinite_not_NaN min Hmin) as Hn0.
  pose proof (b64_sub_finite_not_NaN max min Hf) as Hn1.
  rewrite !getColorTemp_rgb, !getColor_rgb, H0, H1 by done.
  repeat split; vm_compute; reflexivity.
Qed.

Lemma b64_denominator (min : float) :
  isFinite min = true -> or_else (min - min)%js (lit 1) = 1%float.
Proof.
  intros Hmin. unfold or_else, ToBoolean. cbn [num_sub binary64].
  rewrite (b64_val_zero _ _ (b64_sub_self min Hmin)). reflexivity.
Qed.

(** The first value of the legend, on doubles. *)
Lemma b64_legend_first (globalStats : GlobalStats float) :
  isFinite (min globalStats) = true ->
  isFinite (max globalStats - min globalStats)%float = true ->
  strictEquals (Shared.legendValue globalStats 0) (min globalStats) = true.
Proof.
  destruct globalStats as [mn mx]. cbn [min max]. intros Hmin Hd.
  unfold Shared.legendValue. cbn [min max num_add num_mul num_div num_sub binary64].
  change (b64_lit (Z.of_nat 0) / b64_lit (Z.of_nat Shared.steps))%float with 0%float.
  unfold strictEquals. cbn [val binary64]. unfold b64_val at 1.
  rewrite add_spec, mul_spec.
  change (Prim2SF 0) with (S754_zero false).
  destruct (b64_isFinite _ Hd) as [[s ->] | (s & m & e & ->)];
    destruct (b64_isFinite _ Hmin) as [[s' Hm] | (s' & m' & e' & Hm)];
    unfold b64_val; rewrite Hm; cbn.
  - by destruct s, s'.
  - destruct s'; apply Qeq_bool_iff; reflexivity.
  - by destruct s, s'.
  - destruct s'; apply Qeq_bool_iff; reflexivity.
Qed.

(** ** Rounding on doubles

    The operations of [SpecFloat] round through [binary_round_aux]. This
    part relates it to the rationals: the result of an operation on finite
    doubles is the exact result rounded to nearest, ties to even, on the
    grid of its magnitude, or an infinity when that is 2^emax or more. The
    rounding does not decrease when the number grows, and a double rounds
    to itself; so the operations are monotone and keep a result between
    the doubles that bound the exact one. *)

Lemma digits2_pos_bounds (p : positive) :
  2 ^ (Z.pos (digits2_pos p) - 1) <= Z.pos p < 2 ^ Z.pos (digits2_pos p).
Proof.
  induction p as [p IH|p IH|]; cbn [digits2_pos].
  - rewrite Pos2Z.inj_succ, Z.pow_succ_r by lia.
    replace (Z.succ (Z.pos (digits2_pos p)) - 1) with (Z.succ (Z.pos (digits2_pos p) - 1)) by lia.
    rewrite Z.pow_succ_r by lia. lia.
  - rewrite Pos2Z.inj_succ, Z.pow_succ_r by lia.
    replace (Z.succ (Z.pos (digits2_pos p)) - 1) with (Z.succ (Z.pos (digits2_pos p) - 1)) by lia.
    rewrite Z.pow_succ_r by lia. lia.
  - cbn. lia.
Qed.

Lemma iter_pos_nat {A : Type} (f : A -> A) (p : positive) (x : A) :
  SpecFloat.iter_pos f p x = Nat.iter (Pos.to_nat p) f x.
Proof.
  revert x. induction p as [p IH|p IH|]; intros x; cbn [SpecFloat.iter_pos].
  - rewrite !IH, Pos2Nat.inj_xI. generalize (Pos.to_nat p) as n. intros n.
    replace (S (2 * n)) with (n + S n)%nat by lia.
    by rewrite Nat.iter_add, Nat.iter_succ_r.
  - rewrite !IH, Pos2Nat.inj_xO. generalize (Pos.to_nat p) as n. intros n.
    replace (2 * n)%nat with (n + n)%nat by lia.
    by rewrite Nat.iter_add.
  - reflexivity.
Qed.

Lemma pos_iter_xO (m d : positive) : Z.pos (Pos.iter xO m d) = Z.pos m * 2 ^ Z.pos d.
Proof.
  induction d as [|d IH] using Pos.peano_ind.
  - cbn. lia.
  - rewrite Pos.iter_succ, Pos2Z.inj_xO, IH, Pos2Z.inj_succ, Z.pow_succ_r by lia. lia.
Qed.

Lemma shl_align_spec (m : positive) (e e' : Z) :
  let '(m1, e1) := shl_align m e e' in
  e1 = Z.min e e' /\ Z.pos m1 = Z.pos m * 2 ^ (e - e1).
Proof.
  unfold shl_align. destruct (e' - e) as [|d|d] eqn:Hd.
  - rewrite Z.min_l by lia. rewrite Z.sub_diag. split; lia.
  - rewrite Z.min_l by lia. rewrite Z.sub_diag. split; lia.
  - rewrite Z.min_r by lia. split; [done|]. rewrite pos_iter_xO. f_equal. f_equal. lia.
Qed.

Lemma fexp_mono (x y : Z) : x <= y -> fexp prec emax x <= fexp prec emax y.
Proof. unfold fexp. lia. Qed.

(** The rationals m * 2^e. *)

Lemma Qpower_2_Z (k : Z) : 0 <= k -> (Qpower 2 k == inject_Z (2 ^ k))%Q.
Proof. intros Hk. by rewrite Zpower_Qpower. Qed.

Lemma F2Q_shift (m e k : Z) : 0 <= k -> (F2Q m (e + k) == F2Q (m * 2 ^ k) e)%Q.
Proof.
  intros Hk. unfold F2Q.
  rewrite Qpower_plus, inject_Z_mult, (Qpower_2_Z k) by (done || lra). ring.
Qed.

Lemma F2Q_unshift (m c e : Z) : c <= e -> (F2Q m e == F2Q (m * 2 ^ (e - c)) c)%Q.
Proof.
  intros Hc. rewrite <- F2Q_shift by lia. by replace (c + (e - c)) with e by lia.
Qed.

Lemma F2Q_le (m n e : Z) : (F2Q m e <= F2Q n e)%Q <-> m <= n.
Proof.
  unfold F2Q. rewrite Qmult_le_r by apply Qpower_2_pos. by rewrite <- Zle_Qle.
Qed.

Lemma F2Q_lt (m n e : Z) : (F2Q m e < F2Q n e)%Q <-> m < n.
Proof.
  unfold F2Q. rewrite Qmult_lt_r by apply Qpower_2_pos. by rewrite <- Zlt_Qlt.
Qed.

Lemma F2Q_pos (m : positive) (e : Z) : (0 < F2Q (Z.pos m) e)%Q.
Proof.
  unfold F2Q. apply Qmult_lt_0_compat; [|apply Qpower_2_pos].
  change 0%Q with (inject_Z 0). rewrite <- Zlt_Qlt. lia.
Qed.

Lemma F2Q_neg (m : positive) (e : Z) : (F2Q (Z.neg m) e == - F2Q (Z.pos m) e)%Q.
Proof.
  unfold F2Q. change (Z.neg m) with (- Z.pos m). rewrite inject_Z_opp. ring.
Qed.

Lemma F2Q_opp (m e : Z) : (F2Q (- m) e == - F2Q m e)%Q.
Proof. unfold F2Q. rewrite inject_Z_opp. ring. Qed.

Lemma F2Q_0 (e : Z) : (F2Q 0 e == 0)%Q.
Proof. unfold F2Q. ring. Qed.

Lemma F2Q_mul (m n e f : Z) : (F2Q (m * n) (e + f) == F2Q m e * F2Q n f)%Q.
Proof.
  unfold F2Q. rewrite inject_Z_mult, Qpower_plus by lra. ring.
Qed.

Lemma F2Q_sub (m n e : Z) : (F2Q (m - n) e == F2Q m e - F2Q n e)%Q.
Proof.
  unfold F2Q, Z.sub. rewrite inject_Z_plus, inject_Z_opp. ring.
Qed.

(** The value of a double. *)

Lemma b64_val_sf (x : float) : val x = sf_val (Prim2SF x).
Proof. reflexivity. Qed.

(** A double whose value is a rational is a zero or has a mantissa. *)
Lemma sf_val_finite (x : spec_float) (q : Q) :
  sf_val x = Finv q ->
  (exists s, x = S754_zero s /\ q = 0%Q)
  \/ (exists s m e, x = S754_finite s m e /\ q = F2Q (cond_Zopp s (Z.pos m)) e).
Proof.
  destruct x as [s|s| |[] m e]; cbn; intros [= <-]; eauto 6.
Qed.

Lemma b64_abs_val (x : float) (q : Q) :
  val x = Finv q -> exists r, val (abs x) = Finv r /\ (r == Qabs q)%Q.
Proof.
  rewrite !b64_val_sf, abs_spec. intros Hx.
  destruct (sf_val_finite _ _ Hx) as [(sx & -> & ->) | (sx & mx & ex & -> & ->)].
  - exists 0%Q. split; reflexivity.
  - exists (F2Q (Z.pos mx) ex). split; [reflexivity|].
    pose proof (F2Q_pos mx ex).
    destruct sx; cbn [cond_Zopp]; [rewrite F2Q_opp, Qabs_opp|];
      by rewrite Qabs_pos by lra.
Qed.

Lemma b64_lit_255 : exists q, val (lit 255 : float) = Finv q /\ (q == 255)%Q.
Proof. eexists. split; [vm_compute; reflexivity | reflexivity]. Qed.

Lemma b64_lit_2 : exists q, val (lit 2 : float) = Finv q /\ (q == 2)%Q.
Proof. eexists. split; [vm_compute; reflexivity | reflexivity]. Qed.

Lemma b64_lit_1 : exists q, val (lit 1 : float) = Finv q /\ (q == 1)%Q.
Proof. eexists. split; [vm_compute; reflexivity | reflexivity]. Qed.

Lemma b64_lit_half : exists q, val (lit_half : float) = Finv q /\ (q == 1 # 2)%Q.
Proof. eexists. split; [vm_compute; reflexivity | reflexivity]. Qed.

Lemma b64_unit (s : float) :
  lessEq (lit 0) s = true -> lessEq s (lit 1) = true ->
  exists q, val s = Finv q /\ (0 <= q <= 1)%Q.
Proof.
  rewrite !lessEq_spec. destruct b64_lit_1 as (c1 & -> & Hc1).
  assert (val (lit 0 : float) = Finv 0) as -> by reflexivity.
  destruct (val s) as [|[]|q]; cbn; try tauto. intros H0 H1. exists q. split; [done | lra].
Qed.

(** ** Locations *)

Lemma shr_1_fields (mrs : shr_record) :
  0 <= shr_m mrs ->
  shr_1 mrs = {| shr_m := shr_m mrs / 2; shr_r := Z.odd (shr_m mrs);
                 shr_s := shr_r mrs || shr_s mrs |}.
Proof.
  destruct mrs as [m r s]. cbn [shr_m shr_r shr_s shr_1]. intros Hm.
  destruct m as [|[p|p|]|p]; try lia.
  - reflexivity.
  - f_equal. rewrite Pos2Z.inj_xI. apply Z.div_unique with 1; lia.
  - f_equal. rewrite Pos2Z.inj_xO. apply Z.div_unique with 0; lia.
  - reflexivity.
Qed.

Lemma loc_of_shr_record_of_loc (m : Z) (l : location) :
  loc_of_shr_record (shr_record_of_loc m l) = l.
Proof. by destruct l as [|[]]. Qed.

Lemma shr_m_record_of_loc (m : Z) (l : location) : shr_m (shr_record_of_loc m l) = m.
Proof. by destruct l as [|[]]. Qed.

Lemma Qcompare_Gt_iff (x y : Q) : (x ?= y)%Q = Gt <-> (y < x)%Q.
Proof. symmetry. apply Qgt_alt. Qed.

Lemma Qcompare_Eq_iff (x y : Q) : (x ?= y)%Q = Eq <-> (x == y)%Q.
Proof. symmetry. apply Qeq_alt. Qed.

Lemma loc_ok_shr_1 (mrs : shr_record) (x : Q) :
  0 <= shr_m mrs ->
  loc_ok (shr_m mrs) (loc_of_shr_record mrs) x ->
  loc_ok (shr_m (shr_1 mrs)) (loc_of_shr_record (shr_1 mrs)) (x * (1 # 2)).
Proof.
  intros Hm. rewrite (shr_1_fields mrs Hm). destruct mrs as [m r s].
  cbn [shr_m shr_r shr_s] in *.
  pose proof (Z.div_mod m 2 ltac:(lia)) as Hdm. rewrite Zmod_odd in Hdm.
  set (a := m / 2) in *.
  assert (inject_Z m == 2 * inject_Z a + (if Z.odd m then 1 else 0))%Q as Hq.
  { rewrite Hdm at 1. rewrite inject_Z_plus, inject_Z_mult. by destruct (Z.odd m). }
  clearbody a. clear Hdm Hm.
  destruct (Z.odd m); destruct r, s; cbn [orb loc_of_shr_record loc_ok];
    revert Hq; generalize (inject_Z m) as M; generalize (inject_Z a) as A;
    intros A M Hq;
    try (intros (H1 & H2 & _)); try (intros H1);
    rewrite <- ?Qlt_alt, ?Qcompare_Gt_iff, ?Qcompare_Eq_iff;
    repeat split; lra.
Qed.

Lemma loc_ok_proper (m : Z) (l : location) (x y : Q) :
  (x == y)%Q -> loc_ok m l x -> loc_ok m l y.
Proof.
  intros Hxy. destruct l as [|c]; cbn.
  - by rewrite Hxy.
  - by rewrite Hxy.
Qed.

Lemma Qpower_2_succ (e : Z) : (Qpower 2 (- (e + 1)) == Qpower 2 (- e) * (1 # 2))%Q.
Proof.
  replace (- (e + 1)) with (- e + -1) by lia. rewrite Qpower_plus by lra. reflexivity.
Qed.

Lemma locates_shr_1 (mrs : shr_record) (e : Z) (rho : Q) :
  0 <= shr_m mrs ->
  locates (shr_m mrs) e (loc_of_shr_record mrs) rho ->
  locates (shr_m (shr_1 mrs)) (e + 1) (loc_of_shr_record (shr_1 mrs)) rho.
Proof.
  unfold locates. intros Hm H%loc_ok_shr_1; [|done].
  eapply loc_ok_proper; [|exact H]. rewrite Qpower_2_succ. ring.
Qed.

Lemma locates_iter (n : nat) (mrs : shr_record) (e : Z) (rho : Q) :
  0 <= shr_m mrs ->
  locates (shr_m mrs) e (loc_of_shr_record mrs) rho ->
  let mrs' := Nat.iter n shr_1 mrs in
  shr_m mrs' = shr_m mrs / 2 ^ Z.of_nat n
  /\ locates (shr_m mrs') (e + Z.of_nat n) (loc_of_shr_record mrs') rho.
Proof.
  intros Hm Hloc. cbv zeta. induction n as [|n [IHm IHl]].
  - cbn [Nat.iter]. change (2 ^ Z.of_nat 0) with 1. rewrite Z.div_1_r, Z.add_0_r. done.
  - change (Nat.iter (S n) shr_1 mrs) with (shr_1 (Nat.iter n shr_1 mrs)).
    assert (0 <= shr_m (Nat.iter n shr_1 mrs)) as Hn
      by (rewrite IHm; apply Z.div_pos; lia).
    rewrite Nat2Z.inj_succ, Z.pow_succ_r by lia. split.
    + rewrite (shr_1_fields _ Hn). cbn [shr_m]. rewrite IHm, Z.div_div by lia.
      f_equal. lia.
    + replace (e + Z.succ (Z.of_nat n)) with (e + Z.of_nat n + 1) by lia.
      by apply locates_shr_1.
Qed.

(** The first step of rounding: the mantissa is cut at the exponent of
    the format, or left as it is when it is already coarser. *)
Lemma shr_fexp_locates (m e : Z) (l : location) (rho : Q) :
  0 <= m -> locates m e l rho ->
  let '(mrs, e') := shr_fexp prec emax m e l in
  e' = Z.max e (fexp prec emax (Zdigits2 m + e))
  /\ shr_m mrs = m / 2 ^ (e' - e)
  /\ locates (shr_m mrs) e' (loc_of_shr_record mrs) rho.
Proof.
  intros Hm Hloc. unfold shr_fexp, shr.
  destruct (fexp prec emax (Zdigits2 m + e) - e) as [|p|p] eqn:Hk.
  - rewrite Z.max_l by lia. rewrite Z.sub_diag. change (2 ^ 0) with 1.
    rewrite Z.div_1_r, shr_m_record_of_loc, loc_of_shr_record_of_loc. done.
  - rewrite iter_pos_nat.
    assert (e + Z.pos p = Z.max e (fexp prec emax (Zdigits2 m + e))) as <- by lia.
    replace (e + Z.pos p - e) with (Z.of_nat (Pos.to_nat p)) by lia.
    split; [done|].
    destruct (locates_iter (Pos.to_nat p) (shr_record_of_loc m l) e rho) as [H1 H2].
    + by rewrite shr_m_record_of_loc.
    + by rewrite shr_m_record_of_loc, loc_of_shr_record_of_loc.
    + rewrite shr_m_record_of_loc in H1. split; [exact H1|].
      by replace (e + Z.pos p) with (e + Z.of_nat (Pos.to_nat p)) by lia.
  - rewrite Z.max_l by lia. rewrite Z.sub_diag. change (2 ^ 0) with 1.
    rewrite Z.div_1_r, shr_m_record_of_loc, loc_of_shr_record_of_loc. done.
Qed.

(** ** Rounding to nearest, ties to even *)

Lemma inject_Z_le (a b : Z) : (inject_Z a <= inject_Z b)%Q <-> a <= b.
Proof. by rewrite <- Zle_Qle. Qed.

Lemma inject_Z_lt (a b : Z) : (inject_Z a < inject_Z b)%Q <-> a < b.
Proof. by rewrite <- Zlt_Qlt. Qed.

Lemma loc_ok_floor (m : Z) (l : location) (x : Q) :
  loc_ok m l x -> (inject_Z m <= x)%Q /\ (x < inject_Z m + 1)%Q.
Proof.
  destruct l as [|c]; cbn.
  - intros ->. split; lra.
  - intros (? & ? & _). split; lra.
Qed.

Lemma round_nearest_even_range (m : Z) (l : location) :
  m <= round_nearest_even m l <= m + 1.
Proof. destruct l as [|[]]; cbn; try destruct (Z.even m); lia. Qed.

(** Between two integers the rounding stays. *)
Lemma round_nearest_even_le (m : Z) (l : location) (x : Q) (k : Z) :
  loc_ok m l x -> (x <= inject_Z k)%Q -> round_nearest_even m l <= k.
Proof.
  intros Hloc Hk. pose proof (loc_ok_floor _ _ _ Hloc) as [H1 H2].
  destruct l as [|c].
  - cbn in *. rewrite Hloc in Hk. by apply inject_Z_le.
  - cbn in Hloc. destruct Hloc as (H3 & _).
    assert (m < k) as Hlt by (apply inject_Z_lt; by apply Qlt_le_trans with x).
    pose proof (round_nearest_even_range m (loc_Inexact c)). lia.
Qed.

Lemma inject_Z_succ_1 (m : Z) : (inject_Z (m + 1) == inject_Z m + 1)%Q.
Proof. by rewrite inject_Z_plus. Qed.

Lemma round_nearest_even_ge (m : Z) (l : location) (x : Q) (k : Z) :
  loc_ok m l x -> (inject_Z k <= x)%Q -> k <= round_nearest_even m l.
Proof.
  intros Hloc Hk. pose proof (loc_ok_floor _ _ _ Hloc) as [H1 H2].
  assert (k < m + 1) as Hlt
    by (apply inject_Z_lt; rewrite inject_Z_succ_1; by apply Qle_lt_trans with x).
  pose proof (round_nearest_even_range m l). lia.
Qed.

(** The rounding is monotone. *)
Lemma round_nearest_even_mono (m1 m2 : Z) (l1 l2 : location) (x1 x2 : Q) :
  loc_ok m1 l1 x1 -> loc_ok m2 l2 x2 -> (x1 <= x2)%Q ->
  round_nearest_even m1 l1 <= round_nearest_even m2 l2.
Proof.
  intros H1 H2 Hx.
  pose proof (loc_ok_floor _ _ _ H1) as [Ha1 Hb1].
  pose proof (loc_ok_floor _ _ _ H2) as [Ha2 Hb2].
  assert (m1 < m2 + 1) as Hlt.
  { apply inject_Z_lt. rewrite inject_Z_succ_1. apply Qle_lt_trans with x1; [done|].
    by apply Qle_lt_trans with x2. }
  pose proof (round_nearest_even_range m1 l1).
  pose proof (round_nearest_even_range m2 l2).
  destruct (Z.eq_dec m1 m2) as [-> | Hne]; [|lia].
  clear Ha1 Hb1 Ha2 Hb2 Hlt.
  destruct l1 as [|[]], l2 as [|[]]; cbn in *;
    rewrite <- ?Qlt_alt, ?Qcompare_Gt_iff, ?Qcompare_Eq_iff in *;
    try destruct (Z.even m2); try lia; exfalso;
    revert H1 H2 Hx; generalize (inject_Z m2) as M; intros; lra.
Qed.

(** ** Powers of two *)

Lemma Qpower_2_add (a b : Z) : (Qpower 2 (a + b) == Qpower 2 a * Qpower 2 b)%Q.
Proof. apply Qpower_plus. lra. Qed.

Lemma Qpower_2_opp (a : Z) : (Qpower 2 (- a) * Qpower 2 a == 1)%Q.
Proof. rewrite <- Qpower_2_add. by replace (- a + a) with 0 by lia. Qed.

Lemma Qpower_2_ge_1 (k : Z) : 0 <= k -> (1 <= Qpower 2 k)%Q.
Proof.
  intros Hk. rewrite (Qpower_2_Z k) by done. change 1%Q with (inject_Z 1).
  apply inject_Z_le. pose proof (Z.pow_pos_nonneg 2 k ltac:(lia) Hk). lia.
Qed.

Lemma Qpower_2_le (a b : Z) : a <= b -> (Qpower 2 a <= Qpower 2 b)%Q.
Proof.
  intros Hab. replace b with (a + (b - a)) by lia. rewrite Qpower_2_add.
  pose proof (Qpower_2_pos a). pose proof (Qpower_2_ge_1 (b - a) ltac:(lia)). nra.
Qed.

Lemma Qpower_2_lt (a b : Z) : a < b -> (Qpower 2 a < Qpower 2 b)%Q.
Proof.
  intros Hab. replace b with (a + 1 + (b - a - 1)) by lia. rewrite !Qpower_2_add.
  pose proof (Qpower_2_pos a). pose proof (Qpower_2_ge_1 (b - a - 1) ltac:(lia)).
  change (Qpower 2 1) with 2%Q. nra.
Qed.

Lemma F2Q_1_power (e : Z) : (F2Q 1 e == Qpower 2 e)%Q.
Proof. unfold F2Q. ring. Qed.

Lemma F2Q_power (k e : Z) : 0 <= k -> (F2Q (2 ^ k) e == Qpower 2 (k + e))%Q.
Proof. intros Hk. unfold F2Q. by rewrite Qpower_2_add, (Qpower_2_Z k). Qed.

(** ** The magnitude of a positive number *)

Lemma magnitude_mono (rho1 rho2 : Q) (d1 d2 : Z) :
  magnitude rho1 d1 -> magnitude rho2 d2 -> (rho1 <= rho2)%Q -> d1 <= d2.
Proof.
  intros [H1 _] [_ H2] Hle. destruct (Z_le_gt_dec d1 d2) as [|Hgt]; [done|].
  pose proof (Qpower_2_le d2 (d1 - 1) ltac:(lia)). lra.
Qed.

Lemma magnitude_unique (rho : Q) (d1 d2 : Z) :
  magnitude rho d1 -> magnitude rho d2 -> d1 = d2.
Proof.
  intros H1 H2.
  pose proof (magnitude_mono _ _ _ _ H1 H2 ltac:(lra)).
  pose proof (magnitude_mono _ _ _ _ H2 H1 ltac:(lra)). lia.
Qed.

Lemma locates_bounds (m e : Z) (l : location) (rho : Q) :
  locates m e l rho -> (F2Q m e <= rho)%Q /\ (rho < F2Q (m + 1) e)%Q.
Proof.
  unfold locates. intros [H1 H2]%loc_ok_floor. unfold F2Q.
  pose proof (Qpower_2_pos e) as Hp. pose proof (Qpower_2_opp e) as Hinv.
  rewrite inject_Z_succ_1.
  revert H1 H2 Hinv Hp. generalize (inject_Z m) (Qpower 2 e) (Qpower 2 (- e)).
  intros M P P' H1 H2 Hinv Hp.
  assert (rho == rho * P' * P)%Q as -> by (rewrite <- Qmult_assoc, Hinv; ring).
  split; nra.
Qed.

Lemma Zdigits2_bounds (m : Z) :
  0 < m -> 2 ^ (Zdigits2 m - 1) <= m < 2 ^ Zdigits2 m.
Proof. destruct m as [|p|p]; try lia. intros _. apply digits2_pos_bounds. Qed.

Lemma Zdigits2_nonneg (m : Z) : 0 <= Zdigits2 m.
Proof. by destruct m. Qed.

Lemma Zdigits2_unique (m d : Z) : 2 ^ (d - 1) <= m < 2 ^ d -> 0 < m -> Zdigits2 m = d.
Proof.
  intros [H1 H2] Hm. pose proof (Zdigits2_bounds m Hm) as [H3 H4].
  pose proof (Zdigits2_nonneg m).
  assert (0 < d) as Hd.
  { destruct (Z_lt_le_dec 0 d) as [|Hd0]; [done|]. exfalso.
    destruct (Z.eq_dec d 0) as [-> | Hne]; [cbn in H2; lia|].
    rewrite Z.pow_neg_r in H2 by lia. lia. }
  destruct (Z.lt_trichotomy (Zdigits2 m) d) as [Hlt | [Heq | Hgt]]; [|done|].
  - pose proof (Z.pow_le_mono_r 2 (Zdigits2 m) (d - 1) ltac:(lia) ltac:(lia)). lia.
  - pose proof (Z.pow_le_mono_r 2 d (Zdigits2 m - 1) ltac:(lia) ltac:(lia)). lia.
Qed.

Lemma locates_magnitude (m e : Z) (l : location) (rho : Q) :
  0 < m -> locates m e l rho -> magnitude rho (Zdigits2 m + e).
Proof.
  intros Hm [H1 H2]%locates_bounds. pose proof (Zdigits2_bounds m Hm) as [H3 H4].
  pose proof (Zdigits2_nonneg m).
  assert (0 < Zdigits2 m) by (destruct m; cbn; lia).
  split.
  - replace (Zdigits2 m + e - 1) with (Zdigits2 m - 1 + e) by lia.
    rewrite <- F2Q_power by lia. apply Qle_trans with (F2Q m e); [|done].
    by apply F2Q_le.
  - rewrite <- F2Q_power by lia. apply Qlt_le_trans with (F2Q (m + 1) e); [done|].
    apply F2Q_le. lia.
Qed.

(** ** The rounding of [binary_round_aux] *)

Lemma locates_exact (m e : Z) : locates m e loc_Exact (F2Q m e).
Proof.
  unfold locates, loc_ok, F2Q.
  rewrite <- Qmult_assoc, (Qmult_comm (Qpower 2 e)), Qpower_2_opp. ring.
Qed.

Ltac fexp_lia := unfold fexp, SpecFloat.emin, prec, emax in *; lia.

Lemma magnitude_scaled (rho : Q) (d g : Z) :
  magnitude rho d ->
  (Qpower 2 (d - 1 - g) <= rho * Qpower 2 (- g))%Q
  /\ (rho * Qpower 2 (- g) < Qpower 2 (d - g))%Q.
Proof.
  intros [H1 H2]. pose proof (Qpower_2_pos (- g)) as Hp.
  replace (d - 1 - g) with (d - 1 + - g) by lia. replace (d - g) with (d + - g) by lia.
  rewrite !Qpower_2_add. split; nra.
Qed.

(** The integer the rounding gives, by the magnitude. *)
Lemma round_nearest_even_magnitude (m : Z) (l : location) (rho : Q) (d g : Z) :
  0 <= m -> locates m g l rho -> magnitude rho d ->
  let n := round_nearest_even m l in
  0 <= n
  /\ (g <= d - 1 -> 2 ^ (d - 1 - g) <= n <= 2 ^ (d - g))
  /\ (d <= g -> n <= 1).
Proof.
  intros Hm Hloc Hmag. cbv zeta.
  pose proof (round_nearest_even_range m l) as Hr.
  destruct (magnitude_scaled rho d g Hmag) as [H1 H2].
  split; [lia|]. split.
  - intros Hg. split.
    + eapply round_nearest_even_ge; [exact Hloc|].
      by rewrite <- (Qpower_2_Z (d - 1 - g)) by lia.
    + eapply round_nearest_even_le; [exact Hloc|].
      rewrite <- (Qpower_2_Z (d - g)) by lia. lra.
  - intros Hg. eapply round_nearest_even_le; [exact Hloc|].
    pose proof (Qpower_2_le (d - g) 0 ltac:(lia)) as H0.
    change (Qpower 2 0) with 1%Q in H0. change (inject_Z 1) with 1%Q. lra.
Qed.

(** The exponent of the first step is that of the format. *)
Lemma shr_fexp_exponent (m e : Z) (l : location) (rho : Q) (d : Z) :
  0 <= m -> locates m e l rho -> magnitude rho d -> e <= fexp prec emax d ->
  Z.max e (fexp prec emax (Zdigits2 m + e)) = fexp prec emax d.
Proof.
  intros Hm Hloc Hmag He.
  destruct (Z.eq_dec m 0) as [-> | Hne].
  - destruct (locates_bounds _ _ _ _ Hloc) as [_ Hlt].
    change (0 + 1) with 1 in Hlt. rewrite F2Q_1_power in Hlt.
    destruct Hmag as [Hmag _].
    assert (d <= e).
    { destruct (Z_le_gt_dec d e) as [|Hgt]; [done|].
      pose proof (Qpower_2_le e (d - 1) ltac:(lia)). lra. }
    cbn [Zdigits2]. fexp_lia.
  - pose proof (locates_magnitude m e l rho ltac:(lia) Hloc) as Hmag'.
    rewrite (magnitude_unique _ _ _ Hmag' Hmag). lia.
Qed.

(** The second step of rounding is exact: it shifts once more only when
    the rounding reached the next power of two. *)
Lemma shr_fexp_second (n g d : Z) :
  g = fexp prec emax d -> 0 <= n ->
  (g <= d - 1 -> 2 ^ (d - 1 - g) <= n <= 2 ^ (d - g)) ->
  (d <= g -> n <= 1) ->
  let e2 := Z.max g (fexp prec emax (Zdigits2 n + g)) in
  n mod 2 ^ (e2 - g) = 0
  /\ (0 < n -> e2 <= emax - prec -> exists j, 0 <= j /\ n < 2 ^ j /\ j + g <= emax)
  /\ (0 < n -> emax - prec < e2 -> exists j, 0 <= j /\ 2 ^ j <= n /\ emax <= j + g).
Proof.
  intros Hg Hn Hnormal Hsmall. cbv zeta.
  destruct (Z_le_gt_dec d g) as [Hdg | Hdg].
  - (* below the smallest exponent: 0 or 1 *)
    specialize (Hsmall Hdg).
    assert (g = -1074) as Hmin by fexp_lia.
    assert (Zdigits2 n <= 1) as Hdig.
    { destruct (Z.eq_dec n 0) as [-> | ?]; [cbn; lia|]. by assert (n = 1) as -> by lia. }
    pose proof (Zdigits2_nonneg n).
    assert (Z.max g (fexp prec emax (Zdigits2 n + g)) = g) as -> by fexp_lia.
    rewrite Z.sub_diag. change (2 ^ 0) with 1. rewrite Z.mod_1_r.
    split; [done|]. split.
    + intros _ _. exists 1. change (2 ^ 1) with 2. fexp_lia.
    + intros _ He. fexp_lia.
  - specialize (Hnormal ltac:(lia)).
    assert (0 < 2 ^ (d - 1 - g)) by (apply Z.pow_pos_nonneg; lia).
    assert (2 ^ (d - g) = 2 * 2 ^ (d - 1 - g)) as Hpow
      by (rewrite <- Z.pow_succ_r by lia; f_equal; lia).
    destruct (Z.eq_dec n (2 ^ (d - g))) as [Heq | Hne].
    + (* the next power of two *)
      assert (Zdigits2 n = d - g + 1) as Hdig.
      { apply Zdigits2_unique; [|lia]. replace (d - g + 1 - 1) with (d - g) by lia.
        rewrite Z.pow_add_r by lia. change (2 ^ 1) with 2. lia. }
      rewrite Hdig. split; [|split].
      * assert (Z.max g (fexp prec emax (d - g + 1 + g)) - g = 0
                \/ Z.max g (fexp prec emax (d - g + 1 + g)) - g = 1) as [-> | ->]
          by fexp_lia.
        -- apply Z.mod_1_r.
        -- change (2 ^ 1) with 2. rewrite Heq, Hpow, Z.mul_comm. apply Z.mod_mul. lia.
      * intros _ He. exists (d - g + 1). rewrite Z.pow_add_r by lia.
        change (2 ^ 1) with 2. split; [lia|]. split; [lia|]. fexp_lia.
      * intros _ He. exists (d - g). split; [lia|]. split; [lia|]. fexp_lia.
    + assert (Zdigits2 n = d - g) as Hdig
        by (apply Zdigits2_unique; [replace (d - g - 1) with (d - 1 - g) by lia|]; lia).
      rewrite Hdig. replace (d - g + g) with d by lia. rewrite <- Hg, Z.max_id, Z.sub_diag.
      change (2 ^ 0) with 1. rewrite Z.mod_1_r. split; [done|]. split.
      * intros _ He. exists (d - g). split; [lia|]. split; [lia|]. fexp_lia.
      * intros _ He. exists (d - 1 - g). split; [lia|]. split; [lia|]. fexp_lia.
Qed.

(** What [binary_round_aux] returns for a number located by its
    arguments. *)
Lemma round_aux_spec (sx : bool) (m e : Z) (l : location) (rho : Q) (d : Z) :
  0 <= m -> locates m e l rho -> magnitude rho d -> e <= fexp prec emax d ->
  exists v, rounds rho v /\
    match binary_round_aux prec emax sx m e l with
    | S754_zero s => s = sx /\ (v == 0)%Q
    | S754_finite s m2 e2 =>
        s = sx /\ (F2Q (Z.pos m2) e2 == v)%Q /\ (v < Qpower 2 emax)%Q
    | S754_infinity s => s = sx /\ (Qpower 2 emax <= v)%Q
    | S754_nan => False
    end.
Proof.
  intros Hm Hloc Hmag He. unfold binary_round_aux.
  pose proof (shr_fexp_locates m e l rho Hm Hloc) as H1.
  destruct (shr_fexp prec emax m e l) as [mrs e1].
  destruct H1 as (He1 & Hm1 & Hloc1).
  rewrite (shr_fexp_exponent m e l rho d Hm Hloc Hmag He) in He1. subst e1.
  set (g := fexp prec emax d) in *.
  assert (0 <= shr_m mrs) as Hm1pos by (rewrite Hm1; apply Z.div_pos; lia).
  destruct (round_nearest_even_magnitude _ _ _ d g Hm1pos Hloc1 Hmag)
    as (Hn & Hnormal & Hsmall).
  set (n := round_nearest_even (shr_m mrs) (loc_of_shr_record mrs)) in *.
  exists (F2Q n g). split; [by exists d, (shr_m mrs), (loc_of_shr_record mrs)|].
  pose proof (shr_fexp_locates n g loc_Exact _ Hn (locates_exact n g)) as H2.
  destruct (shr_fexp prec emax n g loc_Exact) as [mrs2 e2].
  destruct H2 as (He2 & Hm2 & _).
  destruct (shr_fexp_second n g d eq_refl Hn Hnormal Hsmall) as (Hexact & Hfin & Hinf).
  rewrite <- He2 in Hexact, Hfin, Hinf.
  assert (0 <= e2 - g) as Hk by lia.
  assert (n = shr_m mrs2 * 2 ^ (e2 - g)) as Hn2.
  { pose proof (Z.div_mod n (2 ^ (e2 - g)) ltac:(lia)) as Hdm.
    rewrite Hexact, <- Hm2 in Hdm. lia. }
  assert (F2Q (shr_m mrs2) e2 == F2Q n g)%Q as Hv
    by (rewrite (F2Q_unshift _ g e2) by lia; by rewrite <- Hn2).
  assert (0 <= shr_m mrs2) as Hm2pos by (rewrite Hm2; apply Z.div_pos; lia).
  destruct (shr_m mrs2) as [|p|p] eqn:Hp; [| |lia].
  - split; [done|]. rewrite <- Hv. apply F2Q_0.
  - assert (0 < n) as Hnpos.
    { rewrite Hn2. apply Z.mul_pos_pos; [lia|]. apply Z.pow_pos_nonneg; lia. }
    destruct (Z.leb_spec e2 (emax - prec)) as [Hle | Hgt].
    + split; [done|]. split; [done|].
      destruct (Hfin Hnpos Hle) as (j & Hj & Hnj & Hjg).
      apply Qlt_le_trans with (F2Q (2 ^ j) g); [by apply F2Q_lt|].
      rewrite F2Q_power by done. by apply Qpower_2_le.
    + split; [done|].
      destruct (Hinf Hnpos Hgt) as (j & Hj & Hnj & Hjg).
      apply Qle_trans with (F2Q (2 ^ j) g); [|by apply F2Q_le].
      rewrite F2Q_power by done. by apply Qpower_2_le.
Qed.

(** ** Rounding is monotone *)

Lemma rounds_proper (rho v v' : Q) : (v == v')%Q -> rounds rho v -> rounds rho v'.
Proof.
  intros Hv (d & m & l & Hmag & Hm & Hloc & Heq).
  exists d, m, l. split; [done|]. split; [done|]. split; [done|].
  apply Qeq_trans with v; [by symmetry | done].
Qed.

Lemma rounds_nonneg (rho v : Q) : rounds rho v -> (0 <= v)%Q.
Proof.
  intros (d & m & l & Hmag & Hm & Hloc & ->).
  pose proof (round_nearest_even_range m l).
  rewrite <- (F2Q_0 (fexp prec emax d)). apply F2Q_le. lia.
Qed.

Lemma locates_scaled_le (m1 m2 g : Z) (l1 l2 : location) (rho1 rho2 : Q) :
  locates m1 g l1 rho1 -> locates m2 g l2 rho2 -> (rho1 <= rho2)%Q ->
  round_nearest_even m1 l1 <= round_nearest_even m2 l2.
Proof.
  unfold locates. intros H1 H2 Hle. eapply round_nearest_even_mono; [exact H1 | exact H2|].
  pose proof (Qpower_2_pos (- g)). nra.
Qed.

Lemma rounds_mono (rho1 rho2 v1 v2 : Q) :
  (rho1 <= rho2)%Q -> rounds rho1 v1 -> rounds rho2 v2 -> (v1 <= v2)%Q.
Proof.
  intros Hle (d1 & m1 & l1 & Hmag1 & Hm1 & Hloc1 & ->)
    (d2 & m2 & l2 & Hmag2 & Hm2 & Hloc2 & ->).
  pose proof (magnitude_mono _ _ _ _ Hmag1 Hmag2 Hle) as Hd.
  destruct (round_nearest_even_magnitude _ _ _ _ _ Hm1 Hloc1 Hmag1) as (Hn1 & Hnorm1 & Hsmall1).
  destruct (round_nearest_even_magnitude _ _ _ _ _ Hm2 Hloc2 Hmag2) as (Hn2 & Hnorm2 & _).
  cbv zeta in *.
  set (n1 := round_nearest_even m1 l1) in *. set (n2 := round_nearest_even m2 l2) in *.
  set (g1 := fexp prec emax d1) in *. set (g2 := fexp prec emax d2) in *.
  destruct (Z.eq_dec g1 g2) as [Heq | Hne].
  - rewrite Heq in *. apply F2Q_le. exact (locates_scaled_le _ _ _ _ _ _ _ Hloc1 Hloc2 Hle).
  - assert (g1 < g2 /\ d1 < d2 /\ g2 = d2 - 53) as (Hg & Hd' & Hg2)
      by (subst g1 g2; fexp_lia).
    specialize (Hnorm2 ltac:(lia)).
    apply Qle_trans with (Qpower 2 (d2 - 1)).
    + destruct (Z_le_gt_dec d1 g1) as [Hsub | Hnor].
      * specialize (Hsmall1 Hsub).
        apply Qle_trans with (F2Q 1 g1); [apply F2Q_le; lia|].
        rewrite F2Q_1_power. apply Qpower_2_le. lia.
      * specialize (Hnorm1 ltac:(lia)).
        apply Qle_trans with (F2Q (2 ^ (d1 - g1)) g1); [apply F2Q_le; lia|].
        rewrite F2Q_power by lia. apply Qpower_2_le. lia.
    + apply Qle_trans with (F2Q (2 ^ (d2 - 1 - g2)) g2); [|apply F2Q_le; lia].
      rewrite F2Q_power by lia. apply Qpower_2_le. lia.
Qed.

Lemma rounds_unique (rho v1 v2 : Q) : rounds rho v1 -> rounds rho v2 -> (v1 == v2)%Q.
Proof.
  intros H1 H2. apply Qle_antisym; apply (rounds_mono rho rho); try done; apply Qle_refl.
Qed.

(** A number the format holds rounds to itself. *)
Lemma rounds_representable (m : positive) (e : Z) :
  canonical_mantissa prec emax m e = true ->
  rounds (F2Q (Z.pos m) e) (F2Q (Z.pos m) e).
Proof.
  unfold canonical_mantissa. intros Hc%Z.eqb_eq.
  assert (locates (Z.pos m) e loc_Exact (F2Q (Z.pos m) e)) as Hloc.
  { unfold locates, loc_ok, F2Q. rewrite <- Qmult_assoc, (Qmult_comm (Qpower 2 e)), Qpower_2_opp.
    ring. }
  pose proof (locates_magnitude (Z.pos m) e loc_Exact _ ltac:(lia) Hloc) as Hmag.
  cbn [Zdigits2] in Hmag.
  exists (Z.pos (digits2_pos m) + e), (Z.pos m), loc_Exact.
  rewrite Hc. repeat split; try done; apply Hmag.
Qed.

(** ** The value of a rounded result *)

Lemma magnitude_proper (rho rho' : Q) (d : Z) :
  (rho == rho')%Q -> magnitude rho d -> magnitude rho' d.
Proof. unfold magnitude. by intros ->. Qed.

Lemma locates_proper (m e : Z) (l : location) (rho rho' : Q) :
  (rho == rho')%Q -> locates m e l rho -> locates m e l rho'.
Proof. unfold locates. intros Heq. apply loc_ok_proper. by rewrite Heq. Qed.

Lemma rounds_proper_l (rho rho' v : Q) : (rho == rho')%Q -> rounds rho v -> rounds rho' v.
Proof.
  intros Heq (d & m & l & Hmag & Hm & Hloc & Hv).
  exists d, m, l. split; [by eapply magnitude_proper|].
  split; [done|]. split; [by eapply locates_proper | done].
Qed.

Lemma rounded_val_proper (rho rho' : Q) (w : numval) :
  (rho == rho')%Q -> rounded_val rho w -> rounded_val rho' w.
Proof.
  intros Heq. destruct w as [|[]|v]; cbn; try done.
  - intros (Hpos & v & Hv & Hle). split; [by rewrite <- Heq|].
    exists v. split; [by eapply rounds_proper_l | done].
  - intros [[H0 Hv] | (Hpos & Hr & Hlt)].
    + left. by rewrite <- Heq.
    + right. split; [by rewrite <- Heq|]. split; [by eapply rounds_proper_l | done].
Qed.

Lemma rounded_val_Finv (rho v v' : Q) :
  (v == v')%Q -> rounded_val rho (Finv v) -> rounded_val rho (Finv v').
Proof.
  intros Heq [[H0 Hv] | (Hpos & Hr & Hlt)]; cbn.
  - left. by rewrite <- Heq.
  - right. split; [done|]. split; [by eapply rounds_proper | by rewrite <- Heq].
Qed.

Lemma rounded_val_zero (rho v : Q) : (rho == 0)%Q -> (v == 0)%Q -> rounded_val rho (Finv v).
Proof. intros. by left. Qed.

Lemma signed_rounded_zero (sigma v : Q) :
  (sigma == 0)%Q -> (v == 0)%Q -> signed_rounded sigma (Finv v).
Proof.
  intros Hs Hv. split; intros _; apply rounded_val_zero; try done.
  - by rewrite Hs.
  - by rewrite Hv.
Qed.

(** The rounded value does not decrease with the number: within the
    rationals, and up to +Infinity. *)
Lemma rounded_val_mono (rho1 rho2 : Q) (w1 w2 : numval) :
  (rho1 <= rho2)%Q -> rounded_val rho1 w1 -> rounded_val rho2 w2 -> numval_leP w1 w2.
Proof.
  intros Hle H1 H2.
  destruct w1 as [|[]|v1]; try done; destruct w2 as [|[]|v2]; try done; cbn in *.
  - destruct H1 as (Hpos1 & v1 & Hr1 & Hv1).
    destruct H2 as [[H0 _] | (Hpos2 & Hr2 & Hv2)]; [lra|].
    pose proof (rounds_mono _ _ _ _ Hle Hr1 Hr2). lra.
  - destruct H1 as [[H0 Hv1] | (Hpos1 & Hr1 & Hv1)];
      destruct H2 as [[H0' Hv2] | (Hpos2 & Hr2 & Hv2)].
    + lra.
    + pose proof (rounds_nonneg _ _ Hr2). lra.
    + lra.
    + exact (rounds_mono _ _ _ _ Hle Hr1 Hr2).
Qed.

Lemma rounded_val_nonneg (rho : Q) (w : numval) :
  rounded_val rho w -> numval_leP (Finv 0) w.
Proof.
  destruct w as [|[]|v]; try done; cbn.
  intros [[_ Hv] | (_ & Hr & _)]; [lra | by eapply rounds_nonneg].
Qed.

Lemma numval_leP_opp (a b : numval) :
  numval_leP (numval_opp a) (numval_opp b) -> numval_leP b a.
Proof. destruct a as [|[]|p], b as [|[]|q]; cbn; try done. lra. Qed.

Lemma signed_rounded_mono (sigma1 sigma2 : Q) (w1 w2 : numval) :
  (sigma1 <= sigma2)%Q -> signed_rounded sigma1 w1 -> signed_rounded sigma2 w2 ->
  numval_leP w1 w2.
Proof.
  intros Hle [Hp1 Hn1] [Hp2 Hn2].
  destruct (Qlt_le_dec sigma1 0) as [Hneg1 | Hpos1].
  - destruct (Qlt_le_dec 0 sigma2) as [Hpos2 | Hneg2].
    + specialize (Hn1 ltac:(lra)). specialize (Hp2 ltac:(lra)).
      apply rounded_val_nonneg in Hn1, Hp2.
      apply numval_leP_trans with (Finv 0); [|done].
      apply numval_leP_opp. cbn. by destruct (numval_opp w1) as [|[]|q].
    + apply numval_leP_opp. eapply rounded_val_mono; [|apply Hn2 | apply Hn1]; lra.
  - eapply rounded_val_mono; [exact Hle | apply Hp1 | apply Hp2]; lra.
Qed.

Lemma signed_rounded_proper (sigma sigma' : Q) (w : numval) :
  (sigma == sigma')%Q -> signed_rounded sigma w -> signed_rounded sigma' w.
Proof.
  intros Heq [Hp Hn]. split; intros Hs.
  - apply (rounded_val_proper sigma); [done|]. apply Hp. by rewrite Heq.
  - apply (rounded_val_proper (- sigma)); [by rewrite Heq|]. apply Hn. by rewrite Heq.
Qed.

Lemma magnitude_pos (rho : Q) (d : Z) : magnitude rho d -> (0 < rho)%Q.
Proof. intros [H _]. pose proof (Qpower_2_pos (d - 1)). lra. Qed.

Lemma Qpower_2_emax_pos : (0 < Qpower 2 emax)%Q.
Proof. apply Qpower_2_pos. Qed.

(** The value [binary_round_aux] returns, with its sign. *)
Lemma round_aux_signed (sx : bool) (m e : Z) (l : location) (rho : Q) (d : Z) :
  0 <= m -> locates m e l rho -> magnitude rho d -> e <= fexp prec emax d ->
  signed_rounded (if sx then - rho else rho)
    (sf_val (binary_round_aux prec emax sx m e l)).
Proof.
  intros Hm Hloc Hmag He. pose proof (magnitude_pos _ _ Hmag) as Hpos.
  destruct (round_aux_spec sx m e l rho d Hm Hloc Hmag He) as (v & Hr & Hres).
  pose proof Qpower_2_emax_pos as Hmax.
  destruct (binary_round_aux prec emax sx m e l) as [s|s| |s m2 e2]; [| |done|].
  - destruct Hres as [-> Hv].
    assert (rounded_val rho (Finv 0)) as H0.
    { right. split; [done|]. split; [by apply (rounds_proper rho v)|done]. }
    destruct sx; split; intros Hs; try lra; cbn [sf_val numval_opp].
    + apply (rounded_val_proper rho); [ring|]. by apply (rounded_val_Finv rho 0).
    + done.
  - destruct Hres as [-> Hv].
    assert (rounded_val rho (Infv false)) as H0 by (split; [done|]; by exists v).
    destruct sx; split; intros Hs; try lra; cbn [sf_val numval_opp negb].
    + apply (rounded_val_proper rho); [ring|done].
    + done.
  - destruct Hres as (-> & Hv & Hlt).
    assert (rounded_val rho (Finv (F2Q (Z.pos m2) e2))) as H0.
    { right. split; [done|]. split; [by apply (rounds_proper rho v)|by rewrite Hv]. }
    destruct sx; split; intros Hs; try lra; cbn [sf_val numval_opp].
    + apply (rounded_val_proper rho); [ring|].
      apply (rounded_val_Finv rho (F2Q (Z.pos m2) e2)); [|done]. rewrite F2Q_neg. ring.
    + done.
Qed.

Lemma valid_finite (x : float) (s : bool) (m : positive) (e : Z) :
  Prim2SF x = S754_finite s m e ->
  canonical_mantissa prec emax m e = true /\ e <= emax - prec.
Proof.
  intros Hx. pose proof (Prim2SF_valid x) as Hv. rewrite Hx in Hv.
  cbn in Hv. apply andb_true_iff in Hv as [Hc He]. split; [done|]. by apply Z.leb_le.
Qed.

Lemma canonical_fexp (m : positive) (e : Z) :
  canonical_mantissa prec emax m e = true ->
  fexp prec emax (Z.pos (digits2_pos m) + e) = e.
Proof. unfold canonical_mantissa. by intros ?%Z.eqb_eq. Qed.

Lemma digits2_pos_mul (m n : positive) :
  Z.pos (digits2_pos m) + Z.pos (digits2_pos n) - 1 <= Z.pos (digits2_pos (m * n)).
Proof.
  pose proof (digits2_pos_bounds m) as [Hm _]. pose proof (digits2_pos_bounds n) as [Hn _].
  pose proof (digits2_pos_bounds (m * n)) as [_ Hmn].
  destruct (Z_le_gt_dec (Z.pos (digits2_pos m) + Z.pos (digits2_pos n) - 1)
              (Z.pos (digits2_pos (m * n)))) as [|Hgt]; [done|]. exfalso.
  assert (2 ^ Z.pos (digits2_pos (m * n))
          <= 2 ^ (Z.pos (digits2_pos m) - 1 + (Z.pos (digits2_pos n) - 1))) as Hle
    by (apply Z.pow_le_mono_r; lia).
  rewrite Z.pow_add_r in Hle by lia. rewrite Pos2Z.inj_mul in Hmn. nia.
Qed.

(** The product of two finite doubles is the rounding of the product. *)
Lemma b64_mul_rounded (x y : float) (xq yq : Q) :
  val x = Finv xq -> val y = Finv yq ->
  signed_rounded (xq * yq) (val (x * y)%float).
Proof.
  intros Hx Hy. rewrite b64_val_sf in *. rewrite mul_spec.
  destruct (Prim2SF x) as [sx|sx| |sx mx ex] eqn:Ex; try done;
    destruct (Prim2SF y) as [sy|sy| |sy my ey] eqn:Ey; try done;
    cbn in Hx, Hy; injection Hx as <-; injection Hy as <-;
    try (apply signed_rounded_zero; [ring | reflexivity]).
  destruct (valid_finite x _ _ _ Ex) as [Hcx%canonical_fexp _].
  destruct (valid_finite y _ _ _ Ey) as [Hcy%canonical_fexp _].
  unfold SF64mul, SFmul.
  set (rho := F2Q (Z.pos (mx * my)) (ex + ey)).
  pose proof (locates_exact (Z.pos (mx * my)) (ex + ey)) as Hloc. fold rho in Hloc.
  pose proof (locates_magnitude (Z.pos (mx * my)) _ _ _ ltac:(lia) Hloc) as Hmag.
  cbn [Zdigits2] in Hmag.
  pose proof (digits2_pos_mul mx my) as Hd.
  assert (ex + ey <= fexp prec emax (Z.pos (digits2_pos (mx * my)) + (ex + ey))) as He
    by fexp_lia.
  pose proof (round_aux_signed (xorb sx sy) (Z.pos (mx * my)) _ _ _ _
                ltac:(lia) Hloc Hmag He) as Hr.
  eapply signed_rounded_proper; [|exact Hr].
  unfold rho.
  destruct sx, sy; cbn [xorb]; rewrite Pos2Z.inj_mul, F2Q_mul, ?F2Q_neg; ring.
Qed.

(** Rounding an integer multiple of 2^e. *)
Lemma binary_normalize_rounded (m e : Z) :
  signed_rounded (F2Q m e) (sf_val (binary_normalize prec emax m e false)).
Proof.
  destruct m as [|p|p]; cbn [binary_normalize].
  - apply signed_rounded_zero; [apply F2Q_0 | reflexivity].
  - unfold binary_round.
    pose proof (shl_align_spec p e (fexp prec emax (Z.pos (digits2_pos p) + e))) as Hs.
    destruct (shl_align p e _) as [mz ez]. destruct Hs as [Hez Hmz].
    assert (F2Q (Z.pos mz) ez == F2Q (Z.pos p) e)%Q as Heq
      by (by rewrite Hmz, <- F2Q_unshift by lia).
    pose proof (locates_magnitude (Z.pos p) e loc_Exact _ ltac:(lia) (locates_exact _ _))
      as Hmag. cbn [Zdigits2] in Hmag.
    pose proof (locates_exact (Z.pos mz) ez) as Hloc.
    apply (locates_proper _ _ _ _ _ Heq) in Hloc.
    exact (round_aux_signed false (Z.pos mz) ez loc_Exact _ _ ltac:(lia) Hloc Hmag ltac:(lia)).
  - unfold binary_round.
    pose proof (shl_align_spec p e (fexp prec emax (Z.pos (digits2_pos p) + e))) as Hs.
    destruct (shl_align p e _) as [mz ez]. destruct Hs as [Hez Hmz].
    assert (F2Q (Z.pos mz) ez == F2Q (Z.pos p) e)%Q as Heq
      by (by rewrite Hmz, <- F2Q_unshift by lia).
    pose proof (locates_magnitude (Z.pos p) e loc_Exact _ ltac:(lia) (locates_exact _ _))
      as Hmag. cbn [Zdigits2] in Hmag.
    pose proof (locates_exact (Z.pos mz) ez) as Hloc.
    apply (locates_proper _ _ _ _ _ Heq) in Hloc.
    pose proof (round_aux_signed true (Z.pos mz) ez loc_Exact _ _ ltac:(lia) Hloc Hmag
                  ltac:(lia)) as Hr.
    eapply signed_rounded_proper; [|exact Hr]. by rewrite F2Q_neg.
Qed.

(** A finite double is the rounding of its own value. *)
Lemma finite_signed_rounded (x : float) (q : Q) :
  val x = Finv q -> signed_rounded q (Finv q).
Proof.
  rewrite b64_val_sf. intros Hx.
  destruct (Prim2SF x) as [s|s| |s m e] eqn:Ex; try done; cbn in Hx; injection Hx as <-.
  - by apply signed_rounded_zero.
  - destruct (valid_finite x _ _ _ Ex) as [Hc He].
    pose proof (rounds_representable m e Hc) as Hr. apply canonical_fexp in Hc.
    assert (F2Q (Z.pos m) e < Qpower 2 emax)%Q as Hlt.
    { pose proof (digits2_pos_bounds m) as [_ Hm].
      apply Qlt_le_trans with (F2Q (2 ^ Z.pos (digits2_pos m)) e); [by apply F2Q_lt|].
      rewrite F2Q_power by lia. apply Qpower_2_le. fexp_lia. }
    pose proof (F2Q_pos m e) as Hpos.
    assert (rounded_val (F2Q (Z.pos m) e) (Finv (F2Q (Z.pos m) e))) as H0
      by (right; done).
    destruct s; split; intros Hs; cbn [numval_opp].
    + rewrite F2Q_neg in Hs. lra.
    + apply (rounded_val_proper (F2Q (Z.pos m) e)); [rewrite F2Q_neg; ring|].
      apply (rounded_val_Finv _ (F2Q (Z.pos m) e)); [rewrite F2Q_neg; ring | done].
    + done.
    + lra.
Qed.

Lemma signed_rounded_opp (sigma q : Q) :
  signed_rounded sigma (Finv q) -> signed_rounded (- sigma) (Finv (- q)).
Proof.
  intros [Hp Hn]. split; intros Hs; cbn [numval_opp] in *.
  - apply Hn. lra.
  - apply (rounded_val_proper sigma); [ring|].
    apply (rounded_val_Finv _ q); [ring|]. apply Hp. lra.
Qed.

Lemma aligned_values (sx sy : bool) (mx my : positive) (ex ey : Z) :
  let ez := Z.min ex ey in
  (F2Q (cond_Zopp sx (Z.pos (shl_align mx ex ez).1)) ez
   == F2Q (if sx then Z.neg mx else Z.pos mx) ex)%Q
  /\ (F2Q (cond_Zopp sy (Z.pos (shl_align my ey ez).1)) ez
      == F2Q (if sy then Z.neg my else Z.pos my) ey)%Q.
Proof.
  cbv zeta.
  pose proof (shl_align_spec mx ex (Z.min ex ey)) as Hsx.
  pose proof (shl_align_spec my ey (Z.min ex ey)) as Hsy.
  destruct (shl_align mx ex (Z.min ex ey)) as [mx' ex'].
  destruct (shl_align my ey (Z.min ex ey)) as [my' ey'].
  destruct Hsx as [Hex' Hmx']. destruct Hsy as [Hey' Hmy']. cbn [fst].
  assert (ex' = Z.min ex ey) as -> by lia. assert (ey' = Z.min ex ey) as -> by lia.
  split.
  - rewrite (F2Q_unshift _ (Z.min ex ey) ex) by lia. rewrite Hmx'.
    destruct sx; cbn [cond_Zopp]; [|done].
    change (Z.neg mx) with (- Z.pos mx). by rewrite Z.mul_opp_l.
  - rewrite (F2Q_unshift _ (Z.min ex ey) ey) by lia. rewrite Hmy'.
    destruct sy; cbn [cond_Zopp]; [|done].
    change (Z.neg my) with (- Z.pos my). by rewrite Z.mul_opp_l.
Qed.

Lemma F2Q_add (m n e : Z) : (F2Q (m + n) e == F2Q m e + F2Q n e)%Q.
Proof. unfold F2Q. rewrite inject_Z_plus. ring. Qed.

(** The difference of two finite doubles is the rounding of the
    difference. *)
Lemma b64_sub_rounded (x y : float) (xq yq : Q) :
  val x = Finv xq -> val y = Finv yq ->
  signed_rounded (xq - yq) (val (x - y)%float).
Proof.
  intros Hx Hy. pose proof (finite_signed_rounded x xq Hx) as Hrx.
  pose proof (finite_signed_rounded y yq Hy) as Hry.
  rewrite b64_val_sf in *. rewrite sub_spec.
  destruct (Prim2SF x) as [sx|sx| |sx mx ex] eqn:Ex; try done;
    destruct (Prim2SF y) as [sy|sy| |sy my ey] eqn:Ey; try done;
    cbn in Hx, Hy; injection Hx as <-; injection Hy as <-.
  - apply (signed_rounded_proper 0); [ring|].
    destruct sx, sy; by apply signed_rounded_zero.
  - apply signed_rounded_opp in Hry.
    apply (signed_rounded_proper (- F2Q (if sy then Z.neg my else Z.pos my) ey)); [ring|].
    destruct sy; cbn [SF64sub SFsub negb sf_val].
    + split; intros Hs; [apply (rounded_val_Finv _ (- F2Q (Z.neg my) ey));
        [rewrite F2Q_neg; ring | by apply Hry]|].
      cbn [numval_opp]. apply (rounded_val_Finv _ (- - F2Q (Z.neg my) ey));
        [rewrite F2Q_neg; ring | by apply Hry].
    + split; intros Hs; [apply (rounded_val_Finv _ (- F2Q (Z.pos my) ey));
        [rewrite F2Q_neg; ring | by apply Hry]|].
      cbn [numval_opp]. apply (rounded_val_Finv _ (- - F2Q (Z.pos my) ey));
        [rewrite F2Q_neg; ring | by apply Hry].
  - apply (signed_rounded_proper (F2Q (if sx then Z.neg mx else Z.pos mx) ex)); [ring|].
    exact Hrx.
  - unfold SF64sub, SFsub. cbv zeta.
    destruct (aligned_values sx sy mx my ex ey) as [HX HY]. cbv zeta in HX, HY.
    eapply signed_rounded_proper; [|apply binary_normalize_rounded].
    by rewrite F2Q_sub, HX, HY.
Qed.

Lemma b64_add_rounded (x y : float) (xq yq : Q) :
  val x = Finv xq -> val y = Finv yq ->
  signed_rounded (xq + yq) (val (x + y)%float).
Proof.
  intros Hx Hy. pose proof (finite_signed_rounded x xq Hx) as Hrx.
  pose proof (finite_signed_rounded y yq Hy) as Hry.
  rewrite b64_val_sf in *. rewrite add_spec.
  destruct (Prim2SF x) as [sx|sx| |sx mx ex] eqn:Ex; try done;
    destruct (Prim2SF y) as [sy|sy| |sy my ey] eqn:Ey; try done;
    cbn in Hx, Hy; injection Hx as <-; injection Hy as <-.
  - apply (signed_rounded_proper 0); [ring|].
    destruct sx, sy; by apply signed_rounded_zero.
  - apply (signed_rounded_proper (F2Q (if sy then Z.neg my else Z.pos my) ey)); [ring|].
    exact Hry.
  - apply (signed_rounded_proper (F2Q (if sx then Z.neg mx else Z.pos mx) ex)); [ring|].
    exact Hrx.
  - unfold SF64add, SFadd. cbv zeta.
    destruct (aligned_values sx sy mx my ex ey) as [HX HY]. cbv zeta in HX, HY.
    eapply signed_rounded_proper; [|apply binary_normalize_rounded].
    by rewrite F2Q_add, HX, HY.
Qed.

(** ** Division *)

Lemma new_location_exact (n : Z) : new_location n 0 = loc_Exact.
Proof. unfold new_location. by destruct (Z.even n). Qed.

Lemma new_location_inexact (n r : Z) :
  r <> 0 -> new_location n r = loc_Inexact (2 * r ?= n).
Proof.
  intros Hr%Z.eqb_neq. unfold new_location, new_location_even, new_location_odd.
  destruct (Z.even n) eqn:Heven; rewrite Hr; [done|]. f_equal.
  assert (2 * r <> n) as Hodd
    by (intros <-; rewrite Z.even_mul in Heven; cbn in Heven; discriminate).
  destruct (Z.compare_spec (2 * r + 1) n) as [H | H | H];
    destruct (Z.compare_spec (2 * r) n) as [H' | H' | H']; try lia; done.
Qed.

Lemma new_location_ok (n q r : Z) (x : Q) :
  0 < n -> 0 <= r < n -> (x * inject_Z n == inject_Z (n * q + r))%Q ->
  loc_ok q (new_location n r) x.
Proof.
  intros Hn Hr Hx. rewrite inject_Z_plus, inject_Z_mult in Hx.
  assert (0 < inject_Z n)%Q as HN by (change 0%Q with (inject_Z 0); by apply inject_Z_lt).
  assert (0 <= inject_Z r)%Q as HR0
    by (change 0%Q with (inject_Z 0); apply inject_Z_le; lia).
  assert (inject_Z r < inject_Z n)%Q as HRN by (apply inject_Z_lt; lia).
  destruct (Z.eq_dec r 0) as [-> | Hr0].
  - rewrite new_location_exact. cbn. change (inject_Z 0) with 0%Q in Hx.
    revert Hx HN. generalize (inject_Z n) (inject_Z q). intros N Qv Hx HN.
    apply (Qmult_inj_r _ _ N); [lra|]. rewrite Hx. ring.
  - rewrite (new_location_inexact n r Hr0).
    assert (0 < inject_Z r)%Q as HRpos
      by (change 0%Q with (inject_Z 0); apply inject_Z_lt; lia).
    assert (match 2 * r ?= n with
            | Lt => (2 * inject_Z r < inject_Z n)%Q
            | Eq => (2 * inject_Z r == inject_Z n)%Q
            | Gt => (inject_Z n < 2 * inject_Z r)%Q
            end) as Hcmp.
    { change 2%Q with (inject_Z 2). rewrite <- inject_Z_mult.
      destruct (Z.compare_spec (2 * r) n) as [-> | H | H];
        [done | by apply inject_Z_lt | by apply inject_Z_lt]. }
    cbn. clear Hr Hn Hr0.
    revert Hx HN HR0 HRN HRpos Hcmp. generalize (inject_Z n) (inject_Z q) (inject_Z r).
    intros N Qv R Hx HN HR0 HRN HRpos Hcmp.
    assert (x == Qv + R / N)%Q as ->
      by (apply (Qmult_inj_r _ _ N); [lra|]; rewrite Hx; field; lra).
    assert (0 < R / N)%Q as Hpos by (apply Qlt_shift_div_l; lra).
    assert (R / N < 1)%Q as Hlt1 by (apply Qlt_shift_div_r; lra).
    split; [lra|]. split; [lra|].
    destruct (2 * r ?= n); rewrite <- ?Qlt_alt, ?Qcompare_Gt_iff, ?Qcompare_Eq_iff.
    + assert (R / N == 1 # 2)%Q as -> by (rewrite <- Hcmp; field; lra). lra.
    + assert (R / N < 1 # 2)%Q by (apply Qlt_shift_div_r; lra). lra.
    + assert ((1 # 2) < R / N)%Q by (apply Qlt_shift_div_l; lra). lra.
Qed.

Lemma magnitude_F2Q (m : positive) (e : Z) :
  magnitude (F2Q (Z.pos m) e) (Z.pos (digits2_pos m) + e).
Proof.
  exact (locates_magnitude (Z.pos m) e loc_Exact _ ltac:(lia) (locates_exact _ _)).
Qed.

(** The magnitude of a quotient. *)
Lemma magnitude_div (x y : Q) (a b : Z) :
  magnitude x a -> magnitude y b ->
  exists d, magnitude (x / y) d /\ a - b <= d.
Proof.
  intros [Hx1 Hx2] [Hy1 Hy2].
  pose proof (Qpower_2_pos (b - 1)) as Hb1. pose proof (Qpower_2_pos b) as Hb.
  assert (0 < y)%Q as Hy by lra.
  assert (x == x / y * y)%Q as Hxy by (field; lra).
  assert (Qpower 2 (a - b - 1) < x / y)%Q as Hlow.
  { assert (Qpower 2 (a - 1) == Qpower 2 (a - b - 1) * Qpower 2 b)%Q as Hp
      by (rewrite <- Qpower_2_add; by replace (a - b - 1 + b) with (a - 1) by lia).
    pose proof (Qpower_2_pos (a - b - 1)) as HC.
    revert Hxy Hp Hx1 Hy2 Hb Hy HC. generalize (x / y)%Q (Qpower 2 (a - 1)) (Qpower 2 b)
      (Qpower 2 (a - b - 1)). intros t A B C Hxy Hp Hx1 Hy2 HB Hy HC.
    destruct (Qlt_le_dec C t) as [|Hle]; [done|]. exfalso.
    assert (t * y <= C * y)%Q by nra. assert (C * y < C * B)%Q by nra. lra. }
  assert (x / y < Qpower 2 (a - b + 1))%Q as Hhigh.
  { assert (Qpower 2 a == Qpower 2 (a - b + 1) * Qpower 2 (b - 1))%Q as Hp
      by (rewrite <- Qpower_2_add; by replace (a - b + 1 + (b - 1)) with a by lia).
    pose proof (Qpower_2_pos (a - b + 1)).
    revert Hxy Hp Hx2 Hy1 Hb1 Hy H. generalize (x / y)%Q (Qpower 2 a) (Qpower 2 (b - 1))
      (Qpower 2 (a - b + 1)). intros t A B C Hxy Hp Hx2 Hy1 HB Hy HC.
    destruct (Qlt_le_dec t C) as [|Hle]; [done|]. exfalso.
    assert (C * y <= t * y)%Q by nra. assert (C * B <= C * y)%Q by nra. lra. }
  destruct (Qlt_le_dec (x / y) (Qpower 2 (a - b))) as [Hlt | Hge].
  - exists (a - b). split; [|lia]. split; [|done].
    replace (a - b - 1) with (a - b - 1) by lia. lra.
  - exists (a - b + 1). split; [|lia]. split; [|done].
    by replace (a - b + 1 - 1) with (a - b) by lia.
Qed.

Lemma SFdiv_core_spec (mx my : positive) (ex ey : Z) :
  let '(q, e', l) := SFdiv_core_binary prec emax (Z.pos mx) ex (Z.pos my) ey in
  let rho := (F2Q (Z.pos mx) ex / F2Q (Z.pos my) ey)%Q in
  0 <= q /\ locates q e' l rho /\ exists d, magnitude rho d /\ e' <= fexp prec emax d.
Proof.
  unfold SFdiv_core_binary. cbn [Zdigits2].
  set (d1 := Z.pos (digits2_pos mx)). set (d2 := Z.pos (digits2_pos my)).
  set (e' := Z.min (fexp prec emax (d1 + ex - (d2 + ey))) (ex - ey)).
  set (s := ex - ey - e').
  assert (0 <= s) as Hs by (unfold s, e'; lia).
  set (m' := match s with 0 => Z.pos mx | Z.pos _ => Z.shiftl (Z.pos mx) s | Z.neg _ => 0 end).
  assert (m' = Z.pos mx * 2 ^ s) as Hm'.
  { unfold m'. destruct s as [|p|p] eqn:Es; [lia | | lia].
    by rewrite Z.shiftl_mul_pow2. }
  pose proof (Z_div_mod m' (Z.pos my) ltac:(lia)) as Hdiv.
  destruct (Z.div_eucl m' (Z.pos my)) as [q r]. destruct Hdiv as [Hqr Hr].
  cbv zeta. set (rho := (F2Q (Z.pos mx) ex / F2Q (Z.pos my) ey)%Q).
  assert (0 <= m') as Hm'pos by (rewrite Hm'; apply Z.mul_nonneg_nonneg; lia).
  assert (0 <= q) as Hq by nia.
  split; [done|]. split.
  - unfold locates. apply (new_location_ok (Z.pos my) q r); [lia | done|].
    rewrite <- Hqr, Hm', inject_Z_mult, <- (Qpower_2_Z s) by done.
    unfold rho, F2Q, s.
    replace (ex - ey - e') with (ex + - ey + - e') by lia. rewrite !Qpower_2_add.
    pose proof (Qpower_2_opp ey) as Hinv. pose proof (Qpower_2_pos ey).
    assert (0 < inject_Z (Z.pos my))%Q
      by (change 0%Q with (inject_Z 0); apply inject_Z_lt; lia).
    revert Hinv H H0. generalize (Qpower 2 ey) (Qpower 2 (- ey)) (Qpower 2 ex)
      (Qpower 2 (- e')) (inject_Z (Z.pos my)) (inject_Z (Z.pos mx)).
    intros B B' A C' My Mx Hinv HB HMy.
    assert (B' == / B)%Q as -> by (apply (Qmult_inj_r _ _ B); [lra|]; rewrite Hinv; field; lra).
    field. lra.
  - destruct (magnitude_div _ _ _ _ (magnitude_F2Q mx ex) (magnitude_F2Q my ey))
      as (d & Hmag & Hd).
    exists d. split; [done|]. fold d1 d2 in Hd.
    pose proof (fexp_mono (d1 + ex - (d2 + ey)) d ltac:(lia)). unfold e'. lia.
Qed.

(** The quotient of a finite double by a finite double other than zero
    is the rounding of the quotient. *)
Lemma b64_div_rounded (x y : float) (xq yq : Q) :
  val x = Finv xq -> val y = Finv yq -> ~ (yq == 0)%Q ->
  signed_rounded (xq / yq) (val (x / y)%float).
Proof.
  intros Hx Hy Hy0. rewrite b64_val_sf in *. rewrite div_spec.
  destruct (Prim2SF x) as [sx|sx| |sx mx ex] eqn:Ex; try done;
    destruct (Prim2SF y) as [sy|sy| |sy my ey] eqn:Ey; try done;
    cbn in Hx, Hy; injection Hx as <-; injection Hy as <-.
  - exfalso. by apply Hy0.
  - apply signed_rounded_zero; [|reflexivity]. field. done.
  - exfalso. by apply Hy0.
  - unfold SF64div, SFdiv.
    pose proof (SFdiv_core_spec mx my ex ey) as Hcore.
    destruct (SFdiv_core_binary prec emax (Z.pos mx) ex (Z.pos my) ey) as [[q e'] l].
    cbv zeta in Hcore. destruct Hcore as (Hq & Hloc & d & Hmag & He).
    pose proof (round_aux_signed (xorb sx sy) q e' l _ d Hq Hloc Hmag He) as Hr.
    eapply signed_rounded_proper; [|exact Hr].
    pose proof (F2Q_pos my ey).
    destruct sx, sy; cbn [xorb]; rewrite ?F2Q_neg; field; lra.
Qed.

(** ** Order between the results of the operations *)

Lemma b64_sub_mono_l (x1 x2 y : float) (a1 a2 b : Q) :
  val x1 = Finv a1 -> val x2 = Finv a2 -> val y = Finv b -> (a1 <= a2)%Q ->
  numval_leP (val (x1 - y)%float) (val (x2 - y)%float).
Proof.
  intros H1 H2 Hy Hle.
  apply (signed_rounded_mono (a1 - b) (a2 - b)); [lra|by apply b64_sub_rounded..].
Qed.

Lemma b64_sub_mono_r (x y1 y2 : float) (a b1 b2 : Q) :
  val x = Finv a -> val y1 = Finv b1 -> val y2 = Finv b2 -> (b1 <= b2)%Q ->
  numval_leP (val (x - y2)%float) (val (x - y1)%float).
Proof.
  intros Hx H1 H2 Hle.
  apply (signed_rounded_mono (a - b2) (a - b1)); [lra|by apply b64_sub_rounded..].
Qed.

Lemma b64_add_mono_r (x y1 y2 : float) (a b1 b2 : Q) :
  val x = Finv a -> val y1 = Finv b1 -> val y2 = Finv b2 -> (b1 <= b2)%Q ->
  numval_leP (val (x + y1)%float) (val (x + y2)%float).
Proof.
  intros Hx H1 H2 Hle.
  apply (signed_rounded_mono (a + b1) (a + b2)); [lra|by apply b64_add_rounded..].
Qed.

Lemma b64_mul_mono_r (x y1 y2 : float) (a b1 b2 : Q) :
  val x = Finv a -> val y1 = Finv b1 -> val y2 = Finv b2 -> (0 <= a)%Q -> (b1 <= b2)%Q ->
  numval_leP (val (x * y1)%float) (val (x * y2)%float).
Proof.
  intros Hx H1 H2 Ha Hle.
  apply (signed_rounded_mono (a * b1) (a * b2)); [nra|by apply b64_mul_rounded..].
Qed.

Lemma b64_mul_mono_l (x1 x2 y : float) (a1 a2 b : Q) :
  val x1 = Finv a1 -> val x2 = Finv a2 -> val y = Finv b -> (0 <= b)%Q -> (a1 <= a2)%Q ->
  numval_leP (val (x1 * y)%float) (val (x2 * y)%float).
Proof.
  intros H1 H2 Hy Hb Hle.
  apply (signed_rounded_mono (a1 * b) (a2 * b)); [nra|by apply b64_mul_rounded..].
Qed.

Lemma b64_div_mono_l (x1 x2 d : float) (a1 a2 dq : Q) :
  val x1 = Finv a1 -> val x2 = Finv a2 -> val d = Finv dq -> (0 < dq)%Q -> (a1 <= a2)%Q ->
  numval_leP (val (x1 / d)%float) (val (x2 / d)%float).
Proof.
  intros H1 H2 Hd Hpos Hle.
  apply (signed_rounded_mono (a1 / dq) (a2 / dq));
    [|apply b64_div_rounded; try done; lra..].
  unfold Qdiv. apply Qmult_le_compat_r; [done|]. apply Qlt_le_weak, Qinv_lt_0_compat. done.
Qed.

(** A result between two doubles is finite. *)
Lemma signed_rounded_bounded (sigma : Q) (w : numval) (b : float) (bq : Q) :
  signed_rounded sigma w -> val b = Finv bq -> (Qabs sigma <= bq)%Q ->
  exists r, w = Finv r /\ (Qabs r <= bq)%Q
            /\ ((0 <= sigma)%Q -> (0 <= r)%Q) /\ ((sigma <= 0)%Q -> (r <= 0)%Q).
Proof.
  intros [Hp Hn] Hb Habs. pose proof (Qabs_nonneg sigma) as Hnn.
  destruct (finite_signed_rounded b bq Hb) as [Hbp _]. specialize (Hbp ltac:(lra)).
  apply Qabs_Qle_condition in Habs.
  destruct (Qlt_le_dec sigma 0) as [Hneg | Hpos].
  - specialize (Hn ltac:(lra)).
    pose proof (rounded_val_mono (- sigma) bq _ _ ltac:(lra) Hn Hbp) as Hle.
    pose proof (rounded_val_nonneg _ _ Hn) as H0.
    destruct w as [|[]|r]; cbn in *; try done.
    exists r. split; [done|]. split; [apply Qabs_Qle_condition; lra|]. split; intros; lra.
  - specialize (Hp Hpos).
    pose proof (rounded_val_mono sigma bq _ _ ltac:(lra) Hp Hbp) as Hle.
    pose proof (rounded_val_nonneg _ _ Hp) as H0.
    destruct w as [|[]|r]; cbn in *; try done.
    exists r. split; [done|]. split; [apply Qabs_Qle_condition; lra|]. split; intros; lra.
Qed.

Lemma signed_rounded_not_NaN (sigma : Q) (w : numval) : signed_rounded sigma w -> w <> NaNv.
Proof.
  intros [Hp Hn] ->. destruct (Qlt_le_dec sigma 0); [apply Hn | apply Hp]; lra.
Qed.

(** ** The channels on doubles *)

Lemma Qabs_le_nonneg (x b : Q) : (0 <= x <= b)%Q -> (Qabs x <= b)%Q.
Proof. intros H. apply Qabs_Qle_condition. lra. Qed.

Lemma b64_scale (w : float) (wq : Q) :
  val w = Finv wq -> (0 <= wq <= 1)%Q ->
  exists r, val (lit 255 * w)%js = Finv r /\ (0 <= r <= 255)%Q.
Proof.
  intros Hw Hwq. destruct b64_lit_255 as (c & Hc & Hcq).
  destruct (signed_rounded_bounded _ _ (lit 255) c (b64_mul_rounded _ _ _ _ Hc Hw) Hc)
    as (r & Hr & Habs & Hpos & _).
  - apply Qabs_le_nonneg. nra.
  - exists r. split; [exact Hr|]. apply Qabs_Qle_condition in Habs.
    split; [apply Hpos; nra | lra].
Qed.

Lemma b64_complement (w : float) (wq : Q) :
  val w = Finv wq -> (0 <= wq <= 1)%Q ->
  exists r, val (lit 1 - w)%js = Finv r /\ (0 <= r <= 1)%Q.
Proof.
  intros Hw Hwq. destruct b64_lit_1 as (c & Hc & Hcq).
  destruct (signed_rounded_bounded _ _ (lit 1) c (b64_sub_rounded _ _ _ _ Hc Hw) Hc)
    as (r & Hr & Habs & Hpos & _).
  - apply Qabs_le_nonneg. lra.
  - exists r. split; [exact Hr|]. apply Qabs_Qle_condition in Habs.
    split; [apply Hpos; lra | lra].
Qed.

(** The distance to the middle, doubled: |s - 0.5| * 2. *)
Lemma b64_fold (s : float) (sq : Q) :
  val s = Finv sq -> (0 <= sq <= 1)%Q ->
  exists d r, val (s - lit_half)%js = Finv d /\ (Qabs d <= 1 # 2)%Q
              /\ ((1 # 2 <= sq)%Q -> (0 <= d)%Q) /\ ((sq <= 1 # 2)%Q -> (d <= 0)%Q)
              /\ val (Math_abs (s - lit_half) * lit 2)%js = Finv r /\ (0 <= r <= 1)%Q.
Proof.
  intros Hs Hsq. destruct b64_lit_half as (ch & Hc & Hch).
  destruct b64_lit_2 as (c2 & Hc2 & Hc2q). destruct b64_lit_1 as (c1 & Hc1 & Hc1q).
  destruct (signed_rounded_bounded _ _ lit_half ch (b64_sub_rounded _ _ _ _ Hs Hc) Hc)
    as (d & Hd & Habs & Hpos & Hneg).
  { apply Qabs_Qle_condition. lra. }
  destruct (b64_abs_val _ _ Hd) as (a & Ha & Haq).
  pose proof (Qabs_nonneg d) as Hnn.
  destruct (signed_rounded_bounded _ _ (lit 1) c1 (b64_mul_rounded _ _ _ _ Ha Hc2) Hc1)
    as (r & Hr & Habsr & Hposr & _).
  { apply Qabs_le_nonneg. rewrite Haq. nra. }
  exists d, r. split; [exact Hd|]. split; [lra|].
  split; [intros; apply Hpos; lra|]. split; [intros; apply Hneg; lra|].
  split; [exact Hr|]. apply Qabs_Qle_condition in Habsr.
  split; [apply Hposr; rewrite Haq; nra | lra].
Qed.

Lemma b64_scale_mono (w1 w2 : float) (q1 q2 : Q) :
  val w1 = Finv q1 -> val w2 = Finv q2 -> (0 <= q1 <= q2)%Q -> (q2 <= 1)%Q ->
  integral_le (Math_round (lit 255 * w1)%js) (Math_round (lit 255 * w2)%js).
Proof.
  intros H1 H2 Hq Hq2.
  destruct (b64_scale w1 q1 H1 ltac:(lra)) as (r1 & Hr1 & _).
  destruct (b64_scale w2 q2 H2 ltac:(lra)) as (r2 & Hr2 & _).
  destruct b64_lit_255 as (c & Hc & Hcq).
  pose proof (b64_mul_mono_r (lit 255) w1 w2 c q1 q2 Hc H1 H2 ltac:(lra) ltac:(lra)) as Hm.
  cbn [num_mul binary64] in Hr1, Hr2. rewrite Hr1, Hr2 in Hm.
  unfold Math_round. cbn [num_mul binary64]. rewrite Hr1, Hr2. cbn. by apply chan_mono.
Qed.

Lemma b64_complement_anti (w1 w2 : float) (q1 q2 : Q) :
  val w1 = Finv q1 -> val w2 = Finv q2 -> (0 <= q1 <= q2)%Q -> (q2 <= 1)%Q ->
  exists r1 r2, val (lit 1 - w1)%js = Finv r1 /\ val (lit 1 - w2)%js = Finv r2
                /\ (0 <= r2 <= r1)%Q /\ (r1 <= 1)%Q.
Proof.
  intros H1 H2 Hq Hq2.
  destruct (b64_complement w1 q1 H1 ltac:(lra)) as (r1 & Hr1 & Hr1q).
  destruct (b64_complement w2 q2 H2 ltac:(lra)) as (r2 & Hr2 & Hr2q).
  destruct b64_lit_1 as (c & Hc & Hcq).
  pose proof (b64_sub_mono_r (lit 1) w1 w2 c q1 q2 Hc H1 H2 ltac:(lra)) as Hm.
  cbn [num_sub binary64] in Hr1, Hr2. rewrite Hr1, Hr2 in Hm.
  exists r1, r2. repeat split; try done; lra.
Qed.

Lemma b64_fold_order (s1 s2 : float) (q1 q2 : Q) :
  val s1 = Finv q1 -> val s2 = Finv q2 -> (0 <= q1 <= q2)%Q -> (q2 <= 1)%Q ->
  exists u1 u2,
    val (Math_abs (s1 - lit_half) * lit 2)%js = Finv u1
    /\ val (Math_abs (s2 - lit_half) * lit 2)%js = Finv u2
    /\ (0 <= u1 <= 1)%Q /\ (0 <= u2 <= 1)%Q
    /\ ((q2 <= 1 # 2)%Q -> (u2 <= u1)%Q) /\ ((1 # 2 <= q1)%Q -> (u1 <= u2)%Q).
Proof.
  intros H1 H2 Hq Hq2.
  destruct (b64_fold s1 q1 H1 ltac:(lra)) as (d1 & u1 & Hd1 & _ & Hp1 & Hn1 & Hu1 & Hu1q).
  destruct (b64_fold s2 q2 H2 ltac:(lra)) as (d2 & u2 & Hd2 & _ & Hp2 & Hn2 & Hu2 & Hu2q).
  destruct b64_lit_half as (ch & Hc & Hch). destruct b64_lit_2 as (c2 & Hc2 & Hc2q).
  pose proof (b64_sub_mono_l s1 s2 lit_half q1 q2 ch H1 H2 Hc ltac:(lra)) as Hd.
  cbn [num_sub num_mul Math_abs binary64] in *. rewrite Hd1, Hd2 in Hd. cbn in Hd.
  destruct (b64_abs_val _ _ Hd1) as (a1 & Ha1 & Ha1q).
  destruct (b64_abs_val _ _ Hd2) as (a2 & Ha2 & Ha2q).
  exists u1, u2. split; [done|]. split; [done|]. split; [done|]. split; [done|]. split.
  - intros Hlow. specialize (Hn1 ltac:(lra)). specialize (Hn2 Hlow).
    rewrite Qabs_neg in Ha1q, Ha2q by done.
    pose proof (b64_mul_mono_l _ _ (lit 2) a2 a1 c2 Ha2 Ha1 Hc2 ltac:(lra) ltac:(lra)) as Hm.
    by rewrite Hu1, Hu2 in Hm.
  - intros Hhigh. specialize (Hp1 Hhigh). specialize (Hp2 ltac:(lra)).
    rewrite Qabs_pos in Ha1q, Ha2q by done.
    pose proof (b64_mul_mono_l _ _ (lit 2) a1 a2 c2 Ha1 Ha2 Hc2 ltac:(lra) ltac:(lra)) as Hm.
    by rewrite Hu1, Hu2 in Hm.
Qed.

Lemma b64_Temp_channels_mono (s1 s2 : float) (q1 q2 : Q) :
  val s1 = Finv q1 -> val s2 = Finv q2 -> (0 <= q1 <= q2)%Q -> (q2 <= 1)%Q ->
  integral_le (red (Temp.channels s1)) (red (Temp.channels s2))
  /\ integral_le (blue (Temp.channels s2)) (blue (Temp.channels s1))
  /\ ((q2 <= 1 # 2)%Q ->
      integral_le (green (Temp.channels s1)) (green (Temp.channels s2)))
  /\ ((1 # 2 <= q1)%Q ->
      integral_le (green (Temp.channels s2)) (green (Temp.channels s1))).
Proof.
  intros H1 H2 Hq Hq2. unfold Temp.channels, red, green, blue. cbn [fst snd].
  destruct (b64_complement_anti s1 s2 q1 q2 H1 H2 Hq Hq2) as (r1 & r2 & Hr1 & Hr2 & Hr & Hr1q).
  destruct (b64_fold_order s1 s2 q1 q2 H1 H2 Hq Hq2)
    as (u1 & u2 & Hu1 & Hu2 & Hu1q & Hu2q & Hlow & Hhigh).
  split; [by apply (b64_scale_mono s1 s2 q1 q2)|].
  split; [by apply (b64_scale_mono _ _ r2 r1)|]. split.
  - intros Hl. specialize (Hlow Hl).
    destruct (b64_complement_anti _ _ u2 u1 Hu2 Hu1 ltac:(lra) ltac:(lra))
      as (g2 & g1 & Hg2 & Hg1 & Hg & Hgq).
    apply (b64_scale_mono _ _ g1 g2); try done; lra.
  - intros Hh. specialize (Hhigh Hh).
    destruct (b64_complement_anti _ _ u1 u2 Hu1 Hu2 ltac:(lra) ltac:(lra))
      as (g1 & g2 & Hg1 & Hg2 & Hg & Hgq).
    apply (b64_scale_mono _ _ g2 g1); try done; lra.
Qed.

Lemma b64_Precip_channels_mono (s1 s2 : float) (q1 q2 : Q) :
  val s1 = Finv q1 -> val s2 = Finv q2 -> (0 <= q1 <= q2)%Q -> (q2 <= 1)%Q ->
  integral_le (red (Precip.channels s2)) (red (Precip.channels s1))
  /\ integral_le (green (Precip.channels s2)) (green (Precip.channels s1))
  /\ blue (Precip.channels s1) = blue (Precip.channels s2).
Proof.
  intros H1 H2 Hq Hq2. unfold Precip.channels, red, green, blue. cbn [fst snd].
  destruct (b64_complement_anti s1 s2 q1 q2 H1 H2 Hq Hq2) as (r1 & r2 & Hr1 & Hr2 & Hr & Hr1q).
  split; [by apply (b64_scale_mono _ _ r2 r1)|].
  split; [by apply (b64_scale_mono _ _ r2 r1) | done].
Qed.

(** ** The color mappers on doubles are monotone *)

Lemma b64_finite_val (x : float) : isFinite x = true -> exists q, val x = Finv q.
Proof. unfold isFinite. destruct (val x) as [| |q]; try done. by exists q. Qed.

Lemma b64_sub_finite (x y : float) :
  isFinite (x - y)%js = true -> isFinite x = true /\ isFinite y = true.
Proof.
  unfold isFinite. cbn [num_sub binary64]. rewrite !b64_val_sf, sub_spec.
  destruct (Prim2SF x) as [sx|sx| |sx mx ex]; try done;
    destruct (Prim2SF y) as [sy|sy| |sy my ey]; try done;
    cbn; destruct sx, sy; done.
Qed.

Lemma b64_sub_finite_l (x y : float) :
  isFinite (x - y)%js = true -> isFinite y = true -> isFinite x = true.
Proof.
  unfold isFinite. cbn [num_sub binary64]. rewrite !b64_val_sf, sub_spec.
  destruct (Prim2SF x) as [sx|sx| |sx mx ex]; try done.
  by destruct (Prim2SF y) as [sy|sy| |sy my ey].
Qed.

(** The denominator of the normalisation is a positive rational. *)
Lemma b64_denominator_pos (min max : float) (mq Mq : Q) :
  val min = Finv mq -> val max = Finv Mq -> (mq <= Mq)%Q ->
  isFinite (max - min)%js = true ->
  exists dq dd, val (max - min)%js = Finv dq /\ (0 <= dq)%Q
                /\ val (or_else (max - min) (lit 1))%js = Finv dd /\ (0 < dd)%Q.
Proof.
  intros Hmin Hmax Hle Hfin. destruct (b64_finite_val _ Hfin) as (dq & Hd).
  pose proof (b64_sub_rounded max min Mq mq Hmax Hmin) as [Hr _].
  specialize (Hr ltac:(lra)). apply rounded_val_nonneg in Hr.
  cbn [num_sub binary64] in Hd. rewrite Hd in Hr. cbn in Hr.
  exists dq. unfold or_else, ToBoolean. cbn [num_sub binary64]. rewrite Hd.
  destruct (Qzero_bool dq) eqn:Hz; cbn [negb].
  - destruct b64_lit_1 as (c & Hc & Hcq). exists c. repeat split; try done; lra.
  - apply Qzero_bool_false in Hz. exists dq. repeat split; try done; lra.
Qed.



(** ** The legend on doubles *)

(** The fractions i / 5 of the legend loop. *)
Lemma b64_fractions (i : nat) :
  (i < 5)%nat ->
  exists c1 c2,
    val ((lit (Z.of_nat i) / lit (Z.of_nat Shared.steps))%js : float) = Finv c1
    /\ val ((lit (Z.of_nat (S i)) / lit (Z.of_nat Shared.steps))%js : float) = Finv c2
    /\ (0 <= c1 <= c2)%Q /\ (c2 <= 1)%Q.
Proof.
  intros Hi.
  destruct i as [|[|[|[|[|i]]]]]; [..|lia]; eexists _, _;
    (split; [vm_compute; reflexivity|]); (split; [vm_compute; reflexivity|]);
    unfold Qle; cbn; lia.
Qed.

Lemma b64_legend_ascending (globalStats : GlobalStats float) :
  isFinite (min globalStats) = true ->
  isFinite (max globalStats - min globalStats)%js = true ->
  lessEq (min globalStats) (max globalStats) = true ->
  forall i, (i < 5)%nat ->
    lessEq (Shared.legendValue globalStats i)
           (Shared.legendValue globalStats (S i)) = true.
Proof.
  destruct globalStats as [mn mx]. cbn [min max]. intros Hmin Hfin Hle i Hi.
  pose proof (b64_sub_finite_l _ _ Hfin Hmin) as Hmax.
  destruct (b64_finite_val _ Hmin) as (mq & Hmq).
  destruct (b64_finite_val _ Hmax) as (Mq & HMq).
  apply lessEq_spec in Hle. rewrite Hmq, HMq in Hle. cbn in Hle.
  destruct (b64_denominator_pos mn mx mq Mq Hmq HMq Hle Hfin) as (dq & _ & Hd & Hdq & _).
  destruct (b64_fractions i Hi) as (c1 & c2 & Hc1 & Hc2 & Hc & Hc2q).
  unfold Shared.legendValue. cbn [min max].
  set (f1 := (lit (Z.of_nat i) / lit (Z.of_nat Shared.steps))%js : float) in *.
  set (f2 := (lit (Z.of_nat (S i)) / lit (Z.of_nat Shared.steps))%js : float) in *.
  assert (forall f c, val f = Finv c -> (0 <= c <= 1)%Q ->
            exists p, val (f * (mx - mn))%js = Finv p) as Hprod.
  { intros f c Hf Hcq.
    destruct (signed_rounded_bounded _ _ (mx - mn)%js dq
                (b64_mul_rounded _ _ _ _ Hf Hd) Hd) as (p & Hp & _).
    - apply Qabs_le_nonneg. nra.
    - by exists p. }
  destruct (Hprod f1 c1 Hc1 ltac:(lra)) as (p1 & Hp1).
  destruct (Hprod f2 c2 Hc2 ltac:(lra)) as (p2 & Hp2).
  pose proof (b64_mul_mono_l f1 f2 (mx - mn)%js c1 c2 dq Hc1 Hc2 Hd Hdq ltac:(lra)) as Hp.
  cbn [num_mul num_sub binary64] in Hp1, Hp2, Hp. rewrite Hp1, Hp2 in Hp. cbn in Hp.
  apply lessEq_spec. exact (b64_add_mono_r mn _ _ mq p1 p2 Hmq Hp1 Hp2 Hp).
Qed.

(** ** Two different doubles have a difference other than zero *)

Lemma b64_grid (x : float) (q : Q) :
  val x = Finv q -> exists k : Z, (q == F2Q k (-1074))%Q.
Proof.
  rewrite b64_val_sf. intros Hx.
  destruct (Prim2SF x) as [s|s| |s m e] eqn:Ex; try done; cbn in Hx; injection Hx as <-.
  - exists 0. by rewrite F2Q_0.
  - destruct (valid_finite x _ _ _ Ex) as [Hc%canonical_fexp _].
    assert (-1074 <= e) as He by fexp_lia.
    eexists. apply F2Q_unshift. exact He.
Qed.

Lemma b64_sub_nonzero (x y : float) (xq yq : Q) :
  val x = Finv xq -> val y = Finv yq -> ~ (xq == yq)%Q ->
  isFinite (x - y)%js = true -> ToBoolean (x - y)%js = true.
Proof.
  intros Hx Hy Hne Hfin. destruct (b64_finite_val _ Hfin) as (dq & Hd).
  destruct (b64_grid x xq Hx) as (kx & Hkx). destruct (b64_grid y yq Hy) as (ky & Hky).
  assert (rounded_val (F2Q 1 (-1074)) (Finv (F2Q 1 (-1074)))) as Heta.
  { right. split; [apply F2Q_pos|]. split; [by apply rounds_representable|].
    rewrite F2Q_1_power. by apply Qpower_2_lt. }
  pose proof (F2Q_pos 1 (-1074)) as Hpos.
  pose proof (b64_sub_rounded x y xq yq Hx Hy) as [Hp Hn].
  cbn [num_sub binary64] in *. rewrite Hd in Hp, Hn.
  assert (kx <> ky) as Hk by (intros ->; apply Hne; by rewrite Hkx, Hky).
  unfold ToBoolean. cbn [num_sub binary64]. rewrite Hd.
  apply negb_true_iff, Qzero_bool_false.
  destruct (Z_lt_le_dec kx ky) as [Hlt | Hge].
  - assert (F2Q 1 (-1074) <= yq - xq)%Q as Hle.
    { rewrite Hkx, Hky, <- F2Q_sub. apply F2Q_le. lia. }
    specialize (Hn ltac:(lra)).
    pose proof (rounded_val_mono (F2Q 1 (-1074)) (- (xq - yq)) _ _ ltac:(lra) Heta Hn) as Hm.
    cbn in Hm. lra.
  - assert (F2Q 1 (-1074) <= xq - yq)%Q as Hle.
    { rewrite Hkx, Hky, <- F2Q_sub. apply F2Q_le. lia. }
    specialize (Hp ltac:(lra)).
    pose proof (rounded_val_mono (F2Q 1 (-1074)) (xq - yq) _ _ ltac:(lra) Heta Hp) as Hm.
    cbn in Hm. lra.
Qed.

(** ** Well-formed colors on doubles *)

Lemma b64_sub_not_NaN (x y : float) :
  Number_isNaN x = false -> isFinite y = true -> Number_isNaN (x - y)%js = false.
Proof.
  intros Hx Hy. destruct (b64_finite_val y Hy) as (yq & Hyq).
  unfold Number_isNaN in *. cbn [num_sub binary64].
  destruct (val x) as [|s|xq] eqn:Hxv; [done| |].
  - rewrite b64_val_sf in Hxv, Hyq |- *. rewrite sub_spec.
    destruct (Prim2SF x) as [| | |]; try done;
      destruct (Prim2SF y) as [| | |]; try done.
  - pose proof (signed_rounded_not_NaN _ _ (b64_sub_rounded x y xq yq Hxv Hyq)).
    by destruct (val (x - y)%float).
Qed.

Lemma b64_div_not_NaN (x d : float) :
  Number_isNaN x = false -> isFinite d = true -> ToBoolean d = true ->
  Number_isNaN (x / d)%js = false.
Proof.
  intros Hx Hf Hb. destruct (b64_finite_val d Hf) as (dq & Hdq).
  assert (~ (dq == 0)%Q) as Hd0.
  { unfold ToBoolean in Hb. rewrite Hdq in Hb.
    by apply Qzero_bool_false, negb_true_iff. }
  unfold Number_isNaN in *. cbn [num_div binary64].
  destruct (val x) as [|s|xq] eqn:Hxv; [done| |].
  - rewrite b64_val_sf in Hxv, Hdq |- *. rewrite div_spec.
    destruct (Prim2SF x) as [| | |]; try done;
      destruct (Prim2SF d) as [| | |]; try done.
  - pose proof (signed_rounded_not_NaN _ _ (b64_div_rounded x d xq dq Hxv Hdq Hd0)).
    by destruct (val (x / d)%float).
Qed.

Lemma b64_t_not_NaN (v min max : float) :
  Number_isNaN v = false -> isFinite min = true -> isFinite (max - min)%js = true ->
  Number_isNaN ((v - min) / or_else (max - min) (lit 1))%js = false.
Proof.
  intros Hv Hmin Hd. apply b64_div_not_NaN.
  - by apply b64_sub_not_NaN.
  - unfold or_else. by destruct (ToBoolean (max - min)%js).
  - unfold or_else. by destruct (ToBoolean (max - min)%js) eqn:Hb.
Qed.

Lemma b64_Temp_channels (s : float) (sq : Q) :
  val s = Finv sq -> (0 <= sq <= 1)%Q -> is_color (rgb_of (Temp.channels s)).
Proof.
  intros Hs Hsq. unfold Temp.channels. cbv zeta.
  destruct (b64_scale s sq Hs Hsq) as (r & Hr & Hrq).
  destruct (b64_fold s sq Hs Hsq) as (_ & u & _ & _ & _ & _ & Hu & Huq).
  destruct (b64_complement _ u Hu Huq) as (u' & Hu' & Huq').
  destruct (b64_scale _ u' Hu' Huq') as (g & Hg & Hgq).
  destruct (b64_complement s sq Hs Hsq) as (w & Hw & Hwq).
  destruct (b64_scale _ w Hw Hwq) as (b & Hb & Hbq).
  unfold Math_round. rewrite Hr, Hg, Hb.
  exists (chan r), (chan g), (chan b). repeat split; try done; by apply chan_range.
Qed.

Lemma b64_Precip_channels (s : float) (sq : Q) :
  val s = Finv sq -> (0 <= sq <= 1)%Q -> is_color (rgb_of (Precip.channels s)).
Proof.
  intros Hs Hsq. unfold Precip.channels. cbv zeta.
  destruct (b64_complement s sq Hs Hsq) as (w & Hw & Hwq).
  destruct (b64_scale _ w Hw Hwq) as (r & Hr & Hrq).
  unfold Math_round. rewrite Hr.
  exists (chan r), (chan r), 255. repeat split; try done; try lia; by apply chan_range.
Qed.

(** On doubles both mappers return a color for every number, every finite
    min and every max whose distance to min is finite. *)
Lemma b64_well_formed (v min max : float) :
  Number_isNaN v = false -> isFinite min = true -> isFinite (max - min)%js = true ->
  (exists q, val (Shared.clamped v min max) = Finv q /\ (0 <= q <= 1)%Q)
  /\ is_color (Temp.getColorTemp (Num v) min max)
  /\ is_color (Precip.getColor (Num v) min max).
Proof.
  intros Hv Hmin Hd.
  pose proof (b64_t_not_NaN v min max Hv Hmin Hd) as Ht.
  assert (exists q, val (Shared.clamped v min max) = Finv q /\ (0 <= q <= 1)%Q)
    as (q & Hq & Hrange).
  { unfold Shared.clamped. cbv zeta.
    destruct (clamp_range ((v - min) / or_else (max - min) (lit 1))%js) as [H _].
    destruct (H Ht). by apply b64_unit. }
  split; [eauto|]. rewrite getColorTemp_rgb, getColor_rgb by done.
  split; [by eapply b64_Temp_channels | by eapply b64_Precip_channels].
Qed.

(** The difference of two different finite ends is not zero. *)
Lemma b64_extremes_distinct (min max : float) :
  isFinite min = true -> isFinite (max - min)%js = true ->
  strictEquals min max = false ->
  ToBoolean (max - min)%js = true.
Proof.
  intros Hmin Hfin Hne.
  pose proof (b64_sub_finite_l _ _ Hfin Hmin) as Hmax.
  destruct (b64_finite_val _ Hmin) as (mq & Hmq).
  destruct (b64_finite_val _ Hmax) as (Mq & HMq).
  unfold strictEquals in Hne. rewrite Hmq, HMq in Hne. cbn in Hne.
  apply Qeq_bool_neq in Hne.
  by apply (b64_sub_nonzero max min Mq mq).
Qed.

(** ** The degenerate range and the last value of the legend *)

(** With max == min finite, the difference is a zero and the denominator
    is the literal 1. *)
Lemma b64_degenerate (min max : float) :
  isFinite min = true -> strictEquals max min = true ->
  isFinite (max - min)%js = true
  /\ or_else (max - min)%js (lit 1) = (lit 1 : float).
Proof.
  intros Hmin Heq. destruct (b64_finite_val _ Hmin) as (mq & Hmq).
  unfold strictEquals in Heq. rewrite Hmq in Heq.
  destruct (val max) as [| |Mq] eqn:HMq; try done.
  cbn in Heq. apply Qeq_bool_iff in Heq.
  pose proof (b64_sub_rounded max min Mq mq HMq Hmq) as Hd.
  assert (val 0%float = Finv 0) as H0 by reflexivity.
  destruct (signed_rounded_bounded _ _ 0%float 0 Hd H0) as (r & Hr & Hrq & _).
  { apply Qabs_Qle_condition. lra. }
  apply Qabs_Qle_condition in Hrq.
  assert (Qzero_bool r = true) as Hz by (apply Qeq_bool_iff; lra).
  unfold isFinite, or_else, ToBoolean. cbn [num_sub binary64].
  rewrite Hr, Hz. split; reflexivity.
Qed.

(** When the parameter is NaN the channels are NaN, but for the blue of
    precipitation. *)
Lemma b64_NaN_color (v min max : float) :
  Number_isNaN v = false ->
  Number_isNaN ((v - min) / or_else (max - min) (lit 1))%js = true ->
  Temp.getColorTemp (Num v) min max = "rgb(NaN,NaN,NaN)"%string
  /\ Precip.getColor (Num v) min max = "rgb(NaN,NaN,255)"%string.
Proof.
  intros Hv Ht. rewrite getColorTemp_rgb, getColor_rgb by done.
  unfold Shared.clamped. cbv zeta.
  destruct (clamp_range ((v - min) / or_else (max - min) (lit 1))%js) as [_ H].
  rewrite (H Ht). split; vm_compute; reflexivity.
Qed.

(** When the parameter is a number the clamp brings it into [0, 1] and the
    channels are integers from 0 to 255. *)
Lemma b64_defined_color (v min max : float) :
  Number_isNaN v = false ->
  Number_isNaN ((v - min) / or_else (max - min) (lit 1))%js = false ->
  (exists q, val (Shared.clamped v min max) = Finv q /\ (0 <= q <= 1)%Q)
  /\ is_color (Temp.getColorTemp (Num v) min max)
  /\ is_color (Precip.getColor (Num v) min max).
Proof.
  intros Hv Ht.
  assert (exists q, val (Shared.clamped v min max) = Finv q /\ (0 <= q <= 1)%Q)
    as (q & Hq & Hrange).
  { unfold Shared.clamped. cbv zeta.
    destruct (clamp_range ((v - min) / or_else (max - min) (lit 1))%js) as [H _].
    destruct (H Ht). by apply b64_unit. }
  split; [eauto|]. rewrite getColorTemp_rgb, getColor_rgb by done.
  split; [by eapply b64_Temp_channels | by eapply b64_Precip_channels].
Qed.

(** 1 * d has the value of d. *)
Lemma b64_mul_one (d : float) (dq : Q) :
  val d = Finv dq -> exists p, val (1 * d)%float = Finv p /\ (p == dq)%Q.
Proof.
  intros Hd. destruct b64_lit_1 as (one & H1 & H1q).
  change (lit 1 : float) with 1%float in H1.
  pose proof (b64_mul_rounded 1%float d one dq H1 Hd) as Hm.
  pose proof (finite_signed_rounded d dq Hd) as Hself.
  assert (one * dq == dq)%Q as Heq by (rewrite H1q; ring).
  assert (one * dq <= dq)%Q as Hle' by lra.
  assert (dq <= one * dq)%Q as Hge' by lra.
  pose proof (signed_rounded_mono _ _ _ _ Hle' Hm Hself) as Hle.
  pose proof (signed_rounded_mono _ _ _ _ Hge' Hself Hm) as Hge.
  destruct (val (1 * d)%float) as [|[]|p]; cbn in Hle, Hge; try done.
  exists p. split; [reflexivity | lra].
Qed.

(** The last value of the legend is the double min + (max - min). *)
Lemma b64_legend_last (globalStats : GlobalStats float) :
  isFinite (max globalStats - min globalStats)%js = true ->
  strictEquals (Shared.legendValue globalStats 5)
               (min globalStats + (max globalStats - min globalStats))%js = true.
Proof.
  destruct globalStats as [mn mx]. cbn [min max]. intros Hfin.
  destruct (b64_sub_finite _ _ Hfin) as [_ Hmin].
  destruct (b64_finite_val _ Hmin) as (mq & Hmq).
  destruct (b64_finite_val _ Hfin) as (dq & Hdq).
  unfold Shared.legendValue. cbn [min max num_add num_mul num_div num_sub binary64] in *.
  change (b64_lit (Z.of_nat 5) / b64_lit (Z.of_nat Shared.steps))%float with 1%float.
  destruct (b64_mul_one _ dq Hdq) as (p & Hp & Hpq).
  pose proof (b64_add_rounded mn _ mq p Hmq Hp) as H1.
  pose proof (b64_add_rounded mn _ mq dq Hmq Hdq) as H2.
  assert (mq + p <= mq + dq)%Q as Hle by lra.
  assert (mq + dq <= mq + p)%Q as Hge by lra.
  unfold strictEquals. apply numval_leP_antisym.
  - exact (signed_rounded_mono _ _ _ _ Hle H1 H2).
  - exact (signed_rounded_mono _ _ _ _ Hge H2 H1).
Qed.

(** * The color mappers and the legend *)

(** ** Well-formed colors *)

(** An integer from 0 to 255 prints with a digit first. *)
Lemma Z_to_string_head (r : Z) :
  0 <= r <= 255 ->
  exists c rest, Z_to_string r = String c rest /\ c <> "N"%char.
Proof.
  intros Hr.
  assert (forallb
            (fun n => match Z_to_string (Z.of_nat n) with
                      | String c _ => negb (Ascii.eqb c "N")
                      | EmptyString => false
                      end) (seq 0 256) = true) as Hall
    by (vm_compute; reflexivity).
  rewrite forallb_forall in Hall. specialize (Hall (Z.to_nat r)).
  rewrite Z2Nat.id in Hall by lia.
  destruct (Z_to_string r) as [|c rest].
  - discriminate Hall. apply in_seq. lia.
  - exists c, rest. split; [reflexivity|]. intros ->.
    discriminate Hall. apply in_seq. lia.
Qed.

Lemma is_color_head (s : string) :
  is_color s ->
  exists c rest, s = ("rgb(" +:+ String c rest)%string /\ c <> "N"%char.
Proof.
  intros (r & g & b & Hr & _ & _ & ->).
  destruct (Z_to_string_head r Hr) as (c & rest & Hs & Hc).
  unfold rgb, ToString. rewrite Hs. cbn. eauto.
Qed.

(** A string that starts with rgb(N is no color. *)
Lemma NaN_not_color (s : string) : ~ is_color ("rgb(N" +:+ s)%string.
Proof.
  intros (c & rest & Heq & Hc)%is_color_head.
  vm_compute in Heq. injection Heq as Heq _. congruence.
Qed.

(** C5 does not hold as stated. Three calls on numeric values return a
    string that is no color:
    - value, min and max all +Infinity, where max == min;
    - the value 5, outside the range [-Infinity, 0];
    - the largest double, outside the finite range
      [-1.75 * 2^1023, 1.75 * 2^1023], whose width overflows.
    In each the parameter [t] is NaN, and so are the channels computed
    from it. *)
Lemma getColor_Infinity_not_color :
  strictEquals PrimFloat.infinity PrimFloat.infinity = true
  /\ Number_isNaN PrimFloat.infinity = false
  /\ Temp.getColorTemp (Num PrimFloat.infinity) PrimFloat.infinity PrimFloat.infinity
     = "rgb(NaN,NaN,NaN)"%string
  /\ Precip.getColor (Num PrimFloat.infinity) PrimFloat.infinity PrimFloat.infinity
     = "rgb(NaN,NaN,255)"%string
  /\ ~ is_color (Temp.getColorTemp (Num PrimFloat.infinity)
                   PrimFloat.infinity PrimFloat.infinity)
  /\ ~ is_color (Precip.getColor (Num PrimFloat.infinity)
                   PrimFloat.infinity PrimFloat.infinity)
  /\ lessThan 0%float 5%float = true
  /\ ~ is_color (Temp.getColorTemp (Num 5%float) PrimFloat.neg_infinity 0%float)
  /\ ~ is_color (Precip.getColor (Num 5%float) PrimFloat.neg_infinity 0%float)
  /\ isFinite 0x1.fffffffffffffp1023%float = true
  /\ isFinite (-0x1.cp1023)%float = true
  /\ isFinite 0x1.cp1023%float = true
  /\ lessThan 0x1.cp1023%float 0x1.fffffffffffffp1023%float = true
  /\ Temp.getColorTemp (Num 0x1.fffffffffffffp1023%float)
       (-0x1.cp1023)%float 0x1.cp1023%float = "rgb(NaN,NaN,NaN)"%string
  /\ Precip.getColor (Num 0x1.fffffffffffffp1023%float)
       (-0x1.cp1023)%float 0x1.cp1023%float = "rgb(NaN,NaN,255)"%string
  /\ ~ is_color (Temp.getColorTemp (Num 0x1.fffffffffffffp1023%float)
                   (-0x1.cp1023)%float 0x1.cp1023%float)
  /\ ~ is_color (Precip.getColor (Num 0x1.fffffffffffffp1023%float)
                   (-0x1.cp1023)%float 0x1.cp1023%float).
Proof.
  repeat split; try (vm_compute; reflexivity).
  - assert (Temp.getColorTemp (Num PrimFloat.infinity) PrimFloat.infinity
              PrimFloat.infinity = "rgb(NaN,NaN,NaN)"%string) as ->
      by (vm_compute; reflexivity). exact (NaN_not_color "aN,NaN,NaN)"%string).
  - assert (Precip.getColor (Num PrimFloat.infinity) PrimFloat.infinity
              PrimFloat.infinity = "rgb(NaN,NaN,255)"%string) as ->
      by (vm_compute; reflexivity). exact (NaN_not_color "aN,NaN,255)"%string).
  - assert (Temp.getColorTemp (Num 5%float) PrimFloat.neg_infinity 0%float
            = "rgb(NaN,NaN,NaN)"%string) as -> by (vm_compute; reflexivity).
    exact (NaN_not_color "aN,NaN,NaN)"%string).
  - assert (Precip.getColor (Num 5%float) PrimFloat.neg_infinity 0%float
            = "rgb(NaN,NaN,255)"%string) as -> by (vm_compute; reflexivity).
    exact (NaN_not_color "aN,NaN,255)"%string).
  - assert (Temp.getColorTemp (Num 0x1.fffffffffffffp1023%float)
              (-0x1.cp1023)%float 0x1.cp1023%float = "rgb(NaN,NaN,NaN)"%string) as ->
      by (vm_compute; reflexivity).
    exact (NaN_not_color "aN,NaN,NaN)"%string).
  - assert (Precip.getColor (Num 0x1.fffffffffffffp1023%float)
              (-0x1.cp1023)%float 0x1.cp1023%float = "rgb(NaN,NaN,255)"%string) as ->
      by (vm_compute; reflexivity).
    exact (NaN_not_color "aN,NaN,255)"%string).
Qed.

(** C5, amended. The numbers are IEEE doubles. For a value that is not NaN
    each mapper returns a color string with three integer channels from 0
    to 255 exactly when the parameter t = (value - min) / ((max - min) || 1)
    is not NaN; the clamp then keeps it within [0, 1]. Otherwise the
    strings are rgb(NaN,NaN,NaN) and rgb(NaN,NaN,255). The parameter is not
    NaN whenever the double max - min is finite, for values inside or
    outside [min, max]; this includes every finite min with max == min,
    where the denominator is the literal 1. For every implementation of
    numbers the clamp keeps the parameter within [0, 1] whenever [t] is not
    NaN. Three calls are evaluated. *)
Theorem getColor_well_formed :
  (forall (N : Type) (num : Number N), NumberLaws num ->
   forall v min max : N,
     let t := ((v - min) / or_else (max - min) (lit 1))%js in
     let s := Shared.clamped v min max in
     Number_isNaN t = false -> lessEq (lit 0) s = true /\ lessEq s (lit 1) = true)
  /\ (forall v min max : float,
        let t := ((v - min) / or_else (max - min) (lit 1))%js in
        Number_isNaN v = false ->
        (Number_isNaN t = false ->
         (exists q, val (Shared.clamped v min max) = Finv q /\ (0 <= q <= 1)%Q)
         /\ is_color (Temp.getColorTemp (Num v) min max)
         /\ is_color (Precip.getColor (Num v) min max))
        /\ (Number_isNaN t = true ->
            Temp.getColorTemp (Num v) min max = "rgb(NaN,NaN,NaN)"%string
            /\ Precip.getColor (Num v) min max = "rgb(NaN,NaN,255)"%string
            /\ ~ is_color (Temp.getColorTemp (Num v) min max)
            /\ ~ is_color (Precip.getColor (Num v) min max)))
  /\ (forall v min max : float,
        Number_isNaN v = false -> isFinite (max - min)%js = true ->
        Number_isNaN ((v - min) / or_else (max - min) (lit 1))%js = false
        /\ (exists q, val (Shared.clamped v min max) = Finv q /\ (0 <= q <= 1)%Q)
        /\ is_color (Temp.getColorTemp (Num v) min max)
        /\ is_color (Precip.getColor (Num v) min max))
  /\ (forall v min max : float,
        Number_isNaN v = false -> isFinite min = true -> strictEquals max min = true ->
        isFinite (max - min)%js = true
        /\ or_else (max - min)%js (lit 1) = (lit 1 : float)
        /\ is_color (Temp.getColorTemp (Num v) min max)
        /\ is_color (Precip.getColor (Num v) min max))
  /\ Temp.getColorTemp (Num 40%float) 7%float 7%float = "rgb(255,0,0)"%string
  /\ Precip.getColor (Num 2%float) 7%float 7%float = "rgb(255,255,255)"%string
  /\ Precip.getColor (Num 50%float) 0%float 10%float = "rgb(0,0,255)"%string.
Proof.
  assert (forall v min max : float,
             Number_isNaN v = false -> isFinite (max - min)%js = true ->
             Number_isNaN ((v - min) / or_else (max - min) (lit 1))%js = false
             /\ (exists q, val (Shared.clamped v min max) = Finv q /\ (0 <= q <= 1)%Q)
             /\ is_color (Temp.getColorTemp (Num v) min max)
             /\ is_color (Precip.getColor (Num v) min max)) as Hwidth.
  { intros v min max Hv Hd. destruct (b64_sub_finite _ _ Hd) as [_ Hmin].
    split; [by apply b64_t_not_NaN | by apply b64_well_formed]. }
  split; [|split; [|split; [|split]]].
  - intros N num laws v min max. cbv zeta. intros Ht.
    unfold Shared.clamped. cbv zeta. by apply clamp_range.
  - intros v min max. cbv zeta. intros Hv. split.
    + intros Ht. exact (b64_defined_color v min max Hv Ht).
    + intros Ht. destruct (b64_NaN_color v min max Hv Ht) as [HT HP].
      rewrite HT, HP. repeat split.
      * exact (NaN_not_color "aN,NaN,NaN)"%string).
      * exact (NaN_not_color "aN,NaN,255)"%string).
  - exact Hwidth.
  - intros v min max Hv Hmin Heq.
    destruct (b64_degenerate min max Hmin Heq) as [Hd Hone].
    destruct (Hwidth v min max Hv Hd) as (_ & _ & HT & HP). done.
  - repeat split; vm_compute; reflexivity.
Qed.

Lemma getColor_well_formed_witness :
  is_color (Temp.getColorTemp (Num 40.5%float) 7.1%float 7.1%float)
  /\ is_color (Precip.getColor (Num (-3)%float) 0.1%float 0.7%float).
Proof.
  destruct getColor_well_formed as (_ & _ & Hwidth & Hsame & _).
  pose proof (Hsame 40.5%float 7.1%float 7.1%float eq_refl eq_refl eq_refl) as H1.
  pose proof (Hwidth (-3)%float 0.1%float 0.7%float eq_refl eq_refl) as H2.
  tauto.
Defined.

(** ** The extreme colors *)

(** C6 does not hold as stated. The pair computed from a collection without
    numbers has min = Infinity and max = -Infinity; they differ, yet both
    mappers give min and max the same string, which is no color. And for
    the finite pair min = -2^1023, max = 2^1023, whose difference
    overflows, max is mapped to rgb(NaN,NaN,NaN) and rgb(NaN,NaN,255), not
    to the end of the gradient. *)
Lemma getColor_extremes_coincide :
  strictEquals (min (Temp.calcGlobalMinMax blank_example))
               (max (Temp.calcGlobalMinMax blank_example)) = false
  /\ Temp.getColorTemp (Num (min (Temp.calcGlobalMinMax blank_example)))
       (min (Temp.calcGlobalMinMax blank_example))
       (max (Temp.calcGlobalMinMax blank_example))
     = Temp.getColorTemp (Num (max (Temp.calcGlobalMinMax blank_example)))
         (min (Temp.calcGlobalMinMax blank_example))
         (max (Temp.calcGlobalMinMax blank_example))
  /\ Precip.getColor (Num (min (Temp.calcGlobalMinMax blank_example)))
       (min (Temp.calcGlobalMinMax blank_example))
       (max (Temp.calcGlobalMinMax blank_example))
     = Precip.getColor (Num (max (Temp.calcGlobalMinMax blank_example)))
         (min (Temp.calcGlobalMinMax blank_example))
         (max (Temp.calcGlobalMinMax blank_example))
  /\ Temp.getColorTemp (Num (min (Temp.calcGlobalMinMax blank_example)))
       (min (Temp.calcGlobalMinMax blank_example))
       (max (Temp.calcGlobalMinMax blank_example))
     = "rgb(NaN,NaN,NaN)"%string
  /\ Precip.getColor (Num (min (Temp.calcGlobalMinMax blank_example)))
       (min (Temp.calcGlobalMinMax blank_example))
       (max (Temp.calcGlobalMinMax blank_example))
     = "rgb(NaN,NaN,255)"%string
  /\ isFinite (-0x1p1023)%float = true
  /\ isFinite 0x1p1023%float = true
  /\ strictEquals (-0x1p1023)%float 0x1p1023%float = false
  /\ Temp.getColorTemp (Num 0x1p1023%float) (-0x1p1023)%float 0x1p1023%float
     = "rgb(NaN,NaN,NaN)"%string
  /\ Precip.getColor (Num 0x1p1023%float) (-0x1p1023)%float 0x1p1023%float
     = "rgb(NaN,NaN,255)"%string.
Proof. repeat split; vm_compute; reflexivity. Qed.

(** C6, amended. The numbers are IEEE doubles. For every min and max with
    min <> max whose difference max - min, computed on doubles, is finite,
    the mappers send min to parameter 0 and max to parameter 1, the two
    ends of the gradient: blue and red for temperature, white and blue for
    precipitation; the two strings differ. *)
Theorem getColor_extremes (min max : float) :
  isFinite (max - min)%js = true -> strictEquals min max = false ->
  Shared.clamped min min max = lit 0
  /\ Shared.clamped max min max = lit 1
  /\ Temp.getColorTemp (Num min) min max = "rgb(0,0,255)"%string
  /\ Temp.getColorTemp (Num max) min max = "rgb(255,0,0)"%string
  /\ Precip.getColor (Num min) min max = "rgb(255,255,255)"%string
  /\ Precip.getColor (Num max) min max = "rgb(0,0,255)"%string
  /\ Temp.getColorTemp (Num min) min max <> Temp.getColorTemp (Num max) min max
  /\ Precip.getColor (Num min) min max <> Precip.getColor (Num max) min max.
Proof.
  intros Hf Hne. destruct (b64_sub_finite _ _ Hf) as [_ Hmin].
  pose proof (b64_extremes_distinct min max Hmin Hf Hne) as Hb.
  destruct (b64_clamped_ends min max Hmin Hf Hb) as [H0 H1].
  destruct (b64_extremes min max Hmin Hf Hb) as (Ht0 & Ht1 & Hp0 & Hp1).
  rewrite Ht0, Ht1, Hp0, Hp1. repeat split; try done.
Qed.

Lemma getColor_extremes_witness :
  Temp.getColorTemp (Num 0.1%float) 0.1%float 0.7%float = "rgb(0,0,255)"%string
  /\ Temp.getColorTemp (Num 0.7%float) 0.1%float 0.7%float = "rgb(255,0,0)"%string.
Proof.
  pose proof (getColor_extremes 0.1%float 0.7%float eq_refl eq_refl) as H.
  tauto.
Defined.

(** ** Monotonicity of the gradients *)




(** ** The legend *)

(** The loop of [updateLegend] replaces the children of the legend by the
    six items of steps 0 to 5, in that order. *)
Lemma updateLegend_items {N : Type} {num : Number N}
    (colorOf : value N -> N -> N -> string) (digits : nat)
    (globalStats : GlobalStats N) (legendDiv : list LegendItem) :
  Shared.updateLegend colorOf digits (Some globalStats) legendDiv
  = map (Shared.legendItem colorOf digits globalStats) (seq 0 6).
Proof. reflexivity. Qed.

(** C8 does not hold as stated.
    - Over the range [0, 1] the values are not evenly spaced: the third
      step, from 0.4 to 0.6, is shorter than the second, from 0.2 to 0.4.
    - Over the range [-2.1, 0.35] the last value is above max: its label
      is 0.4, where max itself prints as 0.3.
    - Over the finite range [-2^1023, 2^1023], whose width overflows, the
      first value is NaN, not min, and the other five are Infinity. *)
Lemma updateLegend_not_even :
  (exists q1 q2 q3 : Q,
      val (Shared.legendValue {| min := 0%float; max := 1%float |} 1) = Finv q1
      /\ val (Shared.legendValue {| min := 0%float; max := 1%float |} 2) = Finv q2
      /\ val (Shared.legendValue {| min := 0%float; max := 1%float |} 3) = Finv q3
      /\ (q3 - q2 < q2 - q1)%Q)
  /\ lessThan (-2.1)%float 0.35%float = true
  /\ lessThan 0.35%float
       (Shared.legendValue {| min := (-2.1)%float; max := 0.35%float |} 5) = true
  /\ map textContent
       (Temp.updateLegend (Some {| min := (-2.1)%float; max := 0.35%float |}) [])
     = map Some ["-2.1"; "-1.6"; "-1.1"; "-0.6"; "-0.1"; "0.4"]%string
  /\ toFixed 0.35%float 1 = Some "0.3"%string
  /\ isFinite (-0x1p1023)%float = true
  /\ isFinite 0x1p1023%float = true
  /\ lessThan (-0x1p1023)%float 0x1p1023%float = true
  /\ Number_isNaN
       (Shared.legendValue {| min := (-0x1p1023)%float; max := 0x1p1023%float |} 0)
     = true
  /\ map (Shared.legendValue {| min := (-0x1p1023)%float; max := 0x1p1023%float |})
       [1; 2; 3; 4; 5]%nat
     = repeat PrimFloat.infinity 5
  /\ map textContent
       (Temp.updateLegend
          (Some {| min := (-0x1p1023)%float; max := 0x1p1023%float |}) [])
     = map Some ["NaN"; "Infinity"; "Infinity"; "Infinity"; "Infinity";
                 "Infinity"]%string.
Proof.
  split; [|repeat split; vm_compute; reflexivity].
  eexists _, _, _.
  do 3 (split; [vm_compute; reflexivity|]).
  vm_compute. reflexivity.
Qed.

(** C8, amended. With its step count of 5, [updateLegend] replaces the
    legend by exactly six items, in the order of the steps 0 to 5, each
    made of the color the mapper gives to its value and of the label of
    that value (whatever the numbers; without statistics the legend is left
    as it is). The value of step i is min + (i / 5) * (max - min) computed
    on IEEE doubles. Whenever the double max - min is finite, the first
    value is min, the last value is the double min + (max - min), and, for
    min <= max, the six values ascend. Over [0, 100] the values are exactly
    0, 20, 40, 60, 80, 100. *)
Theorem updateLegend_six :
  (forall (N : Type) (num : Number N) (globalStats : GlobalStats N)
          (legendDiv : list LegendItem),
      let value i := Shared.legendValue globalStats i in
      let min := min globalStats in
      let max := max globalStats in
      Temp.updateLegend (Some globalStats) legendDiv
      = map (fun i => {| background := Temp.getColorTemp (Num (value i)) min max;
                         textContent := toFixed (value i) 1 |}) [0; 1; 2; 3; 4; 5]%nat
      /\ Precip.updateLegend (Some globalStats) legendDiv
         = map (fun i => {| background := Precip.getColor (Num (value i)) min max;
                            textContent := toFixed (value i) 0 |}) [0; 1; 2; 3; 4; 5]%nat
      /\ length (Temp.updateLegend (Some globalStats) legendDiv) = 6%nat
      /\ length (Precip.updateLegend (Some globalStats) legendDiv) = 6%nat
      /\ Temp.updateLegend None legendDiv = legendDiv
      /\ Precip.updateLegend None legendDiv = legendDiv)
  /\ (forall globalStats : GlobalStats float,
        isFinite (max globalStats - min globalStats)%js = true ->
        strictEquals (Shared.legendValue globalStats 0) (min globalStats) = true
        /\ strictEquals (Shared.legendValue globalStats 5)
             (min globalStats + (max globalStats - min globalStats))%js = true
        /\ (lessEq (min globalStats) (max globalStats) = true ->
            forall i, (i < 5)%nat ->
              lessEq (Shared.legendValue globalStats i)
                     (Shared.legendValue globalStats (S i)) = true))
  /\ map (Shared.legendValue hundred) [0; 1; 2; 3; 4; 5]%nat
     = [0; 20; 40; 60; 80; 100]%float
  /\ map background (Temp.updateLegend (Some hundred) [])
     = map (fun v => Temp.getColorTemp (Num v) 0%float 100%float)
           [0; 20; 40; 60; 80; 100]%float
  /\ map background (Precip.updateLegend (Some hundred) [])
     = map (fun v => Precip.getColor (Num v) 0%float 100%float)
           [0; 20; 40; 60; 80; 100]%float
  /\ map textContent (Temp.updateLegend (Some hundred) [])
     = map Some ["0.0"; "20.0"; "40.0"; "60.0"; "80.0"; "100.0"]%string
  /\ map textContent (Precip.updateLegend (Some hundred) [])
     = map Some ["0"; "20"; "40"; "60"; "80"; "100"]%string.
Proof.
  split; [|split].
  - intros N num globalStats legendDiv. cbv zeta. repeat split; reflexivity.
  - intros globalStats Hfin. destruct (b64_sub_finite _ _ Hfin) as [_ Hmin].
    split; [by apply b64_legend_first|].
    split; [by apply b64_legend_last | by apply b64_legend_ascending].
  - repeat split; vm_compute; reflexivity.
Qed.

Lemma updateLegend_six_witness :
  strictEquals (Shared.legendValue {| min := (-5)%float; max := 32.5%float |} 0)
               (-5)%float = true
  /\ strictEquals (Shared.legendValue {| min := (-5)%float; max := 32.5%float |} 5)
                  ((-5) + (32.5 - (-5)))%float = true.
Proof.
  destruct updateLegend_six as (_ & H & _).
  destruct (H {| min := (-5)%float; max := 32.5%float |} eq_refl) as (H0 & H5 & _).
  split; [exact H0 | exact H5].
Defined.

(** * The scripts as a whole *)

(** ** The names of the month fields *)

(** The digits of a number, read back. *)
Lemma String_of_nat_read (n : nat) :
  NilEmpty.uint_of_string (String_of_nat n) = Some (Nat.to_uint n).
Proof.
  unfold String_of_nat, NilZero.string_of_uint.
  destruct (Nat.to_uint n) eqn:Hn; try (rewrite <- Hn at 2; rewrite <- Hn; apply NilEmpty.usu).
  pose proof (DecimalNat.Unsigned.of_to n) as Hof. rewrite Hn in Hof. cbn in Hof. subst n.
  discriminate Hn.
Qed.

(** Zeros in front do not change the number the digits denote. *)
Lemma zeros_cons (z : nat) (t : string) :
  String.concat "" (repeat "0"%string (S z)) +:+ t
  = String "0" (String.concat "" (repeat "0"%string z) +:+ t).
Proof. destruct z; reflexivity. Qed.

Lemma zeros_read (z : nat) (s : string) (d : Decimal.uint) :
  NilEmpty.uint_of_string s = Some d ->
  option_map Nat.of_uint
    (NilEmpty.uint_of_string (String.concat "" (repeat "0"%string z) +:+ s))
  = Some (Nat.of_uint d).
Proof.
  intros Hs. induction z as [|z IH].
  - change (String.concat "" (repeat "0"%string 0) +:+ s) with s. by rewrite Hs.
  - rewrite zeros_cons.
    change (NilEmpty.uint_of_string (String "0" ?t))
      with (option_map Decimal.D0 (NilEmpty.uint_of_string t)).
    destruct (NilEmpty.uint_of_string (_ +:+ s)) as [d'|]; [|done]. exact IH.
Qed.

Lemma padStart0_read (k n : nat) :
  option_map Nat.of_uint (NilEmpty.uint_of_string (padStart0 k (String_of_nat n))) = Some n.
Proof.
  unfold padStart0. rewrite (zeros_read _ _ _ (String_of_nat_read n)).
  f_equal. apply DecimalNat.Unsigned.of_to.
Qed.

Lemma getMonthPropertyName_inj (prefix : string) (m n : nat) :
  Shared.getMonthPropertyName prefix m = Shared.getMonthPropertyName prefix n -> m = n.
Proof.
  unfold Shared.getMonthPropertyName. intros H%String.app_inj.
  pose proof (padStart0_read 2 m) as Hm. rewrite H, padStart0_read in Hm. congruence.
Qed.

(** X1. The twelve names a script reads are its prefix followed by 01 to
    12; two different months never share a name, whatever the month (the
    padding adds zeros in front and never cuts a digit); and no name of the
    temperature script is a name of the precipitation script. *)
Theorem getMonthPropertyName_distinct (prefix : string) :
  map (Shared.getMonthPropertyName prefix) (seq 1 12)
  = map (append prefix)
        ["01"; "02"; "03"; "04"; "05"; "06"; "07"; "08"; "09"; "10"; "11"; "12"]%string
  /\ (forall m n : nat,
        Shared.getMonthPropertyName prefix m = Shared.getMonthPropertyName prefix n ->
        m = n)
  /\ (forall m n : nat,
        Temp.getMonthPropertyName m <> Precip.getMonthPropertyName n).
Proof.
  split; [reflexivity|]. split; [apply getMonthPropertyName_inj|].
  intros m n. unfold Temp.getMonthPropertyName, Precip.getMonthPropertyName,
    Shared.getMonthPropertyName.
  change ("temp_" +:+ ?s)%string with (String "t" ("emp_" +:+ s)).
  change ("precip_" +:+ ?s)%string with (String "p" ("recip_" +:+ s)).
  discriminate.
Qed.

(** ** The value extractor *)

(** X2. [getRegionValue] reads the field of the month and nothing else:
    after the field of month m is set to v, month m reads v and every other
    month reads what it read before; a month whose field is missing, or was
    deleted, reads [undefined]. *)
Theorem getRegionValue_insert {N : Type} (prefix : string)
    (props : gmap string (value N)) (m : nat) (v : value N) :
  let key := Shared.getMonthPropertyName prefix m in
  Shared.getRegionValue prefix {| properties := <[key := v]> props |} m = v
  /\ (forall n, n <> m ->
        Shared.getRegionValue prefix {| properties := <[key := v]> props |} n
        = Shared.getRegionValue prefix {| properties := props |} n)
  /\ Shared.getRegionValue prefix {| properties := delete key props |} m = Undefined
  /\ (forall n, n <> m ->
        Shared.getRegionValue prefix {| properties := delete key props |} n
        = Shared.getRegionValue prefix {| properties := props |} n)
  /\ (props !! key = None ->
      Shared.getRegionValue prefix {| properties := props |} m = Undefined).
Proof.
  cbv zeta. unfold Shared.getRegionValue, get. cbn [properties].
  split; [by rewrite lookup_insert_eq|]. split.
  { intros n Hn. rewrite lookup_insert_ne; [done|].
    intros Heq%getMonthPropertyName_inj. congruence. }
  split; [by rewrite lookup_delete_eq|]. split.
  { intros n Hn. rewrite lookup_delete_ne; [done|].
    intros Heq%getMonthPropertyName_inj. congruence. }
  by intros ->.
Qed.

Lemma getRegionValue_insert_witness :
  Shared.getRegionValue "temp_"
    {| properties := <["temp_07"%string := Num 5%float]> (properties (feature_of [])) |}
    8%nat
  = Shared.getRegionValue "temp_" {| properties := properties (feature_of []) |} 8%nat.
Proof.
  refine (proj1 (proj2 (getRegionValue_insert "temp_" (properties (feature_of []))
                          7%nat (Num 5%float))) 8%nat _).
  lia.
Defined.

(** ** The style of a region *)

(** A color made by the template is not the placeholder. *)
Lemma rgb_not_placeholder (r g b : integral) : rgb r g b <> "#f0f0f0"%string.
Proof. unfold rgb. change ("rgb(" +:+ ?s)%string with (String "r" ("gb(" +:+ s)). discriminate. Qed.

(** The two branches of the mappers. *)
Lemma getColor_cases {N : Type} {num : Number N} (v : value N) (min max : N) :
  (no_data v /\ Temp.getColorTemp v min max = "#f0f0f0"%string
             /\ Precip.getColor v min max = "#f0f0f0"%string)
  \/ (exists x, v = Num x /\ Number_isNaN x = false
                /\ Temp.getColorTemp v min max
                   = rgb_of (Temp.channels (Shared.clamped x min max))
                /\ Precip.getColor v min max
                   = rgb_of (Precip.channels (Shared.clamped x min max))).
Proof.
  destruct v as [| |x].
  { left. by repeat split; [right; left|..]. }
  { left. by repeat split; [left|..]. }
  destruct (Number_isNaN x) eqn:Hx.
  - left. split; [right; right; eauto|].
    unfold Temp.getColorTemp, Precip.getColor, isNaN. cbn. by rewrite Hx.
  - right. exists x. by rewrite getColorTemp_rgb, getColor_rgb.
Qed.

(** X3. The fill of a region is the placeholder ["#f0f0f0"] exactly when
    the field of the current month is missing, [null] or NaN; otherwise it
    is the color of the mapper. The stroke, its weight and the opacity of
    the fill do not depend on the data. *)
Theorem regionStyle_placeholder {N : Type} {num : Number N}
    (globalStats : GlobalStats N) (currentMonth : nat) (feature : Feature N) :
  let temp := Temp.regionStyle globalStats currentMonth feature in
  let precip := Precip.regionStyle globalStats currentMonth feature in
  (fillColor temp = "#f0f0f0"%string
   <-> no_data (Temp.getRegionValue feature currentMonth))
  /\ (fillColor precip = "#f0f0f0"%string
      <-> no_data (Precip.getRegionValue feature currentMonth))
  /\ (forall x, Temp.getRegionValue feature currentMonth = Num x ->
        Number_isNaN x = false ->
        fillColor temp = Temp.getColorTemp (Num x) (min globalStats) (max globalStats))
  /\ (forall x, Precip.getRegionValue feature currentMonth = Num x ->
        Number_isNaN x = false ->
        fillColor precip = Precip.getColor (Num x) (min globalStats) (max globalStats))
  /\ (color temp, weight temp, fillOpacity temp) = ("#555"%string, 1, 7 # 10)
  /\ (color precip, weight precip, fillOpacity precip) = ("#555555"%string, 1, 7 # 10).
Proof.
  cbv zeta. unfold Temp.regionStyle, Precip.regionStyle, Shared.regionStyle.
  cbn [fillColor color weight fillOpacity].
  fold (@Temp.getRegionValue N). fold (@Precip.getRegionValue N).
  split; [|split; [|split; [|split; [|split]]]]; try reflexivity.
  - destruct (getColor_cases (Temp.getRegionValue feature currentMonth)
                (min globalStats) (max globalStats))
      as [(Hv & -> & _) | (x & Hx & Hn & -> & _)]; [done|].
    split; [|intros Hno].
    + unfold rgb_of. destruct (Temp.channels _) as [[r g] b].
      intros H. by apply rgb_not_placeholder in H.
    + rewrite Hx in Hno. destruct Hno as [|[|(y & [= <-] & Hy)]]; congruence.
  - destruct (getColor_cases (Precip.getRegionValue feature currentMonth)
                (min globalStats) (max globalStats))
      as [(Hv & _ & ->) | (x & Hx & Hn & _ & ->)]; [done|].
    split; [|intros Hno].
    + unfold rgb_of. destruct (Precip.channels _) as [[r g] b].
      intros H. by apply rgb_not_placeholder in H.
    + rewrite Hx in Hno. destruct Hno as [|[|(y & [= <-] & Hy)]]; congruence.
  - by intros x ->.
  - by intros x ->.
Qed.

(** ** The range calculator and its data *)

Section Range.
Context {N : Type} {num : Number N} {laws : NumberLaws num}.
Variable prefix : string.

(** The pair is made of the two infinities when there is no sample, and of
    two samples otherwise. *)
Lemma calcGlobalMinMax_cases (geojson : GeoJSON N) :
  let stats := Shared.calcGlobalMinMax prefix geojson in
  (samples prefix geojson = [] /\ min stats = Infinity /\ max stats = (- Infinity)%js)
  \/ (min stats ∈ samples prefix geojson /\ max stats ∈ samples prefix geojson).
Proof.
  cbv zeta. destruct (collect_bounds prefix geojson) as [_ Hin].
  rewrite collect_samples in Hin.
  destruct (samples prefix geojson) as [|x rest] eqn:Hs.
  - left. unfold Shared.calcGlobalMinMax. rewrite collect_samples, Hs. done.
  - right. by apply Hin.
Qed.

Lemma calcGlobalMinMax_lower (geojson : GeoJSON N) (x : N) :
  x ∈ samples prefix geojson ->
  lessEq (min (Shared.calcGlobalMinMax prefix geojson)) x = true
  /\ lessEq x (max (Shared.calcGlobalMinMax prefix geojson)) = true.
Proof.
  intros Hx. destruct (collect_bounds prefix geojson) as [Hle _].
  apply Hle. by rewrite collect_samples.
Qed.

Lemma elem_of_samples_not_NaN (geojson : GeoJSON N) (x : N) :
  x ∈ samples prefix geojson -> not_NaN x.
Proof.
  intros Hx. pose proof (samples_not_NaN prefix geojson) as Hall.
  rewrite Forall_forall in Hall. by apply Hall.
Qed.

Lemma calcGlobalMinMax_never_NaN (geojson : GeoJSON N) :
  not_NaN (min (Shared.calcGlobalMinMax prefix geojson))
  /\ not_NaN (max (Shared.calcGlobalMinMax prefix geojson)).
Proof.
  destruct (calcGlobalMinMax_cases geojson) as [(_ & -> & ->) | [Hmin Hmax]].
  - split; [apply not_NaN_Infinity | apply not_NaN_neg_Infinity].
  - split; by eapply elem_of_samples_not_NaN.
Qed.

(** The samples of a collection are those of its features. *)
Lemma samples_subseteq (g g' : GeoJSON N) :
  features g ⊆ features g' -> samples prefix g ⊆ samples prefix g'.
Proof.
  intros Hsub x. rewrite !elem_of_samples.
  intros (f & m & Hf & Hm). exists f, m. split; [by apply Hsub | done].
Qed.

Lemma calcGlobalMinMax_subseteq (g g' : GeoJSON N) :
  samples prefix g ⊆ samples prefix g' ->
  lessEq (min (Shared.calcGlobalMinMax prefix g'))
         (min (Shared.calcGlobalMinMax prefix g)) = true
  /\ lessEq (max (Shared.calcGlobalMinMax prefix g))
            (max (Shared.calcGlobalMinMax prefix g')) = true.
Proof.
  intros Hsub. destruct (calcGlobalMinMax_never_NaN g') as [Hn1 Hn2].
  apply not_NaN_val in Hn1, Hn2.
  destruct (calcGlobalMinMax_cases g) as [(_ & -> & ->) | [Hmin Hmax]].
  - split; apply lessEq_spec; rewrite ?val_Infinity, ?val_neg_Infinity.
    + by destruct (val (min _)) as [|[]|].
    + by destruct (val (max _)) as [|[]|].
  - split; by apply calcGlobalMinMax_lower, Hsub.
Qed.

End Range.

(** X4. The pair of [calcGlobalMinMax] is never made of NaN, whatever the
    fields hold (NaN, [null] and missing fields are skipped); and
    min <= max holds exactly when the collection has a sample, that is a
    number other than NaN in one of the twelve month fields of a feature. *)
Theorem calcGlobalMinMax_never_NaN_ordered {N : Type} {num : Number N}
    {laws : NumberLaws num} (prefix : string) (geojson : GeoJSON N) :
  let stats := Shared.calcGlobalMinMax prefix geojson in
  Number_isNaN (min stats) = false
  /\ Number_isNaN (max stats) = false
  /\ (lessEq (min stats) (max stats) = true <-> samples prefix geojson <> []).
Proof.
  cbv zeta. destruct (calcGlobalMinMax_never_NaN prefix geojson) as [Hn1 Hn2].
  split; [exact Hn1|]. split; [exact Hn2|].
  destruct (calcGlobalMinMax_cases prefix geojson) as [(Hs & Hmin & Hmax) | [Hmin Hmax]].
  - rewrite Hs, Hmin, Hmax. unfold lessEq. rewrite val_Infinity, val_neg_Infinity.
    split; [discriminate | done].
  - split; [intros _ Hs; rewrite Hs in Hmin; by apply elem_of_nil in Hmin|].
    intros _. by apply calcGlobalMinMax_lower.
Qed.

Lemma calcGlobalMinMax_never_NaN_ordered_witness :
  Number_isNaN (min (Temp.calcGlobalMinMax blank_example)) = false
  /\ Number_isNaN (max (Temp.calcGlobalMinMax blank_example)) = false
  /\ (lessEq (min (Temp.calcGlobalMinMax blank_example))
             (max (Temp.calcGlobalMinMax blank_example)) = true
      <-> samples "temp_" blank_example <> []).
Proof. exact (calcGlobalMinMax_never_NaN_ordered "temp_" blank_example). Defined.

(** X5. The pair depends on the set of samples only: two collections with
    the same samples, in whatever order and however often, have the same
    min and the same max; in particular the order of the features of a
    collection does not matter. *)
Theorem calcGlobalMinMax_same_samples {N : Type} {num : Number N}
    {laws : NumberLaws num} (prefix : string) (g g' : GeoJSON N) :
  ((forall x, x ∈ samples prefix g <-> x ∈ samples prefix g') ->
   strictEquals (min (Shared.calcGlobalMinMax prefix g))
                (min (Shared.calcGlobalMinMax prefix g')) = true
   /\ strictEquals (max (Shared.calcGlobalMinMax prefix g))
                   (max (Shared.calcGlobalMinMax prefix g')) = true)
  /\ (features g ≡ₚ features g' ->
      strictEquals (min (Shared.calcGlobalMinMax prefix g))
                   (min (Shared.calcGlobalMinMax prefix g')) = true
      /\ strictEquals (max (Shared.calcGlobalMinMax prefix g))
                      (max (Shared.calcGlobalMinMax prefix g')) = true).
Proof.
  assert ((forall x, x ∈ samples prefix g <-> x ∈ samples prefix g') ->
          strictEquals (min (Shared.calcGlobalMinMax prefix g))
                       (min (Shared.calcGlobalMinMax prefix g')) = true
          /\ strictEquals (max (Shared.calcGlobalMinMax prefix g))
                          (max (Shared.calcGlobalMinMax prefix g')) = true) as Hset.
  { intros Hsame.
    destruct (calcGlobalMinMax_subseteq prefix g g') as [H1 H2];
      [intros x; apply Hsame|].
    destruct (calcGlobalMinMax_subseteq prefix g' g) as [H3 H4];
      [intros x; apply Hsame|].
    apply lessEq_spec in H1, H2, H3, H4.
    split; by apply numval_leP_antisym. }
  split; [exact Hset|].
  intros Hperm. apply Hset. intros x. rewrite !elem_of_samples.
  split; intros (f & m & Hf & Hm); exists f, m; (split; [|done]).
  - by rewrite <- Hperm.
  - by rewrite Hperm.
Qed.

Lemma calcGlobalMinMax_same_samples_witness :
  strictEquals
    (min (Shared.calcGlobalMinMax "temp_" temp_example))
    (min (Shared.calcGlobalMinMax "temp_"
            {| features := rev (features temp_example) |})) = true
  /\ strictEquals
       (max (Shared.calcGlobalMinMax "temp_" temp_example))
       (max (Shared.calcGlobalMinMax "temp_"
               {| features := rev (features temp_example) |})) = true.
Proof.
  apply (calcGlobalMinMax_same_samples "temp_" temp_example
           {| features := rev (features temp_example) |}).
  cbn [features]. apply Permutation_rev.
Defined.

(** X6. More features can only widen the range: when every feature of a
    collection is a feature of a second one, the min of the second is at
    most the min of the first and its max at least the max of the first
    (also when the first has no sample at all). *)
Theorem calcGlobalMinMax_widens {N : Type} {num : Number N}
    {laws : NumberLaws num} (prefix : string) (g g' : GeoJSON N) :
  features g ⊆ features g' ->
  lessEq (min (Shared.calcGlobalMinMax prefix g'))
         (min (Shared.calcGlobalMinMax prefix g)) = true
  /\ lessEq (max (Shared.calcGlobalMinMax prefix g))
            (max (Shared.calcGlobalMinMax prefix g')) = true.
Proof.
  intros Hsub. by apply calcGlobalMinMax_subseteq, samples_subseteq.
Qed.

Lemma calcGlobalMinMax_widens_witness :
  lessEq (min (Shared.calcGlobalMinMax "temp_" temp_example))
         (min (Shared.calcGlobalMinMax "temp_"
                 {| features := take 1 (features temp_example) |})) = true
  /\ lessEq (max (Shared.calcGlobalMinMax "temp_"
                    {| features := take 1 (features temp_example) |}))
            (max (Shared.calcGlobalMinMax "temp_" temp_example)) = true.
Proof.
  apply (calcGlobalMinMax_widens "temp_"
           {| features := take 1 (features temp_example) |} temp_example).
  cbn [features]. apply sublist_subseteq, sublist_take.
Defined.

(** ** Doubles: values outside the range *)

(** A finite double other than zero is determined by its value. *)
Lemma b64_val_inj (x y : float) (p q : Q) :
  val x = Finv p -> val y = Finv q -> (p == q)%Q -> ~ (p == 0)%Q -> x = y.
Proof.
  rewrite !b64_val_sf. intros Hx Hy Hpq Hp0. apply Prim2SF_inj.
  destruct (Prim2SF x) as [sx|sx| |sx mx ex] eqn:Ex; try done;
    destruct (Prim2SF y) as [sy|sy| |sy my ey] eqn:Ey; try done;
    cbn in Hx, Hy; injection Hx as <-; injection Hy as <-.
  - by destruct Hp0.
  - by destruct Hp0.
  - exfalso. apply Hp0. by rewrite Hpq.
  - destruct (valid_finite x _ _ _ Ex) as [Hcx%canonical_fexp _].
    destruct (valid_finite y _ _ _ Ey) as [Hcy%canonical_fexp _].
    pose proof (F2Q_pos mx ex) as Hpx. pose proof (F2Q_pos my ey) as Hpy.
    pose proof (F2Q_neg mx ex) as Hnx. pose proof (F2Q_neg my ey) as Hny.
    assert (sx = sy) as <- by (destruct sx, sy; try done; lra).
    assert (F2Q (Z.pos mx) ex == F2Q (Z.pos my) ey)%Q as Heq by (destruct sx; lra).
    pose proof (magnitude_proper _ _ _ Heq (magnitude_F2Q mx ex)) as Hmag.
    pose proof (magnitude_unique _ _ _ Hmag (magnitude_F2Q my ey)) as Hd.
    assert (ex = ey) as <- by congruence.
    assert (Z.pos mx = Z.pos my) as Hm.
    { apply Z.le_antisymm; apply (F2Q_le _ _ ex); lra. }
    by injection Hm as ->.
Qed.

(** A double whose value is zero is one of the two zeros. *)
Lemma b64_zero_val (x : float) (q : Q) :
  val x = Finv q -> (q == 0)%Q -> exists s, Prim2SF x = S754_zero s.
Proof.
  rewrite b64_val_sf. intros Hx Hq.
  destruct (Prim2SF x) as [s|s| |s m e]; try done; [by exists s|].
  cbn in Hx. injection Hx as <-. exfalso.
  pose proof (F2Q_pos m e). pose proof (F2Q_neg m e). destruct s; lra.
Qed.

(** The clamp below 0 and above 1. *)
Lemma b64_clamp_low (t : float) :
  numval_leP (val t) (Finv 0) -> Math_max [lit 0; Math_min [lit 1; t]] = 0%float.
Proof.
  intros Hle.
  assert (Number_isNaN t = false) as Hn by (unfold Number_isNaN; by destruct (val t)).
  assert ((forall q, val t = Finv q -> (q < 0)%Q)
          \/ (exists q, val t = Finv q /\ (q == 0)%Q)) as [Hneg | (q & Hv & Hq)].
  { destruct (val t) as [|[]|q]; try done; [left; intros; done|].
    cbn in Hle. destruct (Qeq_dec q 0) as [Hq | Hq]; [right; eauto|].
    left. intros q' [= <-]. lra. }
  - destruct (clamp_parts t Hn) as (Hm & _ & Hmt & Hs & H0s & _). cbv zeta in *.
    destruct b64_lit_1 as (c1 & Hc1 & Hc1q).
    destruct Hs as [-> | Hs]; [reflexivity|]. exfalso.
    rewrite Hs in H0s. apply lessEq_spec in H0s, Hmt.
    change (val (lit 0 : float)) with (Finv 0) in H0s.
    destruct Hm as [Hm | Hm]; rewrite Hm in H0s, Hmt.
    + rewrite Hc1 in Hmt. destruct (val t) as [|[]|q] eqn:Hv; try done.
      specialize (Hneg q eq_refl). cbn in Hmt. lra.
    + destruct (val t) as [|[]|q] eqn:Hv; try done.
      specialize (Hneg q eq_refl). cbn in H0s. lra.
  - destruct (b64_zero_val t q Hv Hq) as (s & Hz). exact (b64_clamp_zero t s Hz).
Qed.

Lemma b64_clamp_high (t : float) :
  numval_leP (Finv 1) (val t) -> Math_max [lit 0; Math_min [lit 1; t]] = 1%float.
Proof.
  intros Hle.
  assert (Number_isNaN t = false) as Hn by (unfold Number_isNaN; by destruct (val t)).
  destruct (clamp_parts t Hn) as (Hm & Hm1 & _ & _). cbv zeta in *.
  destruct b64_lit_1 as (c1 & Hc1 & Hc1q).
  assert (Math_min [lit 1; t] = lit 1) as ->; [|vm_compute; reflexivity].
  destruct Hm as [Hm | Hm]; [done|]. rewrite Hm in Hm1 |- *.
  apply lessEq_spec in Hm1. rewrite Hc1 in Hm1.
  destruct (val t) as [|[]|q] eqn:Hv; cbn in Hle, Hm1; try done.
  apply (b64_val_inj t (lit 1) q c1 Hv Hc1); lra.
Qed.

(** Subtracting a finite double, and dividing by a positive one, keep the
    order of all numbers, infinite ones included. *)
Lemma b64_sub_inf (x y : float) (s : bool) :
  val x = Infv s -> isFinite y = true -> val (x - y)%float = Infv s.
Proof.
  unfold isFinite. rewrite !b64_val_sf, sub_spec.
  destruct (Prim2SF x) as [| | |]; try done; destruct (Prim2SF y) as [| | |]; try done.
Qed.

Lemma b64_positive (d : float) (dq : Q) :
  val d = Finv dq -> (0 < dq)%Q -> exists m e, Prim2SF d = S754_finite false m e.
Proof.
  rewrite b64_val_sf. intros Hd Hpos.
  destruct (Prim2SF d) as [s|s| |s m e]; try done; cbn in Hd; injection Hd as <-.
  - lra.
  - pose proof (F2Q_pos m e). pose proof (F2Q_neg m e). destruct s; [lra|]. eauto.
Qed.

Lemma b64_div_inf (x d : float) (s : bool) (dq : Q) :
  val x = Infv s -> val d = Finv dq -> (0 < dq)%Q -> val (x / d)%float = Infv s.
Proof.
  intros Hx Hd Hpos. destruct (b64_positive d dq Hd Hpos) as (m & e & Ed).
  rewrite b64_val_sf in Hx |- *. rewrite div_spec, Ed.
  destruct (Prim2SF x) as [| | |]; try done. cbn in *. by rewrite xorb_false_r.
Qed.

Lemma numval_leP_bottom (w : numval) : w <> NaNv -> numval_leP (Infv true) w.
Proof. by destruct w as [|[]|]. Qed.

Lemma numval_leP_top (w : numval) : w <> NaNv -> numval_leP w (Infv false).
Proof. by destruct w as [|[]|]. Qed.

Lemma b64_sub_mono_ext (v1 v2 y : float) :
  numval_leP (val v1) (val v2) -> isFinite y = true ->
  numval_leP (val (v1 - y)%float) (val (v2 - y)%float).
Proof.
  intros Hle Hy. destruct (b64_finite_val y Hy) as (yq & Hyq).
  destruct (val v1) as [|s1|a1] eqn:H1; [done| |];
    (destruct (val v2) as [|s2|a2] eqn:H2; [cbn in Hle; by repeat case_match| |]).
  - rewrite (b64_sub_inf v1 y s1 H1 Hy), (b64_sub_inf v2 y s2 H2 Hy). exact Hle.
  - destruct s1; [|done]. rewrite (b64_sub_inf v1 y true H1 Hy).
    apply numval_leP_bottom. eapply signed_rounded_not_NaN. by apply b64_sub_rounded.
  - destruct s2; [done|]. rewrite (b64_sub_inf v2 y false H2 Hy).
    apply numval_leP_top. eapply signed_rounded_not_NaN. by apply b64_sub_rounded.
  - by apply (b64_sub_mono_l v1 v2 y a1 a2 yq).
Qed.

Lemma b64_div_mono_ext (n1 n2 d : float) (dq : Q) :
  numval_leP (val n1) (val n2) -> val d = Finv dq -> (0 < dq)%Q ->
  numval_leP (val (n1 / d)%float) (val (n2 / d)%float).
Proof.
  intros Hle Hd Hpos.
  destruct (val n1) as [|s1|a1] eqn:H1; [done| |];
    (destruct (val n2) as [|s2|a2] eqn:H2; [cbn in Hle; by repeat case_match| |]).
  - rewrite (b64_div_inf n1 d s1 dq H1 Hd Hpos), (b64_div_inf n2 d s2 dq H2 Hd Hpos).
    exact Hle.
  - destruct s1; [|done]. rewrite (b64_div_inf n1 d true dq H1 Hd Hpos).
    apply numval_leP_bottom. eapply signed_rounded_not_NaN.
    apply (b64_div_rounded n2 d a2 dq); try done. lra.
  - destruct s2; [done|]. rewrite (b64_div_inf n2 d false dq H2 Hd Hpos).
    apply numval_leP_top. eapply signed_rounded_not_NaN.
    apply (b64_div_rounded n1 d a1 dq); try done. lra.
  - by apply (b64_div_mono_l n1 n2 d a1 a2 dq).
Qed.

(** The parameter [t] does not decrease with the value, over a range with
    min <= max whose width does not overflow. *)
Lemma b64_t_mono (v1 v2 min max : float) :
  isFinite min = true -> isFinite (max - min)%js = true -> lessEq min max = true ->
  lessEq v1 v2 = true ->
  numval_leP (val ((v1 - min) / or_else (max - min) (lit 1))%js)
             (val ((v2 - min) / or_else (max - min) (lit 1))%js).
Proof.
  intros Hmin Hfin Hle Hv.
  pose proof (b64_sub_finite_l _ _ Hfin Hmin) as Hmax.
  destruct (b64_finite_val _ Hmin) as (mq & Hmq).
  destruct (b64_finite_val _ Hmax) as (Mq & HMq).
  apply lessEq_spec in Hle, Hv. rewrite Hmq, HMq in Hle. cbn in Hle.
  destruct (b64_denominator_pos min max mq Mq Hmq HMq Hle Hfin)
    as (dq & dd & _ & _ & Hdd & Hddq).
  cbn [num_sub num_div binary64] in *.
  apply (b64_div_mono_ext _ _ _ dd); try done. by apply b64_sub_mono_ext.
Qed.

Lemma lessEq_not_NaN (x y : float) :
  lessEq x y = true -> Number_isNaN x = false /\ Number_isNaN y = false.
Proof.
  intros H%lessEq_spec. unfold Number_isNaN.
  destruct (val x) as [|[]|]; try done; by destruct (val y) as [|[]|].
Qed.

(** The clamped parameter does not decrease with the value, whatever the
    two values. *)
Lemma b64_clamped_mono_ext (v1 v2 min max : float) :
  isFinite (max - min)%js = true -> lessEq min max = true -> lessEq v1 v2 = true ->
  exists q1 q2,
    val (Shared.clamped v1 min max) = Finv q1
    /\ val (Shared.clamped v2 min max) = Finv q2
    /\ (0 <= q1 <= q2)%Q /\ (q2 <= 1)%Q.
Proof.
  intros Hfin Hle Hv. destruct (b64_sub_finite _ _ Hfin) as [_ Hmin].
  destruct (lessEq_not_NaN _ _ Hv) as [Hn1 Hn2].
  pose proof (b64_t_mono v1 v2 min max Hmin Hfin Hle Hv) as Ht.
  pose proof (b64_t_not_NaN v1 min max Hn1 Hmin Hfin) as Hnt1.
  pose proof (b64_t_not_NaN v2 min max Hn2 Hmin Hfin) as Hnt2.
  apply lessEq_spec in Ht.
  pose proof (clamp_mono _ _ Hnt1 Hnt2 Ht) as Hs.
  destruct (clamp_range ((v1 - min) / or_else (max - min) (lit 1))%js) as [Hr1 _].
  destruct (clamp_range ((v2 - min) / or_else (max - min) (lit 1))%js) as [Hr2 _].
  destruct (Hr1 Hnt1) as [H10 H11]. destruct (Hr2 Hnt2) as [H20 H21].
  destruct (b64_unit _ H10 H11) as (q1 & Hq1 & Hq1r).
  destruct (b64_unit _ H20 H21) as (q2 & Hq2 & Hq2r).
  apply lessEq_spec in Hs. rewrite Hq1, Hq2 in Hs. cbn in Hs.
  exists q1, q2. unfold Shared.clamped. cbv zeta. repeat split; try done; lra.
Qed.

(** At or below min the parameter is 0; at or above max it is 1. *)
Lemma b64_saturation_low (v min max : float) :
  isFinite (max - min)%js = true -> lessEq min max = true -> lessEq v min = true ->
  Shared.clamped v min max = 0%float.
Proof.
  intros Hfin Hle Hv. destruct (b64_sub_finite _ _ Hfin) as [_ Hmin].
  pose proof (b64_t_mono v min min max Hmin Hfin Hle Hv) as Ht.
  unfold Shared.clamped. cbv zeta. apply b64_clamp_low.
  eapply numval_leP_trans; [exact Ht|].
  pose proof (b64_sub_finite_l _ _ Hfin Hmin) as Hmax.
  destruct (b64_finite_val _ Hmin) as (mq & Hmq).
  destruct (b64_finite_val _ Hmax) as (Mq & HMq).
  apply lessEq_spec in Hle. rewrite Hmq, HMq in Hle. cbn in Hle.
  destruct (b64_denominator_pos min max mq Mq Hmq HMq Hle Hfin)
    as (dq & dd & _ & _ & Hdd & Hddq).
  assert (isFinite (or_else (max - min) (lit 1))%js = true) as Hdf
    by (unfold isFinite; by rewrite Hdd).
  assert (ToBoolean (or_else (max - min) (lit 1))%js = true) as Hdb.
  { unfold ToBoolean. rewrite Hdd. apply negb_true_iff, Qzero_bool_false. lra. }
  destruct (b64_zero_div _ _ _ (b64_sub_self min Hmin) Hdf Hdb) as (s & Hz).
  assert (val ((min - min) / or_else (max - min) (lit 1))%js = Finv 0) as ->
    by exact (b64_val_zero _ s Hz).
  cbn. lra.
Qed.

Lemma b64_saturation_high (v min max : float) :
  isFinite (max - min)%js = true -> lessThan min max = true -> lessEq max v = true ->
  Shared.clamped v min max = 1%float.
Proof.
  intros Hfin Hlt Hv. destruct (b64_sub_finite _ _ Hfin) as [_ Hmin].
  assert (lessEq min max = true) as Hle.
  { apply lessEq_spec. unfold lessThan in Hlt. by apply numval_lt_leP. }
  assert (strictEquals min max = false) as Hne.
  { unfold lessThan in Hlt. unfold strictEquals.
    destruct (val min) as [|[]|p], (val max) as [|[]|q]; try done. cbn in *.
    apply Qcompare_Lt_iff in Hlt. apply not_true_iff_false. intros H%Qeq_bool_iff. lra. }
  pose proof (b64_extremes_distinct min max Hmin Hfin Hne) as Hb.
  pose proof (b64_t_mono max v min max Hmin Hfin Hle Hv) as Ht.
  unfold Shared.clamped. cbv zeta. apply b64_clamp_high.
  eapply numval_leP_trans; [|exact Ht].
  assert (((max - min) / or_else (max - min) (lit 1))%js = 1%float) as ->.
  { unfold or_else. rewrite Hb. exact (b64_div_self _ Hfin Hb). }
  destruct b64_lit_1 as (c1 & Hc1 & Hc1q).
  change (val 1%float) with (val (lit 1 : float)). rewrite Hc1. cbn. lra.
Qed.

(** ** The color mappers over all numbers *)

(** X7. Values at or beyond the ends of the range take the colors of the
    ends, on doubles, for every range min <= max whose width max - min is
    finite: a value at or below min (-Infinity included) has parameter 0
    and the first color of the gradient, also when min = max; when
    min < max, a value at or above max (+Infinity included) has parameter 1
    and the last color. *)
Theorem getColor_saturates (v min max : float) :
  isFinite (max - min)%js = true -> lessEq min max = true ->
  (lessEq v min = true ->
     Shared.clamped v min max = lit 0
     /\ Temp.getColorTemp (Num v) min max = "rgb(0,0,255)"%string
     /\ Precip.getColor (Num v) min max = "rgb(255,255,255)"%string)
  /\ (lessThan min max = true -> lessEq max v = true ->
        Shared.clamped v min max = lit 1
        /\ Temp.getColorTemp (Num v) min max = "rgb(255,0,0)"%string
        /\ Precip.getColor (Num v) min max = "rgb(0,0,255)"%string).
Proof.
  intros Hfin Hle. split.
  - intros Hv. destruct (lessEq_not_NaN _ _ Hv) as [Hn _].
    pose proof (b64_saturation_low v min max Hfin Hle Hv) as Hs.
    rewrite getColorTemp_rgb, getColor_rgb, Hs by done.
    repeat split; vm_compute; reflexivity.
  - intros Hlt Hv. destruct (lessEq_not_NaN _ _ Hv) as [_ Hn].
    pose proof (b64_saturation_high v min max Hfin Hlt Hv) as Hs.
    rewrite getColorTemp_rgb, getColor_rgb, Hs by done.
    repeat split; vm_compute; reflexivity.
Qed.

Lemma getColor_saturates_witness :
  Temp.getColorTemp (Num (-40.5)%float) (-3.25)%float 31.5%float = "rgb(0,0,255)"%string
  /\ Precip.getColor (Num PrimFloat.infinity) 0.1%float 250.7%float
     = "rgb(0,0,255)"%string.
Proof.
  split.
  - apply (getColor_saturates (-40.5)%float (-3.25)%float 31.5%float); reflexivity.
  - apply (getColor_saturates PrimFloat.infinity 0.1%float 250.7%float); reflexivity.
Defined.

(** X8. On doubles the gradients are monotone over all numbers, not only
    strictly inside the range: for every range min <= max whose width is
    finite and every v1 <= v2 (at the ends, outside the range, infinite),
    each color is the gradient at the clamped parameter and every channel
    moves in one direction from v1 to v2 (see [monotone_step]). *)
Theorem getColor_monotone_everywhere (min max v1 v2 : float) :
  isFinite (max - min)%js = true -> lessEq min max = true -> lessEq v1 v2 = true ->
  monotone_step v1 v2 min max.
Proof.
  intros Hfin Hle Hv. unfold monotone_step. cbv zeta.
  destruct (lessEq_not_NaN _ _ Hv) as [Hn1 Hn2].
  destruct (b64_clamped_mono_ext v1 v2 min max Hfin Hle Hv)
    as (q1 & q2 & Hq1 & Hq2 & Hq & Hq2r).
  rewrite !getColorTemp_rgb, !getColor_rgb by done.
  do 4 (split; [reflexivity|]).
  destruct (b64_Temp_channels_mono _ _ q1 q2 Hq1 Hq2 Hq Hq2r) as (Hr & Hb & Hg1 & Hg2).
  destruct (b64_Precip_channels_mono _ _ q1 q2 Hq1 Hq2 Hq Hq2r) as (Hpr & Hpg & Hpb).
  destruct b64_lit_half as (ch & Hc & Hch).
  split; [exact Hr|]. split; [exact Hb|]. split.
  { intros Hhalf%lessEq_spec. rewrite Hq2, Hc in Hhalf. cbn in Hhalf. apply Hg1. lra. }
  split.
  { intros Hhalf%lessEq_spec. rewrite Hq1, Hc in Hhalf. cbn in Hhalf. apply Hg2. lra. }
  split; [exact Hpr|]. split; [exact Hpg | exact Hpb].
Qed.

Lemma getColor_monotone_everywhere_witness :
  monotone_step (-7.5)%float 10.1%float 10.1%float 20.3%float
  /\ monotone_step 20.3%float PrimFloat.infinity 10.1%float 20.3%float.
Proof.
  split.
  - apply (getColor_monotone_everywhere 10.1%float 20.3%float (-7.5)%float 10.1%float);
      reflexivity.
  - apply (getColor_monotone_everywhere 10.1%float 20.3%float 20.3%float
             PrimFloat.infinity); reflexivity.
Defined.

(** ** From the data to the map *)

(** The difference of two doubles of moderate size is finite. *)
Lemma b64_moderate_val (x : float) :
  moderate x -> exists q, val x = Finv q /\ (Qabs q <= 2 ^ 1022)%Q.
Proof.
  intros [Hlo Hhi]. apply lessEq_spec in Hlo, Hhi.
  change (val (-0x1p1022)%float) with (Finv (F2Q (Z.neg (2 ^ 52)) 970)) in Hlo.
  change (val 0x1p1022%float) with (Finv (F2Q (Z.pos (2 ^ 52)) 970)) in Hhi.
  pose proof (F2Q_neg (2 ^ 52) 970) as Hneg.
  pose proof (F2Q_power 52 970 ltac:(lia)) as Hpow.
  change (2 ^ 52)%Z with (Z.pos (2 ^ 52)) in Hpow. change (52 + 970) with 1022 in Hpow.
  destruct (val x) as [|[]|q]; try done. cbn in Hlo, Hhi.
  exists q. split; [done|]. apply Qabs_Qle_condition. lra.
Qed.

Lemma b64_moderate_width (x y : float) :
  moderate x -> moderate y -> isFinite (x - y)%js = true.
Proof.
  intros (xq & Hx & Hxq)%b64_moderate_val (yq & Hy & Hyq)%b64_moderate_val.
  apply Qabs_Qle_condition in Hxq, Hyq.
  assert (val 0x1p1023%float = Finv (F2Q (Z.pos (2 ^ 52)) 971)) as Hb by reflexivity.
  pose proof (F2Q_power 52 971 ltac:(lia)) as Hpow.
  change (2 ^ 52)%Z with (Z.pos (2 ^ 52)) in Hpow. change (52 + 971) with 1023 in Hpow.
  destruct (signed_rounded_bounded _ _ _ _ (b64_sub_rounded x y xq yq Hx Hy) Hb)
    as (r & Hr & _).
  - apply Qabs_Qle_condition. lra.
  - unfold isFinite. cbn [num_sub binary64]. by rewrite Hr.
Qed.

(** The colors of the two ends, on doubles. *)
Lemma b64_first_color (x min max : float) :
  Number_isNaN x = false -> Shared.clamped x min max = 0%float ->
  Temp.getColorTemp (Num x) min max = "rgb(0,0,255)"%string
  /\ Precip.getColor (Num x) min max = "rgb(255,255,255)"%string.
Proof.
  intros Hn Hs. rewrite getColorTemp_rgb, getColor_rgb, Hs by done.
  split; vm_compute; reflexivity.
Qed.

Lemma b64_last_color (x min max : float) :
  Number_isNaN x = false -> Shared.clamped x min max = 1%float ->
  Temp.getColorTemp (Num x) min max = "rgb(255,0,0)"%string
  /\ Precip.getColor (Num x) min max = "rgb(0,0,255)"%string.
Proof.
  intros Hn Hs. rewrite getColorTemp_rgb, getColor_rgb, Hs by done.
  split; vm_compute; reflexivity.
Qed.

Section MapOfData.
(** A script: its prefix, its stroke, its mapper and the two ends of its
    gradient. *)
Variable prefix stroke : string.
Variable colorOf : value float -> float -> float -> string.
Variable first last : string.
Hypothesis colorOf_absent :
  forall v min max, no_data v -> colorOf v min max = "#f0f0f0"%string.
Hypothesis colorOf_color :
  forall x min max, Number_isNaN x = false -> isFinite (max - min)%js = true ->
    is_color (colorOf (Num x) min max).
Hypothesis colorOf_first :
  forall x min max, Number_isNaN x = false -> Shared.clamped x min max = 0%float ->
    colorOf (Num x) min max = first.
Hypothesis colorOf_last :
  forall x min max, Number_isNaN x = false -> Shared.clamped x min max = 1%float ->
    colorOf (Num x) min max = last.

Variable geojson : GeoJSON float.
Hypothesis some_sample : samples prefix geojson <> [].
Hypothesis all_moderate : Forall moderate (samples prefix geojson).

Let stats := Shared.calcGlobalMinMax prefix geojson.
Let style := Shared.regionStyle prefix colorOf stroke stats.

Lemma data_range :
  min stats ∈ samples prefix geojson /\ max stats ∈ samples prefix geojson
  /\ lessEq (min stats) (max stats) = true
  /\ isFinite (max stats - min stats)%js = true.
Proof.
  destruct (calcGlobalMinMax_cases prefix geojson) as [(Hs & _) | [Hmin Hmax]]; [done|].
  fold stats in Hmin, Hmax. split; [done|]. split; [done|].
  split; [by apply calcGlobalMinMax_lower|].
  rewrite Forall_forall in all_moderate. apply b64_moderate_width; by apply all_moderate.
Qed.

Lemma data_fill (m : nat) (f : Feature float) :
  fillColor (style m f) = "#f0f0f0"%string \/ is_color (fillColor (style m f)).
Proof.
  destruct data_range as (_ & _ & _ & Hfin).
  unfold style, Shared.regionStyle. cbn [fillColor].
  destruct (Shared.getRegionValue prefix f m) as [| |x] eqn:Hv.
  - left. apply colorOf_absent. by right; left.
  - left. apply colorOf_absent. by left.
  - destruct (Number_isNaN x) eqn:Hx.
    + left. apply colorOf_absent. right; right; eauto.
    + right. by apply colorOf_color.
Qed.

Lemma sample_painted (x : float) :
  x ∈ samples prefix geojson ->
  exists f m, f ∈ features geojson /\ (1 <= m <= 12)%nat
              /\ fillColor (style m f) = colorOf (Num x) (min stats) (max stats).
Proof.
  intros (f & m & Hf & Hm & Hv & Hx)%elem_of_samples.
  exists f, m. split; [done|]. split; [done|].
  unfold style, Shared.regionStyle. cbn [fillColor]. by rewrite Hv.
Qed.

Lemma data_first : painted_with style geojson first.
Proof.
  destruct data_range as (Hmin & _ & Hle & Hfin).
  destruct (sample_painted _ Hmin) as (f & m & Hf & Hm & Hc).
  exists f, m. split; [done|]. split; [done|]. rewrite Hc.
  pose proof (elem_of_samples_not_NaN prefix geojson _ Hmin) as Hn.
  apply colorOf_first; [done|]. apply b64_saturation_low; try done.
  apply lessEq_spec, numval_leP_refl. by apply not_NaN_val.
Qed.

Lemma data_last :
  strictEquals (min stats) (max stats) = false -> painted_with style geojson last.
Proof.
  intros Hne. destruct data_range as (_ & Hmax & Hle & Hfin).
  destruct (sample_painted _ Hmax) as (f & m & Hf & Hm & Hc).
  exists f, m. split; [done|]. split; [done|]. rewrite Hc.
  pose proof (elem_of_samples_not_NaN prefix geojson _ Hmax) as Hn.
  apply colorOf_last; [done|]. apply b64_saturation_high; try done.
  - unfold lessThan. unfold strictEquals in Hne. apply lessEq_spec in Hle.
    destruct (val (min stats)) as [|[]|p], (val (max stats)) as [|[]|q]; try done.
    cbn in *. apply Qcompare_Lt_iff. apply Qeq_bool_neq in Hne. lra.
  - apply lessEq_spec, numval_leP_refl. by apply not_NaN_val.
Qed.

Lemma data_uniform (m : nat) (f : Feature float) :
  strictEquals (min stats) (max stats) = true ->
  f ∈ features geojson -> (1 <= m <= 12)%nat ->
  fillColor (style m f) = "#f0f0f0"%string \/ fillColor (style m f) = first.
Proof.
  intros Heq Hf Hm. destruct data_range as (_ & _ & Hle & Hfin).
  unfold style, Shared.regionStyle. cbn [fillColor].
  destruct (Shared.getRegionValue prefix f m) as [| |x] eqn:Hv.
  - left. apply colorOf_absent. by right; left.
  - left. apply colorOf_absent. by left.
  - destruct (Number_isNaN x) eqn:Hx.
    + left. apply colorOf_absent. right; right; eauto.
    + right. apply colorOf_first; [done|]. apply b64_saturation_low; try done.
      assert (x ∈ samples prefix geojson) as Hin by (apply elem_of_samples; eauto 10).
      destruct (calcGlobalMinMax_lower prefix geojson x Hin) as [_ Hxmax].
      fold stats in Hxmax. apply lessEq_spec in Hxmax. apply lessEq_spec.
      unfold strictEquals in Heq.
      destruct (val x) as [|[]|xq], (val (min stats)) as [|[]|p],
        (val (max stats)) as [|[]|q]; try done.
      cbn in *. apply Qeq_bool_iff in Heq. lra.
Qed.
End MapOfData.

Lemma getColor_no_data {N : Type} {num : Number N} (v : value N) (min max : N) :
  no_data v ->
  Temp.getColorTemp v min max = "#f0f0f0"%string
  /\ Precip.getColor v min max = "#f0f0f0"%string.
Proof.
  intros Hv.
  destruct (getColor_cases v min max) as [(_ & H1 & H2) | (x & -> & Hx & _)]; [done|].
  destruct Hv as [|[|(y & [= <-] & Hy)]]; congruence.
Qed.

Lemma b64_color (x min max : float) :
  Number_isNaN x = false -> isFinite (max - min)%js = true ->
  is_color (Temp.getColorTemp (Num x) min max)
  /\ is_color (Precip.getColor (Num x) min max).
Proof.
  intros Hx Hfin. destruct (b64_sub_finite _ _ Hfin) as [_ Hmin].
  by apply b64_well_formed.
Qed.

(** X9. The temperature map of a data set, on doubles. When the collection
    has at least one sample and its samples are of moderate size (within
    -2^1022 and 2^1022), the pair of [calcGlobalMinMax] satisfies
    min <= max and its width does not overflow; under the style of that
    pair every region, in every month, is filled with the placeholder or
    with a well-formed color; some region of the collection is blue,
    ["rgb(0,0,255)"], in some month (the one that holds the minimum); when
    min and max differ some region is red, ["rgb(255,0,0)"]; and when they
    are equal every region of the collection is blue or has the
    placeholder. *)
Theorem Temp_map_of_data (geojson : GeoJSON float) :
  samples "temp_" geojson <> [] -> Forall moderate (samples "temp_" geojson) ->
  let stats := Temp.calcGlobalMinMax geojson in
  let style := Temp.regionStyle stats in
  lessEq (min stats) (max stats) = true
  /\ isFinite (max stats - min stats)%js = true
  /\ (forall m f, fillColor (style m f) = "#f0f0f0"%string
                  \/ is_color (fillColor (style m f)))
  /\ painted_with style geojson "rgb(0,0,255)"
  /\ (strictEquals (min stats) (max stats) = false ->
      painted_with style geojson "rgb(255,0,0)")
  /\ (strictEquals (min stats) (max stats) = true ->
      forall m f, f ∈ features geojson -> (1 <= m <= 12)%nat ->
        fillColor (style m f) = "#f0f0f0"%string
        \/ fillColor (style m f) = "rgb(0,0,255)"%string).
Proof.
  intros Hsome Hmod. cbv zeta.
  pose proof (fun v mn mx H => proj1 (getColor_no_data (N := float) v mn mx H)) as Habsent.
  pose proof (fun x mn mx H1 H2 => proj1 (b64_color x mn mx H1 H2)) as Hcolor.
  pose proof (fun x mn mx H1 H2 => proj1 (b64_first_color x mn mx H1 H2)) as Hfirst.
  pose proof (fun x mn mx H1 H2 => proj1 (b64_last_color x mn mx H1 H2)) as Hlast.
  destruct (data_range "temp_" geojson Hsome Hmod) as (_ & _ & Hle & Hfin).
  split; [exact Hle|]. split; [exact Hfin|]. split; [|split; [|split]].
  - exact (data_fill "temp_" "#555" _ Habsent Hcolor geojson Hsome Hmod).
  - exact (data_first "temp_" "#555" _ _ Hfirst geojson Hsome Hmod).
  - exact (data_last "temp_" "#555" _ _ Hlast geojson Hsome Hmod).
  - intros Heq m f.
    exact (data_uniform "temp_" "#555" _ _ Habsent Hfirst geojson Hsome Hmod m f Heq).
Qed.

Lemma Temp_map_of_data_witness :
  painted_with (Temp.regionStyle (Temp.calcGlobalMinMax temp_example)) temp_example
    "rgb(0,0,255)"
  /\ painted_with (Temp.regionStyle (Temp.calcGlobalMinMax temp_example)) temp_example
       "rgb(255,0,0)".
Proof.
  assert (samples "temp_" temp_example = [2; 5; -1]%float) as Hs
    by (vm_compute; reflexivity).
  assert (samples "temp_" temp_example <> []) as Hsome by (by rewrite Hs).
  assert (Forall moderate (samples "temp_" temp_example)) as Hmod
    by (rewrite Hs; repeat constructor).
  destruct (Temp_map_of_data temp_example Hsome Hmod) as (_ & _ & _ & H1 & H2 & _).
  split; [exact H1 | by apply H2].
Defined.

(** X10. The precipitation map of a data set, on doubles: as for the
    temperature map, with the gradient from white, ["rgb(255,255,255)"],
    for the minimum of the data to blue, ["rgb(0,0,255)"], for its
    maximum. *)
Theorem Precip_map_of_data (geojson : GeoJSON float) :
  samples "precip_" geojson <> [] -> Forall moderate (samples "precip_" geojson) ->
  let stats := Precip.calcGlobalMinMax geojson in
  let style := Precip.regionStyle stats in
  lessEq (min stats) (max stats) = true
  /\ isFinite (max stats - min stats)%js = true
  /\ (forall m f, fillColor (style m f) = "#f0f0f0"%string
                  \/ is_color (fillColor (style m f)))
  /\ painted_with style geojson "rgb(255,255,255)"
  /\ (strictEquals (min stats) (max stats) = false ->
      painted_with style geojson "rgb(0,0,255)")
  /\ (strictEquals (min stats) (max stats) = true ->
      forall m f, f ∈ features geojson -> (1 <= m <= 12)%nat ->
        fillColor (style m f) = "#f0f0f0"%string
        \/ fillColor (style m f) = "rgb(255,255,255)"%string).
Proof.
  intros Hsome Hmod. cbv zeta.
  pose proof (fun v mn mx H => proj2 (getColor_no_data (N := float) v mn mx H)) as Habsent.
  pose proof (fun x mn mx H1 H2 => proj2 (b64_color x mn mx H1 H2)) as Hcolor.
  pose proof (fun x mn mx H1 H2 => proj2 (b64_first_color x mn mx H1 H2)) as Hfirst.
  pose proof (fun x mn mx H1 H2 => proj2 (b64_last_color x mn mx H1 H2)) as Hlast.
  destruct (data_range "precip_" geojson Hsome Hmod) as (_ & _ & Hle & Hfin).
  split; [exact Hle|]. split; [exact Hfin|]. split; [|split; [|split]].
  - exact (data_fill "precip_" "#555555" _ Habsent Hcolor geojson Hsome Hmod).
  - exact (data_first "precip_" "#555555" _ _ Hfirst geojson Hsome Hmod).
  - exact (data_last "precip_" "#555555" _ _ Hlast geojson Hsome Hmod).
  - intros Heq m f.
    exact (data_uniform "precip_" "#555555" _ _ Habsent Hfirst geojson Hsome Hmod m f Heq).
Qed.

Lemma Precip_map_of_data_witness :
  painted_with (Precip.regionStyle (Precip.calcGlobalMinMax precip_example)) precip_example
    "rgb(255,255,255)"
  /\ painted_with (Precip.regionStyle (Precip.calcGlobalMinMax precip_example))
       precip_example "rgb(0,0,255)".
Proof.
  assert (samples "precip_" precip_example = [2; 5; -1]%float) as Hs
    by (vm_compute; reflexivity).
  assert (samples "precip_" precip_example <> []) as Hsome by (by rewrite Hs).
  assert (Forall moderate (samples "precip_" precip_example)) as Hmod
    by (rewrite Hs; repeat constructor).
  destruct (Precip_map_of_data precip_example Hsome Hmod) as (_ & _ & _ & H1 & H2 & _).
  split; [exact H1 | by apply H2].
Defined.

(** ** The clamp on the values of the data *)

(** The clamp leaves a parameter of [0, 1] as it is. *)
Lemma clamp_inactive {N : Type} {num : Number N} {laws : NumberLaws num} (t : N) :
  lessEq (lit 0) t = true -> lessEq t (lit 1) = true ->
  strictEquals (Math_max [lit 0; Math_min [lit 1; t]]) t = true.
Proof.
  intros H0 H1.
  assert (val t <> NaNv) as Hv.
  { apply lessEq_spec in H0. intros Hv. rewrite Hv in H0.
    by destruct (val (lit 0)) as [|[]|]. }
  assert (Number_isNaN t = false) as Hn by (by apply not_NaN_val).
  destruct (clamp_parts t Hn) as (Hm & _ & Hmt & Hs & _ & Hms). cbv zeta in *.
  apply lessEq_spec in H0, H1, Hmt, Hms. unfold strictEquals.
  destruct Hs as [Hs | Hs]; destruct Hm as [Hm | Hm];
    rewrite Hs in Hms |- *; rewrite Hm in Hmt, Hms.
  - exfalso. destruct val_lit_0 as (q0 & Hq0 & Hq0'). destruct val_lit_1 as (q1 & Hq1 & Hq1').
    rewrite Hq0, Hq1 in Hms. cbn in Hms. lra.
  - by apply numval_leP_antisym.
  - rewrite Hm. by apply numval_leP_antisym.
  - rewrite Hm. apply numval_leP_antisym; by apply numval_leP_refl.
Qed.

(** The parameter of min is 0 and the parameter of max is at most 1. *)
Lemma b64_t_ends (min max : float) :
  isFinite (max - min)%js = true -> lessEq min max = true ->
  val ((min - min) / or_else (max - min) (lit 1))%js = Finv 0
  /\ numval_leP (val ((max - min) / or_else (max - min) (lit 1))%js)
                (val (lit 1 : float)).
Proof.
  intros Hfin Hle. destruct (b64_sub_finite _ _ Hfin) as [Hmax Hmin].
  destruct (b64_finite_val _ Hmin) as (mq & Hmq).
  destruct (b64_finite_val _ Hmax) as (Mq & HMq).
  apply lessEq_spec in Hle. rewrite Hmq, HMq in Hle. cbn in Hle.
  destruct (b64_denominator_pos min max mq Mq Hmq HMq Hle Hfin)
    as (dq & dd & Hdq & _ & Hdd & Hddq).
  assert (isFinite (or_else (max - min) (lit 1))%js = true) as Hdf
    by (unfold isFinite; by rewrite Hdd).
  assert (ToBoolean (or_else (max - min) (lit 1))%js = true) as Hdb.
  { unfold ToBoolean. rewrite Hdd. apply negb_true_iff, Qzero_bool_false. lra. }
  split.
  - destruct (b64_zero_div _ _ _ (b64_sub_self min Hmin) Hdf Hdb) as (s & Hz).
    exact (b64_val_zero _ s Hz).
  - destruct b64_lit_1 as (c1 & Hc1 & Hc1q). rewrite Hc1.
    unfold or_else in *. destruct (ToBoolean (max - min)%js) eqn:Hb.
    + assert (((max - min) / (max - min))%js = lit 1) as -> by exact (b64_div_self _ Hfin Hb).
      rewrite Hc1. cbn. lra.
    + unfold ToBoolean in Hb. rewrite Hdq in Hb. apply negb_false_iff, Qzero_bool_iff in Hb.
      destruct (b64_zero_val _ dq Hdq Hb) as (s & Hs).
      destruct (b64_zero_div _ _ _ Hs Hdf Hdb) as (s' & Hz).
      assert (val ((max - min) / lit 1)%js = Finv 0) as -> by exact (b64_val_zero _ s' Hz).
      cbn. lra.
Qed.

(** X11. The clamp is idle on the data. On doubles, when the collection has
    at least one sample and its samples are of moderate size, the
    parameter t of every sample, computed from the pair of the collection,
    lies in [0, 1], and the clamped parameter equals t: the clamp only
    changes the parameter of values outside the data. *)
Theorem clamped_of_sample (prefix : string) (geojson : GeoJSON float) (x : float) :
  Forall moderate (samples prefix geojson) -> x ∈ samples prefix geojson ->
  let stats := Shared.calcGlobalMinMax prefix geojson in
  let t := ((x - min stats) / or_else (max stats - min stats) (lit 1))%js in
  lessEq (lit 0) t = true /\ lessEq t (lit 1) = true
  /\ strictEquals (Shared.clamped x (min stats) (max stats)) t = true.
Proof.
  intros Hmod Hx. cbv zeta.
  assert (samples prefix geojson <> []) as Hsome
    by (intros Hs; rewrite Hs in Hx; by apply elem_of_nil in Hx).
  destruct (data_range prefix geojson Hsome Hmod) as (_ & _ & Hle & Hfin).
  destruct (calcGlobalMinMax_lower prefix geojson x Hx) as [Hlo Hhi].
  destruct (b64_sub_finite _ _ Hfin) as [_ Hmin].
  destruct (b64_t_ends _ _ Hfin Hle) as [Ht0 Ht1].
  pose proof (b64_t_mono _ _ _ _ Hmin Hfin Hle Hlo) as Hlow.
  pose proof (b64_t_mono _ _ _ _ Hmin Hfin Hle Hhi) as Hhigh.
  rewrite Ht0 in Hlow.
  assert (lessEq (lit 0) ((x - min (Shared.calcGlobalMinMax prefix geojson))
            / or_else (max (Shared.calcGlobalMinMax prefix geojson)
                       - min (Shared.calcGlobalMinMax prefix geojson)) (lit 1))%js = true)
    as H0 by (apply lessEq_spec; exact Hlow).
  assert (lessEq ((x - min (Shared.calcGlobalMinMax prefix geojson))
            / or_else (max (Shared.calcGlobalMinMax prefix geojson)
                       - min (Shared.calcGlobalMinMax prefix geojson)) (lit 1))%js (lit 1)
          = true)
    as H1 by (apply lessEq_spec; by eapply numval_leP_trans).
  split; [exact H0|]. split; [exact H1|].
  unfold Shared.clamped. cbv zeta. by apply clamp_inactive.
Qed.

Lemma clamped_of_sample_witness :
  strictEquals
    (Shared.clamped 2%float (min (Shared.calcGlobalMinMax "temp_" temp_example))
       (max (Shared.calcGlobalMinMax "temp_" temp_example)))
    ((2%float - min (Shared.calcGlobalMinMax "temp_" temp_example))
     / or_else (max (Shared.calcGlobalMinMax "temp_" temp_example)
                - min (Shared.calcGlobalMinMax "temp_" temp_example)) (lit 1))%js = true.
Proof.
  assert (samples "temp_" temp_example = [2; 5; -1]%float) as Hs
    by (vm_compute; reflexivity).
  assert (Forall moderate (samples "temp_" temp_example)) as Hmod
    by (rewrite Hs; repeat constructor).
  assert (2%float ∈ samples "temp_" temp_example) as Hx by (rewrite Hs; by left).
  exact (proj2 (proj2 (clamped_of_sample "temp_" temp_example 2%float Hmod Hx))).
Defined.

(** ** A collection without numbers *)

Lemma no_sample_no_data {N : Type} {num : Number N} (prefix : string)
    (geojson : GeoJSON N) (f : Feature N) (m : nat) :
  samples prefix geojson = [] -> f ∈ features geojson -> (1 <= m <= 12)%nat ->
  no_data (Shared.getRegionValue prefix f m).
Proof.
  intros Hs Hf Hm. destruct (Shared.getRegionValue prefix f m) as [| |x] eqn:Hv.
  - by right; left.
  - by left.
  - right; right. exists x. split; [done|].
    destruct (Number_isNaN x) eqn:Hx; [done|]. exfalso.
    assert (x ∈ samples prefix geojson) as Hin by (apply elem_of_samples; eauto 10).
    rewrite Hs in Hin. by apply elem_of_nil in Hin.
Qed.

(** X12. A collection without any sample, on doubles. The pair is
    (Infinity, -Infinity), which is not [null], so the legend is built all
    the same: each of its six values is NaN, and the legend consists of six
    items with the placeholder color and the label ["NaN"]. Every region of
    the collection is filled with the placeholder, in each of the twelve
    months. This holds for both scripts. *)
Theorem no_sample_map_and_legend (geojson : GeoJSON float) (legendDiv : list LegendItem) :
  let blank := {| background := "#f0f0f0"; textContent := Some "NaN"%string |} in
  (samples "temp_" geojson = [] ->
   let stats := Temp.calcGlobalMinMax geojson in
   (forall i, (i <= 5)%nat -> Number_isNaN (Shared.legendValue stats i) = true)
   /\ Temp.updateLegend (Some stats) legendDiv = replicate 6 blank
   /\ (forall m f, f ∈ features geojson -> (1 <= m <= 12)%nat ->
         fillColor (Temp.regionStyle stats m f) = "#f0f0f0"%string))
  /\ (samples "precip_" geojson = [] ->
      let stats := Precip.calcGlobalMinMax geojson in
      (forall i, (i <= 5)%nat -> Number_isNaN (Shared.legendValue stats i) = true)
      /\ Precip.updateLegend (Some stats) legendDiv = replicate 6 blank
      /\ (forall m f, f ∈ features geojson -> (1 <= m <= 12)%nat ->
            fillColor (Precip.regionStyle stats m f) = "#f0f0f0"%string)).
Proof.
  cbv zeta.
  assert (forall i, (i <= 5)%nat ->
            Number_isNaN
              (Shared.legendValue {| min := PrimFloat.infinity;
                                     max := PrimFloat.neg_infinity |} i) = true) as Hnan.
  { intros i Hi. destruct i as [|[|[|[|[|[|i]]]]]]; [..|lia]; vm_compute; reflexivity. }
  split; intros Hs.
  - assert (Temp.calcGlobalMinMax geojson
            = {| min := PrimFloat.infinity; max := PrimFloat.neg_infinity |}) as ->.
    { unfold Temp.calcGlobalMinMax, Shared.calcGlobalMinMax.
      by rewrite collect_samples, Hs. }
    split; [exact Hnan|]. split; [vm_compute; reflexivity|].
    intros m f Hf Hm. unfold Temp.regionStyle, Shared.regionStyle. cbn [fillColor].
    exact (proj1 (getColor_no_data _ _ _ (no_sample_no_data "temp_" geojson f m Hs Hf Hm))).
  - assert (Precip.calcGlobalMinMax geojson
            = {| min := PrimFloat.infinity; max := PrimFloat.neg_infinity |}) as ->.
    { unfold Precip.calcGlobalMinMax, Shared.calcGlobalMinMax.
      by rewrite collect_samples, Hs. }
    split; [exact Hnan|]. split; [vm_compute; reflexivity|].
    intros m f Hf Hm. unfold Precip.regionStyle, Shared.regionStyle. cbn [fillColor].
    exact (proj2 (getColor_no_data _ _ _
                    (no_sample_no_data "precip_" geojson f m Hs Hf Hm))).
Qed.

Lemma no_sample_map_and_legend_witness :
  Temp.updateLegend (Some (Temp.calcGlobalMinMax blank_example)) []
  = replicate 6 {| background := "#f0f0f0"; textContent := Some "NaN"%string |}
  /\ Precip.updateLegend (Some (Precip.calcGlobalMinMax blank_example)) []
     = replicate 6 {| background := "#f0f0f0"; textContent := Some "NaN"%string |}.
Proof.
  destruct (no_sample_map_and_legend blank_example []) as [Ht Hp]. cbv zeta in Ht, Hp.
  split; [apply Ht | apply Hp]; vm_compute; reflexivity.
Defined.

(** ** The legend on doubles *)

(** Two doubles that are equal as numbers have the same value. *)
Lemma b64_strictEquals_val (x y : float) : strictEquals x y = true -> val x = val y.
Proof.
  unfold strictEquals. intros Heq.
  destruct (val x) as [|sx|p] eqn:Hx; destruct (val y) as [|sy|q] eqn:Hy; try done.
  - cbn in Heq. by apply eqb_prop in Heq as ->.
  - cbn in Heq. apply Qeq_bool_iff in Heq.
    destruct (Qeq_dec p 0) as [Hp | Hp].
    + destruct (b64_zero_val x p Hx Hp) as (s & Hsx).
      destruct (b64_zero_val y q Hy ltac:(lra)) as (s' & Hsy).
      rewrite (b64_val_zero x s Hsx) in Hx. rewrite (b64_val_zero y s' Hsy) in Hy.
      congruence.
    + rewrite <- Hx, <- Hy. f_equal. by apply (b64_val_inj x y p q).
Qed.

(** The fractions i / 5 of the six steps lie in [0, 1]. *)
Lemma b64_fraction (i : nat) :
  (i <= 5)%nat ->
  exists c, val ((lit (Z.of_nat i) / lit (Z.of_nat Shared.steps))%js : float) = Finv c
            /\ (0 <= c <= 1)%Q.
Proof.
  intros Hi. destruct (Nat.eq_dec i 5%nat) as [-> | Hne].
  - destruct (b64_fractions 4%nat ltac:(lia)) as (c1 & c2 & _ & Hc2 & Hc & Hc2q).
    exists c2. split; [exact Hc2 | lra].
  - destruct (b64_fractions i ltac:(lia)) as (c1 & c2 & Hc1 & _ & Hc & Hc2q).
    exists c1. split; [exact Hc1 | lra].
Qed.

(** The part of a finite width that a step adds is finite. *)
Lemma b64_legend_step (f d : float) (c dq : Q) :
  val f = Finv c -> (0 <= c <= 1)%Q -> val d = Finv dq ->
  exists p, val (f * d)%float = Finv p /\ (Qabs p <= Qabs dq)%Q
            /\ ((0 <= dq)%Q -> (0 <= p)%Q) /\ ((dq <= 0)%Q -> (p <= 0)%Q).
Proof.
  intros Hf Hc Hd. destruct (b64_abs_val d dq Hd) as (r & Hr & Hrq).
  destruct (signed_rounded_bounded _ _ _ r (b64_mul_rounded f d c dq Hf Hd) Hr)
    as (p & Hp & Hpr & Hpos & Hneg).
  - rewrite Hrq. apply Qabs_Qle_condition.
    destruct (Qlt_le_dec dq 0) as [Hlt | Hge].
    + rewrite Qabs_neg by lra. nra.
    + rewrite Qabs_pos by lra. nra.
  - exists p. split; [exact Hp|]. split; [lra|]. split; intros.
    + apply Hpos. nra.
    + apply Hneg. nra.
Qed.

Lemma b64_legendValue_not_NaN (globalStats : GlobalStats float) (i : nat) :
  isFinite (max globalStats - min globalStats)%js = true -> (i <= 5)%nat ->
  Number_isNaN (Shared.legendValue globalStats i) = false.
Proof.
  destruct globalStats as [mn mx]. cbn [min max]. intros Hfin Hi.
  destruct (b64_sub_finite _ _ Hfin) as [_ Hmin].
  destruct (b64_finite_val _ Hmin) as (mq & Hmq).
  destruct (b64_finite_val _ Hfin) as (dq & Hdq).
  destruct (b64_fraction i Hi) as (c & Hc & Hcq).
  destruct (b64_legend_step _ _ c dq Hc Hcq Hdq) as (p & Hp & _).
  pose proof (signed_rounded_not_NaN _ _ (b64_add_rounded mn _ mq p Hmq Hp)) as Hn.
  unfold Shared.legendValue, Number_isNaN.
  cbn [min max num_add num_mul num_sub num_div binary64] in *.
  by destruct (val (mn + _)%float).
Qed.

(** With min = max every value of the legend is min. *)
Lemma b64_legendValue_single (globalStats : GlobalStats float) (i : nat) :
  isFinite (min globalStats) = true ->
  strictEquals (min globalStats) (max globalStats) = true -> (i <= 5)%nat ->
  isFinite (max globalStats - min globalStats)%js = true
  /\ strictEquals (Shared.legendValue globalStats i) (min globalStats) = true.
Proof.
  destruct globalStats as [mn mx]. cbn [min max]. intros Hmin Heq Hi.
  destruct (b64_finite_val _ Hmin) as (mq & Hmq).
  pose proof (b64_strictEquals_val _ _ Heq) as HMq. rewrite Hmq in HMq. symmetry in HMq.
  pose proof (b64_sub_rounded mx mn mq mq HMq Hmq) as Hd.
  assert (exists dq, val (mx - mn)%float = Finv dq /\ (dq == 0)%Q) as (dq & Hdq & Hdq0).
  { assert (val 0%float = Finv 0) as H0 by reflexivity.
    destruct (signed_rounded_bounded _ _ 0%float 0 Hd H0) as (r & Hr & Hrq & _).
    - apply Qabs_Qle_condition. lra.
    - exists r. split; [done|]. apply Qabs_Qle_condition in Hrq. lra. }
  assert (isFinite (mx - mn)%js = true) as Hfin
    by (unfold isFinite; cbn [num_sub binary64]; by rewrite Hdq).
  split; [exact Hfin|].
  destruct (b64_fraction i Hi) as (c & Hc & Hcq).
  destruct (b64_legend_step _ _ c dq Hc Hcq Hdq) as (p & Hp & Hpq & _).
  assert (p == 0)%Q as Hp0.
  { assert (Qabs dq == 0)%Q as Habs by (rewrite Hdq0; reflexivity).
    apply Qabs_Qle_condition in Hpq. lra. }
  pose proof (b64_add_rounded mn _ mq p Hmq Hp) as Hsum.
  pose proof (finite_signed_rounded mn mq Hmq) as Hself.
  unfold Shared.legendValue, strictEquals.
  cbn [min max num_add num_mul num_sub num_div binary64] in *. rewrite Hmq.
  apply numval_leP_antisym.
  - apply (signed_rounded_mono (mq + p) mq); [lra | done | done].
  - apply (signed_rounded_mono mq (mq + p)); [lra | done | done].
Qed.

(** X13. The swatches of the legend, on doubles, for every pair whose
    width max - min is finite: each of the six swatches is a well-formed
    color, for both scripts; and when min <= max the first swatch is the
    first color of the gradient and from each swatch to the next every
    channel moves in one direction (see [monotone_step]). *)
Theorem updateLegend_swatches (globalStats : GlobalStats float)
    (legendDiv : list LegendItem) :
  isFinite (max globalStats - min globalStats)%js = true ->
  Forall (fun item => is_color (background item))
         (Temp.updateLegend (Some globalStats) legendDiv)
  /\ Forall (fun item => is_color (background item))
            (Precip.updateLegend (Some globalStats) legendDiv)
  /\ (lessEq (min globalStats) (max globalStats) = true ->
      background <$> head (Temp.updateLegend (Some globalStats) legendDiv)
      = Some "rgb(0,0,255)"%string
      /\ background <$> head (Precip.updateLegend (Some globalStats) legendDiv)
         = Some "rgb(255,255,255)"%string
      /\ forall i, (i < 5)%nat ->
           monotone_step (Shared.legendValue globalStats i)
                         (Shared.legendValue globalStats (S i))
                         (min globalStats) (max globalStats)).
Proof.
  intros Hfin. destruct (b64_sub_finite _ _ Hfin) as [_ Hmin].
  unfold Temp.updateLegend, Precip.updateLegend. rewrite !updateLegend_items.
  split; [|split].
  - apply Forall_forall. intros item (i & -> & Hi%elem_of_seq)%list_elem_of_fmap.
    cbn [Shared.legendItem background].
    pose proof (b64_legendValue_not_NaN globalStats i Hfin ltac:(lia)) as Hn.
    exact (proj1 (b64_color _ _ _ Hn Hfin)).
  - apply Forall_forall. intros item (i & -> & Hi%elem_of_seq)%list_elem_of_fmap.
    cbn [Shared.legendItem background].
    pose proof (b64_legendValue_not_NaN globalStats i Hfin ltac:(lia)) as Hn.
    exact (proj2 (b64_color _ _ _ Hn Hfin)).
  - intros Hle.
    pose proof (b64_legend_first globalStats Hmin Hfin) as Hfirst.
    pose proof (b64_legendValue_not_NaN globalStats 0 Hfin ltac:(lia)) as Hn.
    assert (Shared.clamped (Shared.legendValue globalStats 0) (min globalStats)
              (max globalStats) = 0%float) as Hs.
    { apply b64_saturation_low; try done. apply lessEq_spec.
      rewrite (b64_strictEquals_val _ _ Hfirst). apply numval_leP_refl.
      apply not_NaN_val. by apply b64_isFinite_not_NaN. }
    destruct (b64_first_color _ _ _ Hn Hs) as [Ht Hp].
    cbn [seq map head fmap option_fmap option_map Shared.legendItem background].
    split; [by rewrite Ht|]. split; [by rewrite Hp|].
    intros i Hi.
    pose proof (b64_legend_ascending globalStats Hmin Hfin Hle i Hi) as Hasc.
    destruct (lessEq_not_NaN _ _ Hasc) as [Hn1 Hn2].
    destruct (b64_clamped_mono_ext _ _ _ _ Hfin Hle Hasc)
      as (q1 & q2 & Hq1 & Hq2 & Hq & Hq2r).
    unfold monotone_step. cbv zeta.
    rewrite !getColorTemp_rgb, !getColor_rgb by done.
    do 4 (split; [reflexivity|]).
    destruct (b64_Temp_channels_mono _ _ q1 q2 Hq1 Hq2 Hq Hq2r) as (Hr & Hb & Hg1 & Hg2).
    destruct (b64_Precip_channels_mono _ _ q1 q2 Hq1 Hq2 Hq Hq2r) as (Hpr & Hpg & Hpb).
    destruct b64_lit_half as (ch & Hc & Hch).
    split; [exact Hr|]. split; [exact Hb|]. split.
    { intros Hhalf%lessEq_spec. rewrite Hq2, Hc in Hhalf. cbn in Hhalf. apply Hg1. lra. }
    split.
    { intros Hhalf%lessEq_spec. rewrite Hq1, Hc in Hhalf. cbn in Hhalf. apply Hg2. lra. }
    split; [exact Hpr|]. split; [exact Hpg | exact Hpb].
Qed.

Lemma updateLegend_swatches_witness :
  Forall (fun item => is_color (background item))
         (Temp.updateLegend (Some {| min := (-3.25)%float; max := 31.5%float |}) []).
Proof.
  exact (proj1 (updateLegend_swatches {| min := (-3.25)%float; max := 31.5%float |} []
                  eq_refl)).
Defined.

(** X14. The legend of a pair with min = max (a data set that holds a
    single value), on doubles: the six values are all equal to min, the six
    swatches all have the first color of the gradient, and the six labels
    are the label of min. *)
Theorem updateLegend_single_value (globalStats : GlobalStats float)
    (legendDiv : list LegendItem) :
  isFinite (min globalStats) = true ->
  strictEquals (min globalStats) (max globalStats) = true ->
  (forall i, (i <= 5)%nat ->
     strictEquals (Shared.legendValue globalStats i) (min globalStats) = true)
  /\ Temp.updateLegend (Some globalStats) legendDiv
     = replicate 6 {| background := "rgb(0,0,255)";
                      textContent := toFixed (min globalStats) 1 |}
  /\ Precip.updateLegend (Some globalStats) legendDiv
     = replicate 6 {| background := "rgb(255,255,255)";
                      textContent := toFixed (min globalStats) 0 |}.
Proof.
  intros Hmin Heq.
  assert (forall i, (i <= 5)%nat ->
            strictEquals (Shared.legendValue globalStats i) (min globalStats) = true
            /\ Shared.legendItem Temp.getColorTemp 1 globalStats i
               = {| background := "rgb(0,0,255)";
                    textContent := toFixed (min globalStats) 1 |}
            /\ Shared.legendItem Precip.getColor 0 globalStats i
               = {| background := "rgb(255,255,255)";
                    textContent := toFixed (min globalStats) 0 |}) as Hitem.
  { intros i Hi.
    destruct (b64_legendValue_single globalStats i Hmin Heq Hi) as [Hfin Hv].
    pose proof (b64_legendValue_not_NaN globalStats i Hfin Hi) as Hn.
    pose proof (b64_strictEquals_val _ _ Hv) as Hval.
    assert (lessEq (min globalStats) (max globalStats) = true) as Hle.
    { apply lessEq_spec. rewrite <- (b64_strictEquals_val _ _ Heq).
      apply numval_leP_refl, not_NaN_val. by apply b64_isFinite_not_NaN. }
    assert (Shared.clamped (Shared.legendValue globalStats i) (min globalStats)
              (max globalStats) = 0%float) as Hs.
    { apply b64_saturation_low; try done. apply lessEq_spec. rewrite Hval.
      apply numval_leP_refl, not_NaN_val. by apply b64_isFinite_not_NaN. }
    destruct (b64_first_color _ _ _ Hn Hs) as [Ht Hp].
    split; [exact Hv|]. unfold Shared.legendItem, toFixed. rewrite Ht, Hp, Hval. done. }
  split; [intros i Hi; by apply Hitem|].
  unfold Temp.updateLegend, Precip.updateLegend. rewrite !updateLegend_items.
  cbn [seq map replicate].
  split; repeat f_equal; by apply Hitem; lia.
Qed.

Lemma updateLegend_single_value_witness :
  map background (Temp.updateLegend (Some {| min := 21.5%float; max := 21.5%float |}) [])
  = replicate 6 "rgb(0,0,255)"%string.
Proof.
  rewrite (proj1 (proj2 (updateLegend_single_value
                           {| min := 21.5%float; max := 21.5%float |} []
                           eq_refl eq_refl))).
  reflexivity.
Defined.

(** ** The series of a region and its colors *)

Lemma length_getMonthlySeries {N : Type} {num : Number N}
    (prefix : string) (props : gmap string (value N)) :
  length (Shared.getMonthlySeries prefix props) = 12%nat.
Proof. reflexivity. Qed.

Lemma getMonthlySeries_index {N : Type} {num : Number N}
    (prefix : string) (props : gmap string (value N)) (i : nat) :
  (i < 12)%nat ->
  Shared.getMonthlySeries prefix props !! i
  = Some (nullish (get props (Shared.getMonthPropertyName prefix (S i))) Null).
Proof.
  intros Hi. pose proof (getMonthlySeries_lookup prefix props (S i) ltac:(lia)) as H.
  by replace (S i - 1)%nat with i in H by lia.
Qed.

(** X15. The chart and the map agree. For a month m from 1 to 12, the
    entry m-1 of the series of a feature is [null] or NaN exactly when the
    region has the placeholder fill in month m; and when the entry is a
    number x other than NaN, the fill of the region in month m is the color
    of x. This holds for both scripts and every pair of statistics. *)
Theorem getMonthlySeries_regionStyle {N : Type} {num : Number N}
    (globalStats : GlobalStats N) (feature : Feature N) (m : nat) :
  (1 <= m <= 12)%nat ->
  let temp := Temp.getMonthlySeries (properties feature) !! (m - 1)%nat in
  let precip := Precip.getMonthlySeries (properties feature) !! (m - 1)%nat in
  ((temp = Some Null \/ exists x, temp = Some (Num x) /\ Number_isNaN x = true)
   <-> fillColor (Temp.regionStyle globalStats m feature) = "#f0f0f0"%string)
  /\ (forall x, temp = Some (Num x) -> Number_isNaN x = false ->
        fillColor (Temp.regionStyle globalStats m feature)
        = Temp.getColorTemp (Num x) (min globalStats) (max globalStats))
  /\ ((precip = Some Null \/ exists x, precip = Some (Num x) /\ Number_isNaN x = true)
      <-> fillColor (Precip.regionStyle globalStats m feature) = "#f0f0f0"%string)
  /\ (forall x, precip = Some (Num x) -> Number_isNaN x = false ->
        fillColor (Precip.regionStyle globalStats m feature)
        = Precip.getColor (Num x) (min globalStats) (max globalStats)).
Proof.
  intros Hm. cbv zeta.
  unfold Temp.getMonthlySeries, Precip.getMonthlySeries.
  rewrite !getMonthlySeries_lookup by done.
  unfold Temp.regionStyle, Precip.regionStyle, Shared.regionStyle, Shared.getRegionValue.
  cbn [fillColor].
  split; [|split; [|split]].
  - destruct (get (properties feature) (Shared.getMonthPropertyName "temp_" m))
      as [| |x] eqn:Hv; cbn [nullish is_null is_undefined orb].
    + split; [done | intros _; by left].
    + split; [done | intros _; by left].
    + destruct (getColor_cases (Num x) (min globalStats) (max globalStats))
        as [(Hno & -> & _) | (y & [= <-] & Hy & -> & _)].
      * split; [done|]. intros _. right. exists x. split; [done|].
        destruct Hno as [|[|(y & [= <-] & Hy)]]; done.
      * split.
        -- intros [|(y & [= <-] & Hy')]; [done | congruence].
        -- unfold rgb_of. destruct (Temp.channels _) as [[r g] b].
           intros H. by apply rgb_not_placeholder in H.
  - intros x.
    destruct (get (properties feature) (Shared.getMonthPropertyName "temp_" m))
      as [| |y]; cbn [nullish is_null is_undefined orb]; try done. by intros [= ->].
  - destruct (get (properties feature) (Shared.getMonthPropertyName "precip_" m))
      as [| |x] eqn:Hv; cbn [nullish is_null is_undefined orb].
    + split; [done | intros _; by left].
    + split; [done | intros _; by left].
    + destruct (getColor_cases (Num x) (min globalStats) (max globalStats))
        as [(Hno & _ & ->) | (y & [= <-] & Hy & _ & ->)].
      * split; [done|]. intros _. right. exists x. split; [done|].
        destruct Hno as [|[|(y & [= <-] & Hy)]]; done.
      * split.
        -- intros [|(y & [= <-] & Hy')]; [done | congruence].
        -- unfold rgb_of. destruct (Precip.channels _) as [[r g] b].
           intros H. by apply rgb_not_placeholder in H.
  - intros x.
    destruct (get (properties feature) (Shared.getMonthPropertyName "precip_" m))
      as [| |y]; cbn [nullish is_null is_undefined orb]; try done. by intros [= ->].
Qed.

Lemma getMonthlySeries_regionStyle_witness :
  fillColor (Temp.regionStyle hundred 6 {| properties := sparse_temp |})
  = Temp.getColorTemp (Num 24%float) 0%float 100%float.
Proof.
  assert (1 <= 6 <= 12)%nat as Hm by lia.
  apply (proj1 (proj2 (getMonthlySeries_regionStyle hundred
                         {| properties := sparse_temp |} 6 Hm)) 24%float);
    reflexivity.
Defined.

(** X16. Writing a month into a property bag and building the series
    commute: after the field of a month m from 1 to 12 is set to v, the
    series is the former series with entry m-1 replaced by v (by [null]
    when v is [null] or [undefined]); and setting a property that is not
    one of the twelve month fields, a name for instance, leaves the series
    as it was. *)
Theorem getMonthlySeries_insert {N : Type} {num : Number N} (prefix : string)
    (props : gmap string (value N)) (v : value N) :
  (forall m, (1 <= m <= 12)%nat ->
     Shared.getMonthlySeries prefix (<[Shared.getMonthPropertyName prefix m := v]> props)
     = <[(m - 1)%nat := nullish v Null]> (Shared.getMonthlySeries prefix props))
  /\ (forall key,
        (forall m, (1 <= m <= 12)%nat -> key <> Shared.getMonthPropertyName prefix m) ->
        Shared.getMonthlySeries prefix (<[key := v]> props)
        = Shared.getMonthlySeries prefix props).
Proof.
  split.
  - intros m Hm. apply list_eq. intros i.
    destruct (decide (i < 12)%nat) as [Hi | Hi].
    + rewrite getMonthlySeries_index by done.
      destruct (decide (i = m - 1)%nat) as [-> | Hne].
      * rewrite list_lookup_insert_eq by (rewrite length_getMonthlySeries; lia).
        replace (S (m - 1)) with m by lia. unfold get. by rewrite lookup_insert_eq.
      * rewrite list_lookup_insert_ne by done.
        rewrite getMonthlySeries_index by done. unfold get.
        rewrite lookup_insert_ne; [done|].
        intros Heq%getMonthPropertyName_inj. lia.
    + rewrite !lookup_ge_None_2; [done|..];
        rewrite ?length_insert, length_getMonthlySeries; lia.
  - intros key Hkey. rewrite !getMonthlySeries_map. apply map_ext_in.
    intros m Hm%in_seq. unfold get. rewrite lookup_insert_ne; [done|].
    apply Hkey. lia.
Qed.

Lemma getMonthlySeries_insert_witness :
  Shared.getMonthlySeries "temp_"
    (<[Shared.getMonthPropertyName "temp_" 3 := Num 7.5%float]> sparse_temp)
  = <[2%nat := Num 7.5%float]> (Shared.getMonthlySeries "temp_" sparse_temp).
Proof.
  apply (proj1 (getMonthlySeries_insert "temp_" sparse_temp (Num 7.5%float)) 3%nat).
  lia.
Defined.

(** X17. The chart stays within the legend. For every feature of a
    collection, each entry of its series that is a number other than NaN
    lies between the min and the max that [calcGlobalMinMax] computes from
    the collection. *)
Theorem getMonthlySeries_in_range {N : Type} {num : Number N} {laws : NumberLaws num}
    (prefix : string) (geojson : GeoJSON N) (f : Feature N) (x : N) :
  f ∈ features geojson ->
  Num x ∈ Shared.getMonthlySeries prefix (properties f) ->
  Number_isNaN x = false ->
  let stats := Shared.calcGlobalMinMax prefix geojson in
  lessEq (min stats) x = true /\ lessEq x (max stats) = true.
Proof.
  intros Hf Hx Hn. cbv zeta. apply calcGlobalMinMax_lower.
  apply list_elem_of_lookup in Hx as (i & Hi).
  assert (i < 12)%nat as Hlt.
  { apply lookup_lt_Some in Hi. by rewrite length_getMonthlySeries in Hi. }
  rewrite getMonthlySeries_index in Hi by done.
  apply elem_of_samples. exists f, (S i). split; [done|]. split; [lia|].
  split; [|done]. unfold Shared.getRegionValue.
  destruct (get (properties f) (Shared.getMonthPropertyName prefix (S i))) as [| |y];
    cbn in Hi; congruence.
Qed.

Lemma getMonthlySeries_in_range_witness :
  lessEq (min (Shared.calcGlobalMinMax "temp_" temp_example)) 5%float = true
  /\ lessEq 5%float (max (Shared.calcGlobalMinMax "temp_" temp_example)) = true.
Proof.
  apply (getMonthlySeries_in_range "temp_" temp_example
           (feature_of [("temp_01"%string, Num 2%float); ("temp_07"%string, Num 5%float)])
           5%float).
  - by left.
  - vm_compute. do 6 right. by left.
  - reflexivity.
Defined.

(** ** The info panel and the chart *)

Lemma name_or_not_empty (a : name_value) (b : string) :
  b <> ""%string -> name_or a b <> ""%string.
Proof.
  intros Hb. destruct a as [| |s]; try done. cbn.
  destruct (String.eqb s "") eqn:Hs; [done|]. by apply String.eqb_neq.
Qed.

Lemma run_app {E A : Type} (handler : E -> A -> outcome A) (l1 l2 : list E) (page : A) :
  run handler (l1 ++ l2) page
  = match run handler l1 page with
    | Normal page => run handler l2 page
    | TypeError => TypeError
    end.
Proof.
  revert page. induction l1 as [|e l1 IH]; intros page; [done|].
  cbn. by destruct (handler e page).
Qed.

Section Clicks.
Context {N E : Type}.
Variable chartLabel yUnit subtitle : string.
Variable monthsMeta_labels : list string.
(** A handler that sets the two texts of the panel and updates the chart. *)
Variable handler : E -> Page N -> outcome (Page N).
Variable title : E -> string.
Variable series : E -> list (value N).
Hypothesis handler_updates : forall e page,
  handler e page
  = Shared.updateChart (title e) (series e)
      {| chart := chart page; info_title := title e; info_subtitle := subtitle |}.

(** The page once the chart exists: one data set, with the options of the
    constructor. *)
Let with_chart (l : string) (d : list (value N)) (t s : string) : Page N :=
  {| chart := Some {| type := "line"; labels := monthsMeta_labels;
                      datasets := [{| label := l; data := d; fill := true;
                                      tension := 3 # 10 |}];
                      responsive := true; y_title := yUnit |};
     info_title := t; info_subtitle := s |}.

Lemma handler_with_chart (e : E) (l : string) (d : list (value N)) (t s : string) :
  handler e (with_chart l d t s) = Normal (with_chart (title e) (series e) (title e) subtitle).
Proof. by rewrite handler_updates. Qed.

Lemma run_with_chart (events : list E) :
  forall l d t s,
  exists l' d' t' s',
    run handler events (with_chart l d t s) = Normal (with_chart l' d' t' s').
Proof.
  induction events as [|e events IH]; intros l d t s; [by eexists _, _, _, _|].
  cbn [run]. rewrite handler_with_chart. apply IH.
Qed.

Lemma run_last_with_chart (events : list E) (e : E) (page : Page N) :
  run handler (events ++ [e]) (Shared.initChart chartLabel yUnit monthsMeta_labels page)
  = Normal (with_chart (title e) (series e) (title e) subtitle).
Proof.
  rewrite run_app.
  change (Shared.initChart chartLabel yUnit monthsMeta_labels page)
    with (with_chart chartLabel [] (info_title page) (info_subtitle page)).
  destruct (run_with_chart events chartLabel [] (info_title page) (info_subtitle page))
    as (l & d & t & s & ->).
  cbn [run]. by rewrite handler_with_chart.
Qed.

Lemma run_last_without_chart (events : list E) (e : E) : forall t s,
  run handler (events ++ [e]) {| chart := None; info_title := t; info_subtitle := s |}
  = Normal {| chart := None; info_title := title e; info_subtitle := subtitle |}.
Proof.
  induction events as [|e' events IH]; intros t s; cbn [app run];
    rewrite handler_updates; [done | apply IH].
Qed.
End Clicks.

(** X18. The clicks of the temperature script. After [initChart], whatever
    regions have been clicked before, a click on a region never throws and
    leaves the chart with the month labels it was created with and a
    single data set: its label is the title, its data are the twelve
    entries of the series of the region, and its options are those of the
    constructor; the panel shows the same title and the subtitle of the
    script. The title is the name of the region, or ["Région"] when the
    name is missing, [null] or empty, so it is never empty. Before
    [initChart], a click sets the panel and leaves the chart undefined. *)
Theorem Temp_onRegionClick_last {N : Type} (monthsMeta_labels : list string)
    (page : Page N) (clicks : list (Properties N)) (props : Properties N) :
  let title := name_or (nom_region props) "Région" in
  let series := Temp.getMonthlySeries (month_fields props) in
  run Temp.onRegionClick (clicks ++ [props]) (Temp.initChart monthsMeta_labels page)
  = Normal
      {| chart :=
           Some {| type := "line"; labels := monthsMeta_labels;
                   datasets := [{| label := title; data := series; fill := true;
                                   tension := 3 # 10 |}];
                   responsive := true; y_title := "°C" |};
         info_title := title;
         info_subtitle := "Température moyenne mensuelle (°C)" |}
  /\ (chart page = None ->
      run Temp.onRegionClick (clicks ++ [props]) page
      = Normal {| chart := None; info_title := title;
                  info_subtitle := "Température moyenne mensuelle (°C)" |})
  /\ length series = 12%nat
  /\ title <> ""%string
  /\ (forall s, nom_region props = NameStr s -> s <> ""%string -> title = s).
Proof.
  cbv zeta. split; [|split; [|split; [|split]]].
  - by apply (run_last_with_chart (E := Properties N) _ _ _ _ Temp.onRegionClick
                (fun props => name_or (nom_region props) "Région")
                (fun props => Temp.getMonthlySeries (month_fields props))).
  - destruct page as [c t s]. cbn [chart]. intros ->.
    by apply (run_last_without_chart (E := Properties N) _ Temp.onRegionClick
                (fun props => name_or (nom_region props) "Région")
                (fun props => Temp.getMonthlySeries (month_fields props))).
  - reflexivity.
  - by apply name_or_not_empty.
  - intros s -> Hs. cbn. by apply String.eqb_neq in Hs as ->.
Qed.

(** X19. The clicks of the precipitation script, on regions and on cities
    in any order: as for the temperature script, with the name of the city
    or ["Ville"] for a click on a city. *)
Theorem Precip_onClick_last {N : Type} (monthsMeta_labels : list string)
    (page : Page N) (clicks : list (click N)) (e : click N) :
  run onClick (clicks ++ [e]) (Precip.initChart monthsMeta_labels page)
  = Normal
      {| chart :=
           Some {| type := "line"; labels := monthsMeta_labels;
                   datasets := [{| label := title_of e; data := series_of e; fill := true;
                                   tension := 3 # 10 |}];
                   responsive := true; y_title := "mm" |};
         info_title := title_of e;
         info_subtitle := "Précipitations mensuelles (mm)" |}
  /\ (chart page = None ->
      run onClick (clicks ++ [e]) page
      = Normal {| chart := None; info_title := title_of e;
                  info_subtitle := "Précipitations mensuelles (mm)" |})
  /\ length (series_of e) = 12%nat
  /\ title_of e <> ""%string
  /\ (forall props s, e = RegionClick props -> nom_region props = NameStr s ->
        s <> ""%string -> title_of e = s)
  /\ (forall props s, e = VilleClick props -> nom_ville props = NameStr s ->
        s <> ""%string -> title_of e = s).
Proof.
  assert (forall (e : click N) page,
            onClick e page
            = Shared.updateChart (title_of e) (series_of e)
                {| chart := chart page; info_title := title_of e;
                   info_subtitle := "Précipitations mensuelles (mm)" |}) as Hspec
    by (by intros []).
  split; [|split; [|split; [|split; [|split]]]].
  - by apply (run_last_with_chart _ _ _ _ onClick title_of series_of).
  - destruct page as [c t s]. cbn [chart]. intros ->.
    by apply (run_last_without_chart _ onClick title_of series_of).
  - by destruct e.
  - destruct e; by apply name_or_not_empty.
  - intros props s -> Hn Hs. cbn. rewrite Hn. cbn. by apply String.eqb_neq in Hs as ->.
  - intros props s -> Hn Hs. cbn. rewrite Hn. cbn. by apply String.eqb_neq in Hs as ->.
Qed.
